(** * Crypto-Trading-Simulator: the C++ matching core

    A shallow embedding of [cpp_core/src/engine.cpp] and
    [cpp_core/include/engine.hpp]: the circular-buffer moving average
    ([SMACalculator]) and the price-time-priority limit order book
    ([OrderBook]).

    Numbers.  The engine computes on C++ [double] and [size_t].
    - [size_t] is an [N] below [2^64]; every increment is written with its
      wrap-around ([wrap]).
    - [double] is reached through the interface [Arith], which lists exactly
      the operations the engine applies to a double.  The instance
      [binary64] interprets them by the kernel's IEEE 754 binary64 floats
      (rounding, infinities, NaN and signed zero included); this is the
      program as compiled.  The instance [exact] interprets the same
      operations over the rationals; it is the program with rounding taken
      away, and is used only where a statement says so.
    Every definition of the engine is written once, over [Arith].

    Time.  [Order::timestamp] and [Trade::timestamp] are readings of the
    wall clock that no operation ever reads back; the records below leave
    them out.

    Memory.  Allocation is taken to succeed: [std::bad_alloc] and
    [std::length_error] are not modelled.  A loop that does not end is a
    run that is [None] for every amount of fuel. *)

From Stdlib Require Import String Ascii List Bool Arith ZArith NArith QArith.
From Stdlib Require Import Lia Lqa Floats DecimalString DecimalN Sorted.
Import ListNotations.
Close Scope Q_scope.

Set Implicit Arguments.

(** ** Exceptions and results *)

(** The only exception the engine throws is [std::invalid_argument]. *)
Inductive exn : Type :=
| invalid_argument (what : string).

Inductive result (A : Type) : Type :=
| Ok (a : A)
| Throw (e : exn).

Arguments Ok {A} a.
Arguments Throw {A} e.

(** ** [size_t] *)

Definition SIZE_BITS : N := 64.
Definition SIZE_MOD : N := 2 ^ SIZE_BITS.

(** Unsigned arithmetic on [size_t] is modulo [2^64]. *)
Definition wrap (n : N) : N := n mod SIZE_MOD.

(** ** [double] *)

(** The operations the engine uses on doubles: the literal [0.0], [+], [-],
    [/], the comparisons [<], [<=], [==], and the conversion
    [static_cast<double>(size_t)]. *)
Class Arith (D : Type) : Type := {
  d0 : D;
  dadd : D -> D -> D;
  dsub : D -> D -> D;
  ddiv : D -> D -> D;
  dlt : D -> D -> bool;
  dle : D -> D -> bool;
  deq : D -> D -> bool;
  of_size_t : N -> D
}.

(** IEEE 754 binary64.  The conversion from an integer rounds to nearest,
    ties to even, as the hardware conversion does. *)
Abbreviation double := float (only parsing).

#[export] Instance binary64 : Arith double := {
  d0 := PrimFloat.zero;
  dadd := PrimFloat.add;
  dsub := PrimFloat.sub;
  ddiv := PrimFloat.div;
  dlt := PrimFloat.ltb;
  dle := PrimFloat.leb;
  deq := PrimFloat.eqb;
  of_size_t := fun n => SF2Prim (binary_normalize prec emax (Z.of_N n) 0 false)
}.

(** The same operations without rounding, over the rationals. *)
#[export] Instance exact : Arith Q := {
  d0 := 0%Q;
  dadd := Qplus;
  dsub := Qminus;
  ddiv := Qdiv;
  dlt := fun x y => negb (Qle_bool y x);
  dle := Qle_bool;
  deq := Qeq_bool;
  of_size_t := fun n => inject_Z (Z.of_N n)
}.

(** [std::min(a, b)] is [(b < a) ? b : a]. *)
Definition std_min {D : Type} {A : Arith D} (a b : D) : D :=
  if dlt b a then b else a.

(** ** [std::vector<double>] read and written by index *)

(** [v[i]]; the engine never indexes out of range (there C++ leaves the
    behaviour undefined, here the read gives [d0]). *)
Definition vec_get {D : Type} {A : Arith D} (v : list D) (i : N) : D :=
  nth (N.to_nat i) v d0.

(** [v[i] = x]; out of range the vector is left as it is. *)
Fixpoint vec_set_nat {D : Type} (v : list D) (i : nat) (x : D) : list D :=
  match v, i with
  | [], _ => []
  | _ :: tl, O => x :: tl
  | hd :: tl, S j => hd :: vec_set_nat tl j x
  end.

Definition vec_set {D : Type} (v : list D) (i : N) (x : D) : list D :=
  vec_set_nat v (N.to_nat i) x.

(** ** SMACalculator *)

Module SMACalculator.
Section WithArith.
Context {D : Type} {A : Arith D}.

Record t : Type := mk {
  prices_ : list D;        (* circular buffer *)
  window_size_ : N;
  current_size_ : N;
  index_ : N;
  running_sum_ : D
}.

(** [SMACalculator(size_t window_size)]: the members are initialised, then a
    zero window throws, so no object comes to exist. *)
Definition new (window_size : N) : result t :=
  if (window_size =? 0)%N then
    Throw (invalid_argument "Window size must be greater than 0")
  else
    Ok {| prices_ := repeat d0 (N.to_nat window_size);
          window_size_ := window_size;
          current_size_ := 0;
          index_ := 0;
          running_sum_ := d0 |}.

(** [void addPrice(double price)].  The state returned with a [Throw] is the
    state at the point of the throw. *)
Definition addPrice (price : D) (s : t) : result unit * t :=
  if dlt price d0 then
    (Throw (invalid_argument "Price cannot be negative"), s)
  else
    (* subtract the old value from the running sum *)
    let sum1 :=
      if (current_size_ s =? window_size_ s)%N
      then dsub (running_sum_ s) (vec_get (prices_ s) (index_ s))
      else running_sum_ s in
    (* add the new price *)
    let prices1 := vec_set (prices_ s) (index_ s) price in
    let sum2 := dadd sum1 price in
    (* advance the cursor *)
    let index1 := (wrap (index_ s + 1) mod window_size_ s)%N in
    (* count, capped at the window *)
    let size1 :=
      if (current_size_ s <? window_size_ s)%N
      then wrap (current_size_ s + 1)
      else current_size_ s in
    (Ok tt, {| prices_ := prices1;
               window_size_ := window_size_ s;
               current_size_ := size1;
               index_ := index1;
               running_sum_ := sum2 |}).

(** [double getSMA() const] *)
Definition getSMA (s : t) : D :=
  if (current_size_ s =? 0)%N then d0
  else ddiv (running_sum_ s) (of_size_t (current_size_ s)).

(** [size_t size() const] *)
Definition size (s : t) : N := current_size_ s.

(** [void reset()] *)
Definition reset (s : t) : t :=
  {| prices_ := map (fun _ => d0) (prices_ s);
     window_size_ := window_size_ s;
     current_size_ := 0;
     index_ := 0;
     running_sum_ := d0 |}.

End WithArith.
Arguments t D : clear implicits.
End SMACalculator.

(** ** What the moving average is measured against *)

(** The last [k] elements of a list. *)
Definition lastn {X : Type} (k : nat) (l : list X) : list X :=
  skipn (length l - k) l.

(** Sum from the left, starting at [0.0]. *)
Definition sum_list {D : Type} {A : Arith D} (l : list D) : D :=
  fold_left dadd l d0.

(** The arithmetic mean of a list. *)
Definition mean {D : Type} {A : Arith D} (l : list D) : D :=
  ddiv (sum_list l) (of_size_t (N.of_nat (length l))).

(** ** Orders and trades *)

Inductive OrderSide : Type := BUY | SELL.

Module Order.
Record t (D : Type) : Type := mk {
  id : string;
  side : OrderSide;
  price : D;
  quantity : D
}.
End Order.

Module Trade.
Record t (D : Type) : Type := mk {
  buy_order_id : string;
  sell_order_id : string;
  price : D;
  quantity : D
}.
End Trade.

(** [oss << n] for an unsigned integer: its decimal digits. *)
Definition decimal (n : N) : string :=
  NilEmpty.string_of_uint (N.to_uint n).

(** ** OrderBook *)

Module OrderBook.
Section WithArith.
Context {D : Type} {A : Arith D}.

(** A [std::map<double, std::vector<Order>, Compare>] is the sequence of its
    entries in iteration order, so [begin()] is the head of the list.  A
    price level is a key with the orders resting there, oldest first. *)
Definition level : Type := (D * list (Order.t D))%type.
Definition price_map : Type := list level.

(** The two comparators: [std::greater<double>] for the bids and the default
    [std::less<double>] for the asks. *)
Definition greater (a b : D) : bool := dlt b a.
Definition less (a b : D) : bool := dlt a b.

(** [m[price].push_back(order)].  [operator[]] looks for the first entry
    whose key is not ordered before [price]; when that entry's key is not
    ordered after [price] either it is the entry used, otherwise an empty
    level is created in front of it.  (A NaN is ordered neither before nor
    after any key: it joins the first level of a map that has one, the
    entry on which the search of the tree ends as well.) *)
Fixpoint push_at (comp : D -> D -> bool) (price : D) (order : Order.t D)
    (m : price_map) : price_map :=
  match m with
  | [] => [(price, [order])]
  | (key, orders) :: rest =>
      if comp key price then (key, orders) :: push_at comp price order rest
      else if comp price key then (price, [order]) :: (key, orders) :: rest
      else (key, orders ++ [order]) :: rest
  end.

Record t : Type := mk {
  bids_ : price_map;       (* std::greater: highest price first *)
  asks_ : price_map;       (* std::less: lowest price first *)
  next_order_id_ : N       (* size_t *)
}.

(** [OrderBook() = default], with [next_order_id_ = 1]. *)
Definition init : t :=
  {| bids_ := []; asks_ := []; next_order_id_ := 1 |}.

(** [std::string generateOrderId()]: prints the counter, then increments
    it. *)
Definition generateOrderId (b : t) : string * t :=
  (("ORD" ++ decimal (next_order_id_ b))%string,
   {| bids_ := bids_ b;
      asks_ := asks_ b;
      next_order_id_ := wrap (next_order_id_ b + 1) |}).

(** [std::string addOrder(OrderSide side, double price, double quantity)] *)
Definition addOrder (side : OrderSide) (price quantity : D) (b : t)
    : result string * t :=
  if dle price d0 || dle quantity d0 then
    (Throw (invalid_argument "Price and quantity must be positive"), b)
  else
    let (order_id, b1) := generateOrderId b in
    let order := Order.mk order_id side price quantity in
    match side with
    | BUY =>
        (Ok order_id,
         {| bids_ := push_at greater price order (bids_ b1);
            asks_ := asks_ b1;
            next_order_id_ := next_order_id_ b1 |})
    | SELL =>
        (Ok order_id,
         {| bids_ := bids_ b1;
            asks_ := push_at less price order (asks_ b1);
            next_order_id_ := next_order_id_ b1 |})
    end.

(** [order.quantity = q] *)
Definition with_quantity (order : Order.t D) (q : D) : Order.t D :=
  Order.mk (Order.id order) (Order.side order) (Order.price order) q.

(** The front order of a level after a fill of [trade_quantity]: its
    quantity is decremented; when the result compares equal to zero the
    order is erased from the front, and a level left empty is erased from
    the map. *)
Definition fill_front (key : D) (front : Order.t D) (tail : list (Order.t D))
    (rest : price_map) (trade_quantity : D) : price_map :=
  let remaining := dsub (Order.quantity front) trade_quantity in
  if deq remaining d0 then
    match tail with
    | [] => rest
    | _ :: _ => (key, tail) :: rest
    end
  else
    (key, with_quantity front remaining :: tail) :: rest.

(** What one evaluation of the [while] condition and body does. *)
Inductive step : Type :=
| Exit                                  (* condition false, or [break] *)
| Cleaned (b' : t)                      (* empty level erased, [continue] *)
| Matched (trade : Trade.t D) (b' : t). (* a trade was recorded *)

Definition body (b : t) : step :=
  match bids_ b, asks_ b with
  | [], _ => Exit
  | _, [] => Exit
  | (best_bid_price, bid_orders) :: bids_rest,
    (best_ask_price, ask_orders) :: asks_rest =>
      if dlt best_bid_price best_ask_price then Exit
      else
        match bid_orders, ask_orders with
        | bid_order :: bid_tail, ask_order :: ask_tail =>
            let trade_price := best_ask_price in
            let trade_quantity :=
              std_min (Order.quantity bid_order) (Order.quantity ask_order) in
            let trade :=
              Trade.mk (Order.id bid_order) (Order.id ask_order)
                trade_price trade_quantity in
            Matched trade
              {| bids_ := fill_front best_bid_price bid_order bid_tail
                            bids_rest trade_quantity;
                 asks_ := fill_front best_ask_price ask_order ask_tail
                            asks_rest trade_quantity;
                 next_order_id_ := next_order_id_ b |}
        | _, _ =>
            Cleaned
              {| bids_ := match bid_orders with
                          | [] => bids_rest
                          | _ :: _ => bids_ b
                          end;
                 asks_ := match ask_orders with
                          | [] => asks_rest
                          | _ :: _ => asks_ b
                          end;
                 next_order_id_ := next_order_id_ b |}
        end
  end.

(** The [while] loop, [fuel] bounding the number of times its condition is
    evaluated; [None] when the loop has not left by then. *)
Fixpoint loop (fuel : nat) (b : t) (trades : list (Trade.t D))
    : option (list (Trade.t D) * t) :=
  match fuel with
  | O => None
  | S fuel' =>
      match body b with
      | Exit => Some (trades, b)
      | Cleaned b' => loop fuel' b' trades
      | Matched trade b' => loop fuel' b' (trades ++ [trade])
      end
  end.

(** [std::vector<Trade> matchOrders()] *)
Definition matchOrders (fuel : nat) (b : t) : option (list (Trade.t D) * t) :=
  loop fuel b [].

(** [getBids()] and [getAsks()]: per level, the price and the quantities of
    its orders added up from [0.0]. *)
Definition depth (m : price_map) : list (D * D) :=
  map (fun l : level =>
         (fst l, fold_left (fun total o => dadd total (Order.quantity o))
                   (snd l) d0)) m.

Definition getBids (b : t) : list (D * D) := depth (bids_ b).
Definition getAsks (b : t) : list (D * D) := depth (asks_ b).

(** [double getBestBid() const] and [double getBestAsk() const] *)
Definition getBestBid (b : t) : D :=
  match bids_ b with
  | [] => d0
  | (key, _) :: _ => key
  end.

Definition getBestAsk (b : t) : D :=
  match asks_ b with
  | [] => d0
  | (key, _) :: _ => key
  end.

(** [void reset()] *)
Definition reset (b : t) : t :=
  {| bids_ := []; asks_ := []; next_order_id_ := 1 |}.

End WithArith.
Arguments t D : clear implicits.
Arguments step D : clear implicits.
Arguments level D : clear implicits.
Arguments price_map D : clear implicits.
End OrderBook.

(** ** Histories of calls on one book *)

Module Session.
Section WithArith.
Context {D : Type} {A : Arith D}.

(** A call of the public interface that changes the book. *)
Inductive call : Type :=
| AddOrder (side : OrderSide) (price quantity : D)
| MatchOrders
| Reset.

(** What a call did, as the caller sees it. *)
Inductive event : Type :=
| Accepted (side : OrderSide) (price quantity : D) (id : string)
| Rejected (side : OrderSide) (price quantity : D) (e : exn)
| Executed (trades : list (Trade.t D))
| Cleared.

(** The calls run in order from book [b]; [fuel] bounds each [matchOrders]
    loop, and the run is [None] when one of them has not returned by
    then. *)
Fixpoint run (fuel : nat) (calls : list call) (b : OrderBook.t D)
    : option (list event * OrderBook.t D) :=
  match calls with
  | [] => Some ([], b)
  | AddOrder side price quantity :: rest =>
      let (r, b1) := OrderBook.addOrder side price quantity b in
      let e := match r with
               | Ok id => Accepted side price quantity id
               | Throw x => Rejected side price quantity x
               end in
      match run fuel rest b1 with
      | Some (log, b2) => Some (e :: log, b2)
      | None => None
      end
  | MatchOrders :: rest =>
      match OrderBook.matchOrders fuel b with
      | Some (trades, b1) =>
          match run fuel rest b1 with
          | Some (log, b2) => Some (Executed trades :: log, b2)
          | None => None
          end
      | None => None
      end
  | Reset :: rest =>
      match run fuel rest (OrderBook.reset b) with
      | Some (log, b2) => Some (Cleared :: log, b2)
      | None => None
      end
  end.

Definition is_reset (c : call) : bool :=
  match c with
  | Reset => true
  | _ => false
  end.

(** One lifetime of a book: no [reset] among the calls. *)
Definition one_lifetime (calls : list call) : Prop :=
  forallb (fun c => negb (is_reset c)) calls = true.

(** The ids handed out, in order. *)
Fixpoint issued (log : list event) : list string :=
  match log with
  | [] => []
  | Accepted _ _ _ id :: rest => id :: issued rest
  | _ :: rest => issued rest
  end.

(** All trades reported, in order. *)
Fixpoint reported (log : list event) : list (Trade.t D) :=
  match log with
  | [] => []
  | Executed trades :: rest => trades ++ reported rest
  | _ :: rest => reported rest
  end.

End WithArith.
Arguments call D : clear implicits.
Arguments event D : clear implicits.
End Session.

(** ** Vocabulary of the statements *)

Section Vocabulary.
Context {D : Type} {A : Arith D}.

(** Feeding a sequence of observations, one [addPrice] call each; the first
    call that throws ends the run with its exception. *)
Fixpoint addPrices (xs : list D) (s : SMACalculator.t D)
    : result unit * SMACalculator.t D :=
  match xs with
  | [] => (Ok tt, s)
  | x :: rest =>
      match SMACalculator.addPrice x s with
      | (Ok _, s') => addPrices rest s'
      | (Throw e, s') => (Throw e, s')
      end
  end.

(** The observations the calculator averages over, oldest first, read off
    the circular buffer: the first [current_size_] slots while the buffer
    fills, and the buffer rotated at the cursor once it is full. *)
Definition window (s : SMACalculator.t D) : list D :=
  if (SMACalculator.current_size_ s <? SMACalculator.window_size_ s)%N
  then firstn (N.to_nat (SMACalculator.current_size_ s))
         (SMACalculator.prices_ s)
  else skipn (N.to_nat (SMACalculator.index_ s)) (SMACalculator.prices_ s)
       ++ firstn (N.to_nat (SMACalculator.index_ s))
            (SMACalculator.prices_ s).

(** The calculator as its constructor and [addPrice] keep it: a buffer of
    [w] slots, at most [w] observations counted, the cursor inside the
    buffer, and the cursor on the first free slot while the buffer fills. *)
Record shaped (w : N) (s : SMACalculator.t D) : Prop := {
  shaped_window : SMACalculator.window_size_ s = w;
  shaped_buffer : length (SMACalculator.prices_ s) = N.to_nat w;
  shaped_count : (SMACalculator.current_size_ s <= w)%N;
  shaped_cursor : (SMACalculator.index_ s < w)%N;
  shaped_filling :
    (SMACalculator.current_size_ s < w)%N ->
    SMACalculator.index_ s = SMACalculator.current_size_ s
}.

(** A calculator of window [w] fed [xs]: every call returns, [size()] is
    [min(|xs|, w)], and the buffer holds the last that many observations. *)
Definition window_tracked (w : N) (xs : list D) : Prop :=
  exists s0 s,
    SMACalculator.new w = Ok s0 /\
    addPrices xs s0 = (Ok tt, s) /\
    SMACalculator.size s = N.min (N.of_nat (length xs)) w /\
    window s = lastn (N.to_nat (SMACalculator.size s)) xs.

(** A calculator of window [w] fed [xs]: every call returns, [size()] is
    [min(|xs|, w)], and [getSMA()] compares equal to the arithmetic mean of
    the last that many observations. *)
Definition average_is_mean (w : N) (xs : list D) : Prop :=
  exists s0 s,
    SMACalculator.new w = Ok s0 /\
    addPrices xs s0 = (Ok tt, s) /\
    SMACalculator.size s = N.min (N.of_nat (length xs)) w /\
    deq (SMACalculator.getSMA s)
        (mean (lastn (N.to_nat (N.min (N.of_nat (length xs)) w)) xs)) = true.

(** Orders placed one after the other, refused ones skipped. *)
Definition place (orders : list (OrderSide * D * D)) (b : OrderBook.t D)
    : OrderBook.t D :=
  fold_left
    (fun b o => snd (OrderBook.addOrder (fst (fst o)) (snd (fst o)) (snd o) b))
    orders b.

(** The orders resting in a map, and in a book. *)
Definition resting_in (m : OrderBook.price_map D) : list (Order.t D) :=
  flat_map snd m.

Definition resting (b : OrderBook.t D) : list (Order.t D) :=
  resting_in (OrderBook.bids_ b) ++ resting_in (OrderBook.asks_ b).

(** Resting orders plus price levels, both sides together. *)
Definition work (b : OrderBook.t D) : nat :=
  length (resting b) + length (OrderBook.bids_ b) + length (OrderBook.asks_ b).

(** [inside b bi]: the matching loop started on book [b] comes to evaluate
    its condition on book [bi]. *)
Inductive inside (b : OrderBook.t D) : OrderBook.t D -> Prop :=
| inside_entry : inside b b
| inside_cleaned bi bi' :
    inside b bi -> OrderBook.body bi = OrderBook.Cleaned bi' -> inside b bi'
| inside_matched bi trade bi' :
    inside b bi -> OrderBook.body bi = OrderBook.Matched trade bi' ->
    inside b bi'.

(** A trade recorded by the loop started on [b]. *)
Definition recorded (b : OrderBook.t D) (trade : Trade.t D) : Prop :=
  exists bi bi', inside b bi /\ OrderBook.body bi = OrderBook.Matched trade bi'.

(** The number of loop iterations (evaluations of the condition that enter
    the body and do not [break]) within [fuel]. *)
Fixpoint iterations (fuel : nat) (b : OrderBook.t D) : nat :=
  match fuel with
  | O => O
  | S fuel' =>
      match OrderBook.body b with
      | OrderBook.Exit => O
      | OrderBook.Cleaned b' => S (iterations fuel' b')
      | OrderBook.Matched _ b' => S (iterations fuel' b')
      end
  end.

(** The id printed for counter value [n]. *)
Definition order_id (n : N) : string := ("ORD" ++ decimal n)%string.

(** The ids a lifetime hands out, when it starts with the counter at
    [first]. *)
Fixpoint ids_from (first : N) (n : nat) : list string :=
  match n with
  | O => []
  | S n' => order_id first :: ids_from (wrap (first + 1)) n'
  end.

(** A trade in which the order with this id takes part. *)
Definition takes_part (id : string) (trade : Trade.t D) : bool :=
  String.eqb (Trade.buy_order_id trade) id
  || String.eqb (Trade.sell_order_id trade) id.

(** The quantities of the trades an order took part in, added up in the
    order the trades were reported. *)
Definition filled (id : string) (trades : list (Trade.t D)) : D :=
  sum_list (map (@Trade.quantity D) (filter (takes_part id) trades)).

(** Books reached from the empty book by the public interface, together
    with the books the matching loop passes through on the way. *)
Inductive reachable : OrderBook.t D -> Prop :=
| reachable_init : reachable OrderBook.init
| reachable_addOrder b side price quantity :
    reachable b ->
    reachable (snd (OrderBook.addOrder side price quantity b))
| reachable_cleaned b b' :
    reachable b -> OrderBook.body b = OrderBook.Cleaned b' -> reachable b'
| reachable_matched b trade b' :
    reachable b -> OrderBook.body b = OrderBook.Matched trade b' ->
    reachable b'
| reachable_reset b :
    reachable b -> reachable (OrderBook.reset b).

Definition map_work (m : OrderBook.price_map D) : nat :=
  length (resting_in m) + length m.

(** Arithmetic in which [x - x == 0] for every [x]. *)
Definition cancelling : Prop := forall x : D, deq (dsub x x) d0 = true.

Definition no_empty_level (b : OrderBook.t D) : Prop :=
  forall l, In l (OrderBook.bids_ b) \/ In l (OrderBook.asks_ b) ->
            snd l <> [].

(** Two prices the maps do not tell apart: neither is ordered before the
    other, under [std::less] as under [std::greater]. *)
Definition same_key (x y : D) : Prop := dlt x y = false /\ dlt y x = false.

(** Every order of the map rests in a level keyed by its own price, or by a
    price the map does not tell apart from it. *)
Definition filed (m : OrderBook.price_map D) : Prop :=
  forall k os o,
    In (k, os) m -> In o os ->
    Order.price o = k \/ same_key k (Order.price o).

(** [queued comp p o m m']: map [m'] is map [m] with order [o] put behind
    the orders of the first level whose key is not ordered before [p], when
    that key is not ordered after [p] either, or alone in a new level keyed
    [p] otherwise; nothing else moves.  Every level in front is keyed
    before [p]; a new level is opened only when every level behind it is
    keyed after [p], so that no level has a key the map does not tell apart
    from [p]. *)
Definition queued (comp : D -> D -> bool) (p : D) (o : Order.t D)
    (m m' : OrderBook.price_map D) : Prop :=
  exists pre post,
    Forall (fun l => comp (fst l) p = true) pre /\
    ((exists key orders,
         m = pre ++ (key, orders) :: post /\
         m' = pre ++ (key, orders ++ [o]) :: post /\
         comp key p = false /\ comp p key = false) \/
     (m = pre ++ post /\ m' = pre ++ (p, [o]) :: post /\
      Forall (fun l => comp p (fst l) = true) post)).



End Vocabulary.

(** Every order of a session stays within its quantity: the fills of an
    accepted order do not add up to more than what was submitted. *)
Definition fills_within_orders {D : Type} {A : Arith D}
    (fuel : nat) (calls : list (Session.call D)) : Prop :=
  forall log b',
    Session.run fuel calls OrderBook.init = Some (log, b') ->
    forall side price quantity id,
      In (Session.Accepted side price quantity id) log ->
      dlt quantity (filled id (Session.reported log)) = false.

(** ** Quantities in exact arithmetic *)

(** Sum from the right; over the rationals it agrees with [sum_list]. *)
Definition total (l : list Q) : Q := fold_right Qplus 0%Q l.

(** The quantity of [o] when its id is [i]. *)
Definition own (i : string) (o : Order.t Q) : Q :=
  if String.eqb (Order.id o) i then Order.quantity o else 0%Q.

(** The quantity order [i] still has resting among [os]. *)
Definition held (i : string) (os : list (Order.t Q)) : Q :=
  total (map (own i) os).

(** What a trade moves for order [i], as buyer and as seller. *)
Definition part (i : string) (trade : Trade.t Q) : Q :=
  ((if String.eqb (Trade.buy_order_id trade) i
    then Trade.quantity trade else 0)
   + (if String.eqb (Trade.sell_order_id trade) i
      then Trade.quantity trade else 0))%Q.

Definition volume (i : string) (trades : list (Trade.t Q)) : Q :=
  total (map (part i) trades).

(** The quantity submitted under id [i]. *)
Definition submitted (i : string) (log : list (Session.event Q)) : Q :=
  total (map (fun e => match e with
                       | Session.Accepted _ _ q i' =>
                           if String.eqb i' i then q else 0%Q
                       | _ => 0%Q
                       end) log).

Definition all_positive (b : OrderBook.t Q) : Prop :=
  forall o, In o (resting b) -> (0 < Order.quantity o)%Q.

(** ** Worked sessions *)

(** Two asks swept by one bid, then one more bid. *)
Definition sweep : list (Session.call double) :=
  [Session.AddOrder SELL 45000 1; Session.AddOrder SELL 45050 1;
   Session.AddOrder BUY 45100 2; Session.MatchOrders;
   Session.AddOrder BUY 45000 1]%float.

(** The book before the sweep: asks at 45000 and 45050, a bid at 45100. *)
Definition crossed_book : OrderBook.t double :=
  place [(SELL, 45000, 1); (SELL, 45050, 1); (BUY, 45100, 2)]%float
    OrderBook.init.

(** A bid below the ask. *)
Definition quiet_book : OrderBook.t double :=
  place [(BUY, 45000, 1); (SELL, 45100, 1)]%float OrderBook.init.

(** Two asks at one price, then a bid for part of them. *)
Definition queue_book : OrderBook.t double :=
  place [(SELL, 45000, 1); (SELL, 45000, 2); (BUY, 45000, 1.5)]%float
    OrderBook.init.

(** The book a step of the loop leaves, the book itself when it exits. *)
Definition after_step {D : Type} {A : Arith D} (b : OrderBook.t D)
    : OrderBook.t D :=
  match OrderBook.body b with
  | OrderBook.Exit => b
  | OrderBook.Cleaned b' => b'
  | OrderBook.Matched _ b' => b'
  end.

(** A bid of 2 against an ask of 1, over the rationals. *)
Definition partial_fill : list (Session.call Q) :=
  [Session.AddOrder BUY (45000 # 1) (2 # 1);
   Session.AddOrder SELL (45000 # 1) (1 # 1);
   Session.MatchOrders]%Q.

(** A bid of 1 filled by four asks of [2^-54] and one ask of 1. *)
Definition dust : list (Session.call double) :=
  [Session.AddOrder BUY 1 1;
   Session.AddOrder SELL 1 0x1p-54; Session.AddOrder SELL 1 0x1p-54;
   Session.AddOrder SELL 1 0x1p-54; Session.AddOrder SELL 1 0x1p-54;
   Session.AddOrder SELL 1 1;
   Session.MatchOrders]%float.

(** A bid whose quantity is NaN, and an ask of 1 at its price. *)
Definition nan_book : OrderBook.t double :=
  place [(BUY, 1, nan); (SELL, 1, 1)]%float OrderBook.init.

Definition nan_bid : list (Session.call double) :=
  [Session.AddOrder BUY 1 nan; Session.AddOrder SELL 1 1;
   Session.MatchOrders]%float.


(** ** Histories of calls on one calculator *)

Module Feed.
Section WithArith.
Context {D : Type} {A : Arith D}.

(** A call of the public interface that changes the calculator. *)
Inductive call : Type :=
| AddPrice (price : D)
| Reset.

(** The calls run in order.  A call that throws leaves the calculator as it
    was at the throw, and the caller goes on with the next call. *)
Fixpoint run (calls : list call) (s : SMACalculator.t D)
    : SMACalculator.t D :=
  match calls with
  | [] => s
  | AddPrice price :: rest =>
      run rest (snd (SMACalculator.addPrice price s))
  | Reset :: rest => run rest (SMACalculator.reset s)
  end.

(** The observations that count after the calls, oldest first: those not
    below zero since the last [Reset], behind the observations [seen] that
    counted before. *)
Fixpoint kept (calls : list call) (seen : list D) : list D :=
  match calls with
  | [] => seen
  | AddPrice price :: rest =>
      kept rest (if dlt price d0 then seen else seen ++ [price])
  | Reset :: rest => kept rest []
  end.

End WithArith.
Arguments call D : clear implicits.
End Feed.

(** No [Reset] among the calls. *)
Definition no_reset {D : Type} (calls : list (Feed.call D)) : Prop :=
  Forall (fun c => c <> Feed.Reset) calls.

(** ** Further vocabulary of the order book *)

Section BookVocabulary.
Context {D : Type} {A : Arith D}.

(** The keys of a map, in iteration order. *)
Definition keys (m : OrderBook.price_map D) : list D := map fst m.

(** A list in which every element is ordered before every later one. *)
Definition sorted_by (comp : D -> D -> bool) (l : list D) : Prop :=
  StronglySorted (fun x y => comp x y = true) l.

(** Prices from the highest down, and from the lowest up, without ties. *)
Definition descending (l : list D) : Prop := sorted_by OrderBook.greater l.
Definition ascending (l : list D) : Prop := sorted_by OrderBook.less l.

(** Arithmetic in which [<] is transitive. *)
Definition lt_transitive : Prop :=
  forall x y z : D, dlt x y = true -> dlt y z = true -> dlt x z = true.

(** Every key of the map passed the price check of [addOrder]. *)
Definition priced (m : OrderBook.price_map D) : Prop :=
  Forall (fun k => dle k d0 = false) (keys m).

(** The bids are buy orders and the asks are sell orders. *)
Definition sided (b : OrderBook.t D) : Prop :=
  (forall o, In o (resting_in (OrderBook.bids_ b)) -> Order.side o = BUY) /\
  (forall o, In o (resting_in (OrderBook.asks_ b)) -> Order.side o = SELL).

(** [deepened comp p q d d']: the depth [d'] is the depth [d] with quantity
    [q] added to the first entry whose price the map does not tell apart
    from [p], or, when no entry of [d] has such a price, with a new entry
    for [p] that shows [0.0 + q], behind the entries priced before [p] and
    in front of the entries priced after it; no other entry differs. *)
Definition deepened (comp : D -> D -> bool) (p q : D)
    (d d' : list (D * D)) : Prop :=
  exists pre post,
    Forall (fun e => comp (fst e) p = true) pre /\
    (forall e, In e pre -> ~ same_key (fst e) p) /\
    ((exists k shown,
         d = pre ++ (k, shown) :: post /\
         d' = pre ++ (k, dadd shown q) :: post /\
         same_key k p) \/
     (d = pre ++ post /\ d' = pre ++ (p, dadd d0 q) :: post /\
      Forall (fun e => comp p (fst e) = true) post /\
      forall e, In e d -> ~ same_key (fst e) p)).

(** Every order of [mi] is an order of [m], up to its quantity. *)
Definition drawn_from (m mi : OrderBook.price_map D) : Prop :=
  forall o', In o' (resting_in mi) ->
    exists o, In o (resting_in m) /\
              OrderBook.with_quantity o (Order.quantity o') = o'.

(** The ids of the orders resting in a book. *)
Definition resting_ids (b : OrderBook.t D) : list string :=
  map (@Order.id D) (resting b).

(** The order with this id was accepted on this side in this history. *)
Definition accepted_as (side : OrderSide) (id : string)
    (log : list (Session.event D)) : Prop :=
  exists price quantity, In (Session.Accepted side price quantity id) log.

(** Every trade reported in the history is between a buy order and a sell
    order accepted earlier in the history. *)
Definition trades_backed (log : list (Session.event D)) : Prop :=
  forall before trades after,
    log = before ++ Session.Executed trades :: after ->
    forall trade, In trade trades ->
      accepted_as BUY (Trade.buy_order_id trade) before /\
      accepted_as SELL (Trade.sell_order_id trade) before.

(** How often an id occurs among the orders of a map. *)
Definition occurs (i : string) (os : list (Order.t D)) : nat :=
  count_occ string_dec (map (@Order.id D) os) i.

(** The orders of a book are orders accepted in the history, each on the
    side it rests on. *)
Definition backed (hist : list (Session.event D)) (b : OrderBook.t D)
    : Prop :=
  (forall o, In o (resting_in (OrderBook.bids_ b)) ->
             accepted_as BUY (Order.id o) hist) /\
  (forall o, In o (resting_in (OrderBook.asks_ b)) ->
             accepted_as SELL (Order.id o) hist).

(** Every order of the map has a price that passed the check of [addOrder]
    and a quantity that does not compare equal to zero. *)
Definition live (m : OrderBook.price_map D) : Prop :=
  forall o, In o (resting_in m) ->
    deq (Order.quantity o) d0 = false /\ dle (Order.price o) d0 = false.

End BookVocabulary.

(** Bids at 45000, 45100 and 45050 and asks at 45300 and 45200, two orders
    at one of the prices on either side. *)
Definition ladder : OrderBook.t double :=
  place [(BUY, 45000, 1); (BUY, 45100, 2); (SELL, 45300, 1);
         (BUY, 45050, 1); (SELL, 45200, 3); (BUY, 45100, 0.5);
         (SELL, 45300, 2)]%float OrderBook.init.

(** ** Vocabulary of time priority *)

Section PriorityVocabulary.
Context {D : Type} {A : Arith D}.




End PriorityVocabulary.


(** An ask priced NaN, an ask at 3 and a bid at 2. *)
Definition nan_ask_book : OrderBook.t double :=
  place [(SELL, nan, 1); (SELL, 3, 1); (BUY, 2, 1.5)]%float OrderBook.init.

(** [k] rounds of a sell order at 1, a buy order at 1 and a call of
    [matchOrders], which fills both and leaves the book empty, followed by
    the calls [rest]. *)
Fixpoint churn (k : nat) (rest : list (Session.call double))
    : list (Session.call double) :=
  match k with
  | O => rest
  | S k' =>
      Session.AddOrder SELL 1%float 1%float
      :: Session.AddOrder BUY 1%float 1%float
      :: Session.MatchOrders :: churn k' rest
  end.
(** * Properties *)

(** ** The matching loop, one step at a time *)

Section LoopFacts.
Context {D : Type} {A : Arith D}.

Lemma inside_after_cleaned (b b1 bi : OrderBook.t D) :
  OrderBook.body b = OrderBook.Cleaned b1 -> inside b1 bi -> inside b bi.
Proof.
  intros Hstep Hin. induction Hin.
  - eapply inside_cleaned; [apply inside_entry | exact Hstep].
  - eapply inside_cleaned; eauto.
  - eapply inside_matched; eauto.
Qed.

Lemma inside_after_matched (b b1 bi : OrderBook.t D) (trade : Trade.t D) :
  OrderBook.body b = OrderBook.Matched trade b1 -> inside b1 bi -> inside b bi.
Proof.
  intros Hstep Hin. induction Hin.
  - eapply inside_matched; [apply inside_entry | exact Hstep].
  - eapply inside_cleaned; eauto.
  - eapply inside_matched; eauto.
Qed.

(** What the loop returns: the trades it was given followed by the trades it
    recorded, and the book on which it left. *)
Lemma loop_returns (fuel : nat) :
  forall (b : OrderBook.t D) acc trades b',
    OrderBook.loop fuel b acc = Some (trades, b') ->
    exists new,
      trades = acc ++ new /\ Forall (recorded b) new /\
      inside b b' /\ OrderBook.body b' = OrderBook.Exit.
Proof.
  induction fuel as [|fuel IH]; intros b acc trades b' Hrun; [discriminate|].
  cbn [OrderBook.loop] in Hrun.
  destruct (OrderBook.body b) as [|b1|trade b1] eqn:Hbody.
  - inversion Hrun; subst. exists []. rewrite app_nil_r.
    repeat split; auto using inside_entry.
  - apply IH in Hrun as (new & -> & Hrec & Hin & Hexit).
    exists new. repeat split; auto.
    + eapply Forall_impl; [|exact Hrec].
      intros tr (bi & bi' & Hbi & Hst). exists bi, bi'.
      split; [eapply inside_after_cleaned; eauto | exact Hst].
    + eapply inside_after_cleaned; eauto.
  - apply IH in Hrun as (new & -> & Hrec & Hin & Hexit).
    exists (trade :: new). rewrite <- app_assoc. repeat split; auto.
    + constructor.
      * exists b, b1. split; [apply inside_entry | exact Hbody].
      * eapply Forall_impl; [|exact Hrec].
        intros tr (bi & bi' & Hbi & Hst). exists bi, bi'.
        split; [eapply inside_after_matched; eauto | exact Hst].
    + eapply inside_after_matched; eauto.
Qed.

(** The shape of a book on which a trade is recorded. *)
Lemma matched_inv (b b' : OrderBook.t D) (trade : Trade.t D) :
  OrderBook.body b = OrderBook.Matched trade b' ->
  exists kb ob tb rb ka oa ta ra,
    OrderBook.bids_ b = (kb, ob :: tb) :: rb /\
    OrderBook.asks_ b = (ka, oa :: ta) :: ra /\
    dlt kb ka = false /\
    trade = Trade.mk (Order.id ob) (Order.id oa) ka
              (std_min (Order.quantity ob) (Order.quantity oa)) /\
    b' = OrderBook.mk
           (OrderBook.fill_front kb ob tb rb (Trade.quantity trade))
           (OrderBook.fill_front ka oa ta ra (Trade.quantity trade))
           (OrderBook.next_order_id_ b).
Proof.
  unfold OrderBook.body. intros H.
  destruct (OrderBook.bids_ b) as [|[kb bos] rb]; [discriminate|].
  destruct (OrderBook.asks_ b) as [|[ka aos] ra]; [discriminate|].
  destruct (dlt kb ka) eqn:Hlt; [discriminate|].
  destruct bos as [|ob tb]; [discriminate|].
  destruct aos as [|oa ta]; [discriminate|].
  inversion H; subst; clear H.
  exists kb, ob, tb, rb, ka, oa, ta, ra. cbn. repeat split; auto.
Qed.

(** The shape of a book on which the loop leaves. *)
Lemma exit_inv (b : OrderBook.t D) :
  OrderBook.body b = OrderBook.Exit <->
  OrderBook.bids_ b = [] \/ OrderBook.asks_ b = [] \/
  (OrderBook.bids_ b <> [] /\ OrderBook.asks_ b <> [] /\
   dlt (OrderBook.getBestBid b) (OrderBook.getBestAsk b) = true).
Proof.
  unfold OrderBook.body, OrderBook.getBestBid, OrderBook.getBestAsk.
  destruct (OrderBook.bids_ b) as [|[kb bos] rb].
  { split; auto. }
  destruct (OrderBook.asks_ b) as [|[ka aos] ra].
  { split; auto. }
  destruct (dlt kb ka) eqn:Hlt.
  - split; auto. intros _. right; right. repeat split; congruence.
  - split.
    + destruct bos, aos; discriminate.
    + intros [H|[H|(_ & _ & H)]]; discriminate.
Qed.

End LoopFacts.

(** ** Rejected arguments *)

(** C6.  A zero window makes the construction of an [SMACalculator] throw
    [std::invalid_argument]; so does [addPrice] on a price below zero, and
    [addOrder] on a price or a quantity that is [<= 0].  The object that
    refused the call is left exactly as it was: buffer, count, cursor and
    running sum of the calculator, both maps and the id counter of the
    book.  This holds in any arithmetic, binary64 included. *)
Theorem invalid_arguments_are_rejected (D : Type) (A : Arith D) :
  (exists what,
     @SMACalculator.new D A 0 = Throw (invalid_argument what)) /\
  (forall (price : D) (s : SMACalculator.t D),
     dlt price d0 = true ->
     exists what,
       SMACalculator.addPrice price s = (Throw (invalid_argument what), s)) /\
  (forall (side : OrderSide) (price quantity : D) (b : OrderBook.t D),
     dle price d0 = true \/ dle quantity d0 = true ->
     exists what,
       OrderBook.addOrder side price quantity b
       = (Throw (invalid_argument what), b)).
Proof.
  split; [|split].
  - eexists. reflexivity.
  - intros price s Hneg. unfold SMACalculator.addPrice. rewrite Hneg.
    eexists. reflexivity.
  - intros side price quantity b Hbad. unfold OrderBook.addOrder.
    assert (dle price d0 || dle quantity d0 = true) as ->
      by (apply orb_true_iff; exact Hbad).
    eexists. reflexivity.
Qed.

(** ** When the loop trades and when it leaves *)

(** C3.  On every book, a trade is recorded only where both sides are
    occupied and the best bid is not below the best ask, and this holds of
    every trade a call returns.  Entered with an empty side, or with the
    best bid below the best ask, [matchOrders] returns no trade and the book
    it was given. *)
Theorem no_trade_below_the_ask (D : Type) (A : Arith D) (b : OrderBook.t D) :
  (forall trade b',
     OrderBook.body b = OrderBook.Matched trade b' ->
     OrderBook.bids_ b <> [] /\ OrderBook.asks_ b <> [] /\
     dlt (OrderBook.getBestBid b) (OrderBook.getBestAsk b) = false) /\
  (forall fuel trades b',
     OrderBook.matchOrders fuel b = Some (trades, b') ->
     Forall (fun trade =>
               exists bi bi',
                 inside b bi /\
                 OrderBook.body bi = OrderBook.Matched trade bi' /\
                 dlt (OrderBook.getBestBid bi) (OrderBook.getBestAsk bi)
                 = false) trades) /\
  (OrderBook.bids_ b = [] \/ OrderBook.asks_ b = [] \/
   dlt (OrderBook.getBestBid b) (OrderBook.getBestAsk b) = true ->
   forall fuel, OrderBook.matchOrders (S fuel) b = Some ([], b)).
Proof.
  assert (Hstep : forall (x : OrderBook.t D) trade x',
             OrderBook.body x = OrderBook.Matched trade x' ->
             OrderBook.bids_ x <> [] /\ OrderBook.asks_ x <> [] /\
             dlt (OrderBook.getBestBid x) (OrderBook.getBestAsk x) = false).
  { intros x trade x' H.
    apply matched_inv in H
      as (kb & ob & tb & rb & ka & oa & ta & ra & Hb & Ha & Hlt & _).
    unfold OrderBook.getBestBid, OrderBook.getBestAsk. rewrite Hb, Ha.
    repeat split; congruence. }
  split; [|split].
  - intros trade b'. apply Hstep.
  - intros fuel trades b' Hrun.
    apply loop_returns in Hrun as (new & -> & Hrec & _).
    cbn. eapply Forall_impl; [|exact Hrec].
    intros trade (bi & bi' & Hin & Hbody). exists bi, bi'.
    repeat split; auto. apply Hstep in Hbody. tauto.
  - intros Hquiet fuel. unfold OrderBook.matchOrders. cbn [OrderBook.loop].
    assert (OrderBook.body b = OrderBook.Exit) as ->; [|reflexivity].
    apply exit_inv.
    destruct (OrderBook.bids_ b) eqn:Hb; [tauto|].
    destruct (OrderBook.asks_ b) eqn:Ha; [tauto|].
    right; right. repeat split; try discriminate.
    destruct Hquiet as [H|[H|H]]; try discriminate. exact H.
Qed.

(** C10.  Whenever [matchOrders] returns, the book it leaves is not crossed:
    the bids are empty, or the asks are empty, or [getBestBid] is below
    [getBestAsk]. *)
Theorem book_not_crossed_on_return (D : Type) (A : Arith D)
    (fuel : nat) (b b' : OrderBook.t D) (trades : list (Trade.t D)) :
  OrderBook.matchOrders fuel b = Some (trades, b') ->
  OrderBook.bids_ b' = [] \/ OrderBook.asks_ b' = [] \/
  dlt (OrderBook.getBestBid b') (OrderBook.getBestAsk b') = true.
Proof.
  intros Hrun. apply loop_returns in Hrun as (_ & _ & _ & _ & Hexit).
  apply exit_inv in Hexit. tauto.
Qed.

(** ** The moving average *)

Section Vectors.
Context {X : Type}.

Lemma vec_set_nat_length (v : list X) (i : nat) (x : X) :
  length (vec_set_nat v i x) = length v.
Proof.
  revert i; induction v as [|a v IH]; intros [|i]; cbn; auto.
Qed.

Lemma firstn_S_vec_set_nat (v : list X) (i : nat) (x : X) :
  i < length v -> firstn (S i) (vec_set_nat v i x) = firstn i v ++ [x].
Proof.
  revert i; induction v as [|a v IH]; intros [|i] Hi; cbn in *; try lia; auto.
  f_equal. apply IH. lia.
Qed.

Lemma skipn_S_vec_set_nat (v : list X) (i : nat) (x : X) :
  skipn (S i) (vec_set_nat v i x) = skipn (S i) v.
Proof.
  revert i; induction v as [|a v IH]; intros [|i]; cbn; auto.
  apply IH.
Qed.

Lemma skipn_nth (v : list X) (i : nat) (d : X) :
  i < length v -> skipn i v = nth i v d :: skipn (S i) v.
Proof.
  revert i; induction v as [|a v IH]; intros [|i] Hi; cbn in *; try lia; auto.
  apply IH. lia.
Qed.

Lemma tl_skipn (v : list X) (i : nat) : tl (skipn i v) = skipn (S i) v.
Proof.
  revert i; induction v as [|a v IH]; intros [|i]; cbn; auto.
Qed.

Lemma lastn_all (l : list X) (k : nat) : length l <= k -> lastn k l = l.
Proof.
  intros H. unfold lastn. replace (length l - k) with 0 by lia. reflexivity.
Qed.

Lemma lastn_length (l : list X) (k : nat) :
  k <= length l -> length (lastn k l) = k.
Proof.
  intros H. unfold lastn. rewrite length_skipn. lia.
Qed.

Lemma lastn_snoc_full (l : list X) (k : nat) (x : X) :
  0 < k <= length l -> lastn k (l ++ [x]) = tl (lastn k l) ++ [x].
Proof.
  intros H. unfold lastn. rewrite length_app. cbn [length].
  rewrite tl_skipn.
  replace (length l + 1 - k) with (S (length l - k)) by lia.
  rewrite skipn_app.
  replace (S (length l - k) - length l) with 0 by lia. reflexivity.
Qed.

End Vectors.

Section SMAFacts.
Context {D : Type} {A : Arith D}.
Import SMACalculator.

Lemma wrap_small (n : N) : (n < SIZE_MOD)%N -> wrap n = n.
Proof. intros H. unfold wrap. apply N.mod_small. exact H. Qed.

Lemma new_shaped (w : N) (s : SMACalculator.t D) :
  SMACalculator.new w = Ok s ->
  shaped w s /\ current_size_ s = 0%N /\ window s = [] /\ running_sum_ s = d0.
Proof.
  unfold SMACalculator.new. destruct (N.eqb_spec w 0); [discriminate|].
  intros H; inversion H; subst; clear H. unfold window. cbn.
  assert ((0 <? w)%N = true) as -> by (apply N.ltb_lt; lia).
  repeat split; cbn; try lia.
  apply repeat_length.
Qed.

Lemma addPrice_step (w : N) (s : SMACalculator.t D) (x : D) :
  (0 < w < SIZE_MOD)%N -> shaped w s -> dlt x d0 = false ->
  exists s',
    addPrice x s = (Ok tt, s') /\ shaped w s' /\
    current_size_ s' = N.min (current_size_ s + 1) w /\
    window s' =
      (if (current_size_ s =? w)%N then tl (window s) else window s) ++ [x] /\
    running_sum_ s' =
      dadd (if (current_size_ s =? w)%N
            then dsub (running_sum_ s) (hd d0 (window s))
            else running_sum_ s) x /\
    ((current_size_ s =? w)%N = true -> window s <> []).
Proof.
  intros Hw [Hws Hlen Hc Hi Hfill] Hx.
  unfold addPrice. rewrite Hx. eexists. split; [reflexivity|].
  rewrite Hws.
  destruct (N.ltb_spec (current_size_ s) w) as [Hlt|Hge].
  - (* the buffer is still filling *)
    specialize (Hfill Hlt).
    assert ((current_size_ s =? w)%N = false) as Hne by (apply N.eqb_neq; lia).
    rewrite Hne.
    rewrite !wrap_small by lia. rewrite Hfill.
    assert (Hnat : N.to_nat (current_size_ s) < length (prices_ s)) by lia.
    repeat split; cbn; try lia.
    + unfold vec_set. rewrite vec_set_nat_length. exact Hlen.
    + apply N.mod_lt. lia.
    + intros Hlt'. apply N.mod_small. exact Hlt'.
    + unfold window; cbn. rewrite Hws.
      assert ((current_size_ s <? w)%N = true) as -> by (apply N.ltb_lt; lia).
      destruct (N.ltb_spec (current_size_ s + 1) w) as [Hlt'|Hge'].
      * unfold vec_set. rewrite N2Nat.inj_add.
        replace (N.to_nat (current_size_ s) + N.to_nat 1)
          with (S (N.to_nat (current_size_ s))) by lia.
        apply firstn_S_vec_set_nat. exact Hnat.
      * assert (current_size_ s + 1 = w)%N as Heq by lia.
        rewrite Heq, N.Div0.mod_same. cbn. rewrite app_nil_r.
        unfold vec_set.
        rewrite <- (firstn_all (vec_set_nat _ _ _)).
        rewrite vec_set_nat_length, Hlen.
        replace (N.to_nat w) with (S (N.to_nat (current_size_ s))) by lia.
        apply firstn_S_vec_set_nat. exact Hnat.
  - (* the buffer is full *)
    assert (current_size_ s = w) as Hfull by lia.
    assert ((current_size_ s =? w)%N = true) as Heq by (apply N.eqb_eq; lia).
    rewrite Heq. rewrite wrap_small by lia.
    assert (Hnat : N.to_nat (index_ s) < length (prices_ s)) by lia.
    assert (Hwin : window s
                   = vec_get (prices_ s) (index_ s)
                     :: skipn (S (N.to_nat (index_ s))) (prices_ s)
                        ++ firstn (N.to_nat (index_ s)) (prices_ s)).
    { unfold window. rewrite Hws.
      assert ((current_size_ s <? w)%N = false) as -> by (apply N.ltb_ge; lia).
      rewrite (skipn_nth (prices_ s) d0 Hnat). reflexivity. }
    repeat split; cbn; try lia.
    + unfold vec_set. rewrite vec_set_nat_length. exact Hlen.
    + apply N.mod_lt. lia.
    + unfold window at 1; cbn.
      assert ((current_size_ s <? w)%N = false) as -> by (apply N.ltb_ge; lia).
      rewrite Hwin. cbn [tl]. unfold vec_set.
      destruct (N.ltb_spec (index_ s + 1) w) as [Hlt'|Hge'].
      * rewrite N.mod_small by exact Hlt'. rewrite N2Nat.inj_add.
        replace (N.to_nat (index_ s) + N.to_nat 1)
          with (S (N.to_nat (index_ s))) by lia.
        rewrite skipn_S_vec_set_nat, firstn_S_vec_set_nat by exact Hnat.
        rewrite app_assoc. reflexivity.
      * assert (index_ s + 1 = w)%N as Hlast by lia.
        rewrite Hlast, N.Div0.mod_same. change (N.to_nat 0) with 0.
        rewrite skipn_O, firstn_O, app_nil_r.
        rewrite (skipn_all2 (prices_ s)) by lia. cbn [app].
        rewrite <- (firstn_all (vec_set_nat _ _ _)).
        rewrite vec_set_nat_length, Hlen.
        replace (N.to_nat w) with (S (N.to_nat (index_ s))) by lia.
        apply firstn_S_vec_set_nat. exact Hnat.
    + rewrite Hwin. reflexivity.
    + rewrite Hwin. discriminate.
Qed.

End SMAFacts.

Section SMARuns.
Context {D : Type} {A : Arith D}.
Import SMACalculator.

(** A relation between the running sum and the window that the two ways of
    updating the sum keep. *)
Variable R : D -> list D -> Prop.
Hypothesis R_grow : forall sum W x, R sum W -> R (dadd sum x) (W ++ [x]).
Hypothesis R_slide :
  forall sum h W x, R sum (h :: W) -> R (dadd (dsub sum h) x) (W ++ [x]).

Lemma addPrices_window (w : N) :
  (0 < w < SIZE_MOD)%N ->
  forall (ys pre : list D) (s : SMACalculator.t D),
    shaped w s ->
    current_size_ s = N.min (N.of_nat (length pre)) w ->
    window s = lastn (N.to_nat (current_size_ s)) pre ->
    R (running_sum_ s) (window s) ->
    Forall (fun x => dlt x d0 = false) ys ->
    exists s',
      addPrices ys s = (Ok tt, s') /\ shaped w s' /\
      current_size_ s' = N.min (N.of_nat (length (pre ++ ys))) w /\
      window s' = lastn (N.to_nat (current_size_ s')) (pre ++ ys) /\
      R (running_sum_ s') (window s').
Proof.
  intros Hw. induction ys as [|y ys IH]; intros pre s Hs Hc Hwin Hsum Hys.
  - exists s. rewrite app_nil_r. cbn. auto.
  - inversion Hys as [|? ? Hy Hrest]; subst.
    destruct (addPrice_step y Hw Hs Hy)
      as (s1 & Hadd & Hs1 & Hc1 & Hwin1 & Hsum1 & Hne).
    cbn [addPrices]. rewrite Hadd.
    assert (Hc1' : current_size_ s1
                   = N.min (N.of_nat (length (pre ++ [y]))) w).
    { rewrite Hc1, Hc, length_app. cbn [length]. lia. }
    assert (Hwin1' : window s1
                     = lastn (N.to_nat (current_size_ s1)) (pre ++ [y])).
    { rewrite Hwin1. destruct (N.eqb_spec (current_size_ s) w) as [Hfull|Hpart].
      - rewrite Hwin, lastn_snoc_full by lia.
        do 2 f_equal. f_equal. lia.
      - rewrite Hwin, !lastn_all; auto.
        + rewrite length_app; cbn [length]. lia.
        + lia. }
    destruct (IH (pre ++ [y]) s1 Hs1 Hc1' Hwin1') as (s' & Hrun & Hrest').
    + rewrite Hsum1, Hwin1.
      destruct (N.eqb_spec (current_size_ s) w) as [Hfull|Hpart].
      * specialize (Hne eq_refl).
        destruct (window s) as [|h W] eqn:HW; [congruence|].
        cbn [hd tl]. apply R_slide. exact Hsum.
      * apply R_grow. exact Hsum.
    + exact Hrest.
    + exists s'. rewrite <- app_assoc in Hrest'. cbn [app] in Hrest'.
      split; [exact Hrun | exact Hrest'].
Qed.

End SMARuns.

(** Sums over the rationals. *)
Lemma fold_left_Qplus_shift (l : list Q) (a : Q) :
  (fold_left Qplus l a == a + fold_left Qplus l 0)%Q.
Proof.
  revert a; induction l as [|x l IH]; intros a; cbn.
  - lra.
  - rewrite (IH (a + x)%Q), (IH (0 + x)%Q). lra.
Qed.

Lemma sum_list_cons_exact (x : Q) (l : list Q) :
  (sum_list (x :: l) == x + sum_list l)%Q.
Proof.
  unfold sum_list; cbn. rewrite fold_left_Qplus_shift. lra.
Qed.

Lemma sum_list_snoc_exact (l : list Q) (x : Q) :
  sum_list (l ++ [x]) = (sum_list l + x)%Q.
Proof. unfold sum_list. rewrite fold_left_app. reflexivity. Qed.

Lemma dlt_exact (x y : Q) : dlt x y = false <-> (y <= x)%Q.
Proof.
  cbn. rewrite negb_false_iff. apply Qle_bool_iff.
Qed.

(** C1, as amended.  For a window [0 < w < 2^64] and observations none of
    which is below zero, in any arithmetic (binary64 included) every
    [addPrice] returns, [size()] is [min(n, w)] for [n] observations so
    far, and the buffer holds exactly the last [min(n, w)] of them.  When
    the additions and subtractions of the running sum are exact (the engine
    over the rationals), [getSMA()] equals the arithmetic mean of those
    observations. *)
Theorem moving_average_over_window :
  (forall (D : Type) (A : Arith D) (w : N) (xs : list D),
     (0 < w < SIZE_MOD)%N ->
     Forall (fun x => dlt x d0 = false) xs ->
     window_tracked w xs) /\
  (forall (w : N) (xs : list Q),
     (0 < w < SIZE_MOD)%N ->
     Forall (fun x => dlt x d0 = false) xs ->
     average_is_mean (A := exact) w xs).
Proof.
  assert (Hnew : forall (D : Type) (A : Arith D) (w : N),
             (0 < w)%N -> exists s0 : SMACalculator.t D,
               SMACalculator.new w = Ok s0).
  { intros D A w Hw. unfold SMACalculator.new.
    destruct (N.eqb_spec w 0); [lia|]. eexists; reflexivity. }
  split.
  - intros D A w xs Hw Hxs.
    destruct (Hnew D A w) as (s0 & Hs0); [lia|].
    destruct (new_shaped _ Hs0) as (Hshape & Hc0 & Hw0 & _).
    assert (Hc0' : SMACalculator.current_size_ s0
                   = N.min (N.of_nat (length (@nil D))) w).
    { rewrite Hc0. cbn. lia. }
    assert (Hw0' : window s0
                   = lastn (N.to_nat (SMACalculator.current_size_ s0)) []).
    { rewrite Hw0. unfold lastn. rewrite skipn_nil. reflexivity. }
    destruct (@addPrices_window D A (fun _ _ => True)
                (fun _ _ _ _ => I) (fun _ _ _ _ _ => I)
                w Hw xs [] s0 Hshape Hc0' Hw0' I Hxs)
      as (s & Hrun & _ & Hc & Hwin & _).
    exists s0, s. cbn [app] in *. unfold SMACalculator.size. auto.
  - intros w xs Hw Hxs.
    destruct (Hnew Q exact w) as (s0 & Hs0); [lia|].
    destruct (new_shaped _ Hs0) as (Hshape & Hc0 & Hw0 & Hsum0).
    assert (Hgrow : forall (sum : Q) (W : list Q) (x : Q),
               (sum == sum_list W)%Q ->
               (dadd sum x == sum_list (W ++ [x]))%Q).
    { intros sum W x H. rewrite sum_list_snoc_exact. cbn. rewrite H.
      reflexivity. }
    assert (Hslide : forall (sum h : Q) (W : list Q) (x : Q),
               (sum == sum_list (h :: W))%Q ->
               (dadd (dsub sum h) x == sum_list (W ++ [x]))%Q).
    { intros sum h W x H. rewrite sum_list_snoc_exact.
      rewrite sum_list_cons_exact in H. cbn. rewrite H. ring. }
    assert (Hc0' : SMACalculator.current_size_ s0
                   = N.min (N.of_nat (length (@nil Q))) w).
    { rewrite Hc0. cbn. lia. }
    assert (Hw0' : window s0
                   = lastn (N.to_nat (SMACalculator.current_size_ s0)) []).
    { rewrite Hw0. unfold lastn. rewrite skipn_nil. reflexivity. }
    assert (Hsum0' : (SMACalculator.running_sum_ s0
                      == sum_list (window s0))%Q).
    { rewrite Hsum0, Hw0. reflexivity. }
    destruct (@addPrices_window Q exact (fun sum W => (sum == sum_list W)%Q)
                Hgrow Hslide w Hw xs [] s0 Hshape Hc0' Hw0' Hsum0' Hxs)
      as (s & Hrun & _ & Hc & Hwin & Hsum).
    exists s0, s. cbn [app] in *. unfold SMACalculator.size.
    repeat split; auto.
    rewrite <- Hc, <- Hwin. cbn [deq exact]. apply Qeq_bool_iff.
    unfold SMACalculator.getSMA, mean.
    assert (Hlen : N.of_nat (length (window s))
                   = SMACalculator.current_size_ s).
    { rewrite Hwin, lastn_length; lia. }
    rewrite Hlen.
    destruct (N.eqb_spec (SMACalculator.current_size_ s) 0) as [Hz|Hnz].
    + rewrite Hz. cbn. destruct (sum_list (window s)).
      unfold Qdiv, Qinv; cbn. ring.
    + cbn. rewrite Hsum. reflexivity.
Qed.

(** The statement applied: window 3 fed 100, 102, 98, 104. *)
Lemma moving_average_over_window_witness :
  window_tracked (A := binary64) 3 [100; 102; 98; 104]%float /\
  average_is_mean (A := exact) 3 [100 # 1; 102 # 1; 98 # 1; 104 # 1]%Q.
Proof.
  split.
  - apply (proj1 moving_average_over_window).
    + split; reflexivity.
    + repeat constructor.
  - apply (proj2 moving_average_over_window).
    + split; reflexivity.
    + repeat constructor.
Defined.

(** C1 as stated fails in binary64.  Window 2 fed 1e16, 1, 1: the sum
    [1e16 + 1] rounds to [1e16], so after [1e16] has left the window the
    running sum is 1, not 2, and [getSMA()] is 0.5 while the window holds
    1 and 1. *)
Lemma running_sum_drifts_in_binary64 :
  (0 < 2 < SIZE_MOD)%N /\
  Forall (fun x : double => dlt x d0 = false) [1e16; 1; 1]%float /\
  ~ average_is_mean (A := binary64) 2 [1e16; 1; 1]%float.
Proof.
  split; [split; reflexivity|].
  split; [repeat constructor|].
  intros (s0 & s & Hnew & Hrun & _ & Hmean).
  vm_compute in Hnew. injection Hnew as <-.
  vm_compute in Hrun. injection Hrun as <-.
  vm_compute in Hmean. discriminate.
Qed.

(** ** Order ids *)

Lemma decimal_inj (n m : N) : decimal n = decimal m -> n = m.
Proof.
  unfold decimal. intros H.
  apply DecimalN.Unsigned.to_uint_inj.
  assert (Some (N.to_uint n) = Some (N.to_uint m)) as Heq.
  { rewrite <- (NilEmpty.usu (N.to_uint n)), <- (NilEmpty.usu (N.to_uint m)).
    now rewrite H. }
  now inversion Heq.
Qed.

Lemma order_id_inj (n m : N) : order_id n = order_id m -> n = m.
Proof.
  unfold order_id. cbn. intros H. apply decimal_inj. now inversion H.
Qed.

Lemma wrap_lt (n : N) : (wrap n < SIZE_MOD)%N.
Proof. unfold wrap. apply N.mod_lt. discriminate. Qed.

Section IdFacts.
Context {D : Type} {A : Arith D}.

Lemma body_keeps_counter (b : OrderBook.t D) :
  match OrderBook.body b with
  | OrderBook.Exit => True
  | OrderBook.Cleaned b' | OrderBook.Matched _ b' =>
      OrderBook.next_order_id_ b' = OrderBook.next_order_id_ b
  end.
Proof.
  unfold OrderBook.body.
  destruct (OrderBook.bids_ b) as [|[kb bos] rb]; [exact I|].
  destruct (OrderBook.asks_ b) as [|[ka aos] ra]; [exact I|].
  destruct (dlt kb ka); [exact I|].
  destruct bos, aos; reflexivity.
Qed.

Lemma loop_keeps_counter (fuel : nat) :
  forall (b : OrderBook.t D) acc trades b',
    OrderBook.loop fuel b acc = Some (trades, b') ->
    OrderBook.next_order_id_ b' = OrderBook.next_order_id_ b.
Proof.
  induction fuel as [|fuel IH]; intros b acc trades b' H; [discriminate|].
  cbn [OrderBook.loop] in H. pose proof (body_keeps_counter b) as Hb.
  destruct (OrderBook.body b) as [|b1|tr b1].
  - now inversion H.
  - apply IH in H. congruence.
  - apply IH in H. congruence.
Qed.

Lemma addOrder_id (side : OrderSide) (price quantity : D) (b : OrderBook.t D) :
  match OrderBook.addOrder side price quantity b with
  | (Ok id, b') =>
      id = order_id (OrderBook.next_order_id_ b) /\
      OrderBook.next_order_id_ b' = wrap (OrderBook.next_order_id_ b + 1)
  | (Throw _, b') => b' = b
  end.
Proof.
  unfold OrderBook.addOrder.
  destruct (dle price d0 || dle quantity d0); [reflexivity|].
  destruct side; cbn; split; reflexivity.
Qed.

Lemma run_issues (fuel : nat) (calls : list (Session.call D)) :
  forall (b : OrderBook.t D) log b',
    Session.one_lifetime calls ->
    Session.run fuel calls b = Some (log, b') ->
    Session.issued log
    = ids_from (OrderBook.next_order_id_ b) (length (Session.issued log)).
Proof.
  induction calls as [|c calls IH]; intros b log b' Hlife Hrun.
  - inversion Hrun; subst. reflexivity.
  - unfold Session.one_lifetime in Hlife. cbn [forallb] in Hlife.
    apply andb_true_iff in Hlife as [Hc Hlife].
    destruct c as [side price quantity| |]; [| |discriminate].
    + cbn [Session.run] in Hrun.
      pose proof (addOrder_id side price quantity b) as Hid.
      destruct (OrderBook.addOrder side price quantity b) as [r b1].
      destruct (Session.run fuel calls b1) as [[log1 b2]|] eqn:Hrest;
        [|discriminate].
      inversion Hrun; subst; clear Hrun.
      specialize (IH _ _ _ Hlife Hrest).
      destruct r as [id|e].
      * destruct Hid as [-> Hnext]. cbn [Session.issued length ids_from].
        f_equal. rewrite <- Hnext. exact IH.
      * subst b1. cbn [Session.issued]. exact IH.
    + cbn [Session.run] in Hrun.
      destruct (OrderBook.matchOrders fuel b) as [[trades b1]|] eqn:Hm;
        [|discriminate].
      destruct (Session.run fuel calls b1) as [[log1 b2]|] eqn:Hrest;
        [|discriminate].
      inversion Hrun; subst; clear Hrun.
      specialize (IH _ _ _ Hlife Hrest). cbn [Session.issued].
      apply loop_keeps_counter in Hm. rewrite <- Hm. exact IH.
Qed.

Lemma ids_from_length (n : nat) (first : N) : length (ids_from first n) = n.
Proof.
  revert first; induction n as [|n IH]; intros first; cbn; auto.
Qed.

Lemma ids_from_nth (n : nat) :
  forall (first : N) (k : nat),
    (first < SIZE_MOD)%N -> k < n ->
    nth_error (ids_from first n) k
    = Some (order_id (wrap (first + N.of_nat k))).
Proof.
  induction n as [|n IH]; intros first k Hfirst Hk; [lia|].
  destruct k as [|k]; cbn [ids_from nth_error].
  - rewrite N.add_0_r, wrap_small by exact Hfirst. reflexivity.
  - rewrite IH by (try apply wrap_lt; lia). do 2 f_equal.
    unfold wrap. rewrite N.Div0.add_mod_idemp_l. f_equal. lia.
Qed.

Lemma wrap_succ_inj (i j : N) :
  (i < SIZE_MOD)%N -> (j < SIZE_MOD)%N ->
  wrap (1 + i) = wrap (1 + j) -> i = j.
Proof.
  intros Hi Hj. unfold wrap.
  destruct (N.eq_dec (1 + i) SIZE_MOD) as [Ei|Ei];
    destruct (N.eq_dec (1 + j) SIZE_MOD) as [Ej|Ej].
  - lia.
  - rewrite Ei, N.Div0.mod_same, N.mod_small by lia. lia.
  - rewrite Ej, N.Div0.mod_same, N.mod_small by lia. lia.
  - rewrite !N.mod_small by lia. lia.
Qed.

Lemma ids_from_NoDup (n : nat) :
  (N.of_nat n <= SIZE_MOD)%N -> NoDup (ids_from 1 n).
Proof.
  intros Hn. apply NoDup_nth_error. intros i j Hi Heq.
  rewrite ids_from_length in Hi.
  assert (H1 : (1 < SIZE_MOD)%N) by reflexivity.
  rewrite (ids_from_nth H1 Hi) in Heq.
  assert (Hj : j < n).
  { destruct (Nat.lt_ge_cases j n) as [|Hge]; [assumption|].
    assert (nth_error (ids_from 1 n) j = None) as Hnone
      by (apply nth_error_None; rewrite ids_from_length; exact Hge).
    congruence. }
  rewrite (ids_from_nth H1 Hj) in Heq.
  assert (Hid : order_id (wrap (1 + N.of_nat i))
                = order_id (wrap (1 + N.of_nat j))) by congruence.
  apply order_id_inj, wrap_succ_inj in Hid; lia.
Qed.

End IdFacts.

(** C9, as amended.  In one lifetime of a book (from construction or
    [reset], up to the next [reset]), with orders removed by matching in
    between or not, the [k]-th accepted [addOrder] (counting from 0) returns
    ["ORD"] followed by the decimal digits of [(1 + k) mod 2^64]: of
    [1 + k] as long as [1 + k < 2^64].  The first [2^64] ids handed out are
    pairwise distinct.  [reset] puts the book back in its initial state, so
    the next id is ["ORD1"]. *)
Theorem order_ids_count_up (D : Type) (A : Arith D) :
  (forall fuel calls log (b' : OrderBook.t D),
     Session.one_lifetime calls ->
     Session.run fuel calls OrderBook.init = Some (log, b') ->
     (forall k id,
        nth_error (Session.issued log) k = Some id ->
        id = ("ORD" ++ decimal (wrap (1 + N.of_nat k)))%string) /\
     (forall k id,
        (1 + N.of_nat k < SIZE_MOD)%N ->
        nth_error (Session.issued log) k = Some id ->
        id = ("ORD" ++ decimal (1 + N.of_nat k))%string) /\
     ((N.of_nat (length (Session.issued log)) <= SIZE_MOD)%N ->
      NoDup (Session.issued log))) /\
  (forall b : OrderBook.t D, OrderBook.reset b = OrderBook.init) /\
  (forall (b b' : OrderBook.t D) side price quantity id,
     OrderBook.addOrder side price quantity (OrderBook.reset b) = (Ok id, b') ->
     id = "ORD1"%string).
Proof.
  split; [|split].
  - intros fuel calls log b' Hlife Hrun.
    pose proof (@run_issues D A fuel calls _ _ _ Hlife Hrun) as Hids.
    change (OrderBook.next_order_id_ OrderBook.init) with 1%N in Hids.
    assert (Hnth : forall k id,
               nth_error (Session.issued log) k = Some id ->
               id = order_id (wrap (1 + N.of_nat k))).
    { intros k id Hk.
      assert (Hlt : k < length (Session.issued log))
        by (apply nth_error_Some; congruence).
      rewrite Hids, ids_from_nth in Hk by (try reflexivity; exact Hlt).
      congruence. }
    split; [exact Hnth|]. split.
    + intros k id Hsmall Hk. apply Hnth in Hk.
      rewrite wrap_small in Hk by exact Hsmall. exact Hk.
    + intros Hlen. rewrite Hids. apply ids_from_NoDup. exact Hlen.
  - reflexivity.
  - intros b b' side price quantity id Hadd.
    pose proof (addOrder_id side price quantity (OrderBook.reset b)) as Hid.
    rewrite Hadd in Hid. destruct Hid as [-> _]. reflexivity.
Qed.

(** The statement applied to the session [sweep]. *)
Lemma order_ids_count_up_witness :
  exists log b',
    Session.run 10 sweep OrderBook.init = Some (log, b') /\
    Session.issued log = ["ORD1"; "ORD2"; "ORD3"; "ORD4"]%string /\
    NoDup (Session.issued log).
Proof.
  eexists; eexists. split; [vm_compute; reflexivity|].
  split; [reflexivity|].
  refine (proj2 (proj2 (proj1 (order_ids_count_up binary64)
                          10 sweep _ _ _ _)) _).
  - reflexivity.
  - vm_compute; reflexivity.
  - vm_compute. discriminate.
Defined.

Lemma churn_one_lifetime (k : nat) (rest : list (Session.call double)) :
  Session.one_lifetime rest -> Session.one_lifetime (churn k rest).
Proof.
  unfold Session.one_lifetime. intros Hrest. induction k; cbn; auto.
Qed.

(** One round on an empty book hands out two ids and leaves the book
    empty. *)
Lemma churn_round (n : N) (rest : list (Session.call double)) :
  Session.run 2
    (Session.AddOrder SELL 1%float 1%float
     :: Session.AddOrder BUY 1%float 1%float
     :: Session.MatchOrders :: rest)
    (OrderBook.mk [] [] n)
  = match Session.run 2 rest
            (OrderBook.mk [] [] (wrap (wrap (n + 1) + 1))) with
    | Some (log, b') =>
        Some (Session.Accepted SELL 1%float 1%float (order_id n)
              :: Session.Accepted BUY 1%float 1%float
                   (order_id (wrap (n + 1)))
              :: Session.Executed
                   [Trade.mk (order_id (wrap (n + 1))) (order_id n)
                      1%float 1%float]
              :: log, b')
    | None => None
    end.
Proof.
  set (sell := Order.mk (order_id n) SELL 1%float 1%float).
  set (buy := Order.mk (order_id (wrap (n + 1))) BUY 1%float 1%float).
  assert (E1 : OrderBook.addOrder SELL 1%float 1%float (OrderBook.mk [] [] n)
               = (Ok (order_id n),
                  OrderBook.mk [] [(1%float, [sell])] (wrap (n + 1))))
    by reflexivity.
  assert (E2 : OrderBook.addOrder BUY 1%float 1%float
                 (OrderBook.mk [] [(1%float, [sell])] (wrap (n + 1)))
               = (Ok (order_id (wrap (n + 1))),
                  OrderBook.mk [(1%float, [buy])] [(1%float, [sell])]
                    (wrap (wrap (n + 1) + 1))))
    by reflexivity.
  assert (E3 : OrderBook.matchOrders 2
                 (OrderBook.mk [(1%float, [buy])] [(1%float, [sell])]
                    (wrap (wrap (n + 1) + 1)))
               = Some ([Trade.mk (order_id (wrap (n + 1))) (order_id n)
                          1%float 1%float],
                       OrderBook.mk [] [] (wrap (wrap (n + 1) + 1))))
    by reflexivity.
  cbn [Session.run]. rewrite E1, E2, E3.
  destruct (Session.run 2 rest _) as [[log b']|]; reflexivity.
Qed.

Lemma run_churn (k : nat) :
  forall n : N,
  exists log b',
    Session.run 2
      (churn k [Session.AddOrder SELL 1%float 1%float])
      (OrderBook.mk [] [] n)
    = Some (log, b') /\
    length (Session.issued log) = 2 * k + 1 /\
    length (resting b') = 1.
Proof.
  induction k as [|k IH]; intros n.
  - eexists. eexists. split; [reflexivity|]. split; reflexivity.
  - cbn [churn]. rewrite churn_round.
    destruct (IH (wrap (wrap (n + 1) + 1))) as (log & b' & -> & Hlen & Hrest).
    eexists. eexists. split; [reflexivity|].
    split; [|exact Hrest]. cbn [Session.issued length]. lia.
Qed.

(** At no point of these rounds does the book hold more than two orders. *)
Lemma churn_small (k : nat) :
  forall (n : N) (done todo : list (Session.call double)) log b,
    churn k [Session.AddOrder SELL 1%float 1%float] = done ++ todo ->
    Session.run 2 done (OrderBook.mk [] [] n) = Some (log, b) ->
    length (resting b) <= 2.
Proof.
  induction k as [|k IH]; intros n done todo log b Hsplit Hrun.
  - destruct done as [|c1 [|c2 done]]; cbn in Hsplit.
    + injection Hrun as <- <-. cbn. lia.
    + injection Hsplit as <- <-. injection Hrun as <- <-. cbn. lia.
    + injection Hsplit as _ Habs. discriminate.
  - cbn [churn] in Hsplit.
    destruct done as [|c1 [|c2 [|c3 done]]]; cbn [app] in Hsplit.
    + injection Hrun as <- <-. cbn. lia.
    + injection Hsplit as <- _. injection Hrun as <- <-. cbn. lia.
    + injection Hsplit as <- <- _. injection Hrun as <- <-. cbn. lia.
    + injection Hsplit as <- <- <- Hsplit.
      rewrite churn_round in Hrun.
      destruct (Session.run 2 done _) as [[log1 b1]|] eqn:Hrest;
        [|discriminate].
      injection Hrun as <- <-.
      eapply IH; eauto.
Qed.

(** C9 as stated fails once the [size_t] counter wraps, also in a book that
    never holds more than two orders.  In a lifetime of [2^63] rounds of a
    sell order and a buy order that [matchOrders] fills against each other
    and removes, followed by one more sell order, [2^64 + 1] orders are
    accepted and at no point are more than two of them resting: the first
    id is ["ORD1"], the [2^64]-th is ["ORD0"] (the numbering does not
    increase), and the last is ["ORD1"] again (an id is reused after its
    order was removed). *)
Lemma order_id_reused_after_wrap :
  let calls :=
    churn (N.to_nat (SIZE_MOD / 2))
      [Session.AddOrder SELL 1%float 1%float] in
  Session.one_lifetime calls /\
  (forall done todo log b,
     calls = done ++ todo ->
     Session.run 2 done OrderBook.init = Some (log, b) ->
     length (resting b) <= 2) /\
  exists log b',
    Session.run 2 calls OrderBook.init = Some (log, b') /\
    nth_error (Session.issued log) 0 = Some "ORD1"%string /\
    nth_error (Session.issued log) (N.to_nat (SIZE_MOD - 1))
    = Some "ORD0"%string /\
    nth_error (Session.issued log) (N.to_nat SIZE_MOD) = Some "ORD1"%string /\
    ~ NoDup (Session.issued log).
Proof.
  intros calls.
  assert (Hlife : Session.one_lifetime calls)
    by (apply churn_one_lifetime; reflexivity).
  split; [exact Hlife|]. split.
  { intros done todo log b Hsplit Hrun.
    exact (@churn_small _ 1 done todo log b Hsplit Hrun). }
  destruct (run_churn (N.to_nat (SIZE_MOD / 2)) 1)
    as (log & b' & Hrun & Hlen & _).
  change (OrderBook.mk [] [] 1) with (@OrderBook.init double) in Hrun.
  exists log, b'. split; [exact Hrun|].
  assert (Hhalf : 2 * N.to_nat (SIZE_MOD / 2) = N.to_nat SIZE_MOD).
  { change 2 with (N.to_nat 2). rewrite <- N2Nat.inj_mul.
    f_equal. }
  rewrite Hhalf in Hlen.
  pose proof (@run_issues double binary64 2 _ _ _ _ Hlife Hrun) as Hids.
  change (OrderBook.next_order_id_ OrderBook.init) with 1%N in Hids.
  rewrite Hlen in Hids.
  assert (H1 : (1 < SIZE_MOD)%N) by reflexivity.
  assert (Hfirst : nth_error (Session.issued log) 0 = Some "ORD1"%string).
  { rewrite Hids, ids_from_nth by (try exact H1; lia). reflexivity. }
  assert (Hlast : nth_error (Session.issued log) (N.to_nat SIZE_MOD)
                  = Some "ORD1"%string).
  { rewrite Hids, ids_from_nth by (try exact H1; lia).
    rewrite N2Nat.id. reflexivity. }
  split; [exact Hfirst|]. split; [|split; [exact Hlast|]].
  - assert (Hpos : (1 <= SIZE_MOD)%N) by (vm_compute; discriminate).
    rewrite Hids. rewrite ids_from_nth; [|exact H1|lia].
    rewrite N2Nat.id. reflexivity.
  - intros Hnd.
    assert (0 = N.to_nat SIZE_MOD) as Habs.
    { eapply (proj1 (NoDup_nth_error _) Hnd).
      - rewrite Hids, ids_from_length. lia.
      - congruence. }
    lia.
Qed.

(** ** Levels and the work left in a book *)

Section BookFacts.
Context {D : Type} {A : Arith D}.

Lemma work_split (b : OrderBook.t D) :
  work b = map_work (OrderBook.bids_ b) + map_work (OrderBook.asks_ b).
Proof.
  unfold work, resting, map_work. rewrite length_app. lia.
Qed.

Lemma In_resting_push_at (comp : D -> D -> bool) (p : D) (o x : Order.t D)
    (m : OrderBook.price_map D) :
  In x (resting_in (OrderBook.push_at comp p o m)) <->
  x = o \/ In x (resting_in m).
Proof.
  induction m as [|[k os] m IH]; cbn.
  - intuition congruence.
  - destruct (comp k p).
    + cbn. rewrite !in_app_iff, IH. tauto.
    + destruct (comp p k); cbn.
      * rewrite !in_app_iff. intuition congruence.
      * rewrite !in_app_iff. cbn. intuition congruence.
Qed.

Lemma In_push_at_level (comp : D -> D -> bool) (p : D) (o : Order.t D)
    (m : OrderBook.price_map D) (l : OrderBook.level D) :
  In l (OrderBook.push_at comp p o m) ->
  snd l <> [] \/ In l m.
Proof.
  induction m as [|[k os] m IH]; cbn.
  - intros [<-|[]]. left. discriminate.
  - destruct (comp k p).
    + cbn. intros [<-|H]; [auto|]. apply IH in H. tauto.
    + destruct (comp p k); cbn.
      * intros [<-|H]; [left; discriminate | tauto].
      * intros [<-|H]; [|tauto]. left. cbn. destruct os; discriminate.
Qed.

Lemma fill_front_levels (k : D) (f : Order.t D) (tl : list (Order.t D))
    (rest : OrderBook.price_map D) (tq : D) (l : OrderBook.level D) :
  In l (OrderBook.fill_front k f tl rest tq) -> snd l <> [] \/ In l rest.
Proof.
  unfold OrderBook.fill_front.
  destruct (deq _ d0).
  - destruct tl; cbn; [tauto|]. intros [<-|H]; [left; discriminate | tauto].
  - cbn. intros [<-|H]; [left; discriminate | tauto].
Qed.

Lemma fill_front_work (k : D) (f : Order.t D) (tl : list (Order.t D))
    (rest : OrderBook.price_map D) (tq : D) :
  map_work (OrderBook.fill_front k f tl rest tq)
  <= map_work ((k, f :: tl) :: rest) /\
  (deq (dsub (Order.quantity f) tq) d0 = true ->
   map_work (OrderBook.fill_front k f tl rest tq)
   < map_work ((k, f :: tl) :: rest)).
Proof.
  unfold OrderBook.fill_front, map_work, resting_in.
  destruct (deq _ d0).
  - destruct tl; cbn; rewrite ?length_app; cbn; split; intros; lia.
  - cbn; rewrite ?length_app; cbn. split; [lia | discriminate].
Qed.

Lemma body_progress (b : OrderBook.t D) :
  cancelling ->
  match OrderBook.body b with
  | OrderBook.Exit => True
  | OrderBook.Cleaned b' | OrderBook.Matched _ b' => work b' < work b
  end.
Proof.
  intros Hcancel. unfold OrderBook.body.
  destruct (OrderBook.bids_ b) as [|[kb bos] rb] eqn:Hb; [exact I|].
  destruct (OrderBook.asks_ b) as [|[ka aos] ra] eqn:Ha; [exact I|].
  destruct (dlt kb ka); [exact I|].
  destruct bos as [|ob tb], aos as [|oa ta].
  - rewrite !work_split, Hb, Ha. unfold map_work, resting_in; cbn.
    rewrite ?length_app. lia.
  - rewrite !work_split, Hb, Ha. unfold map_work, resting_in; cbn.
    rewrite ?length_app. lia.
  - rewrite !work_split, Hb, Ha. unfold map_work, resting_in; cbn.
    rewrite ?length_app. lia.
  - rewrite !work_split, Hb, Ha. cbn [OrderBook.bids_ OrderBook.asks_].
    set (tq := std_min (Order.quantity ob) (Order.quantity oa)).
    destruct (fill_front_work kb ob tb rb tq) as [Hb1 Hb2].
    destruct (fill_front_work ka oa ta ra tq) as [Ha1 Ha2].
    unfold std_min in tq.
    destruct (dlt (Order.quantity oa) (Order.quantity ob)); subst tq.
    + specialize (Ha2 (Hcancel _)). unfold OrderBook.level in *. lia.
    + specialize (Hb2 (Hcancel _)). unfold OrderBook.level in *. lia.
Qed.

Lemma loop_S (fuel : nat) (b : OrderBook.t D) (acc : list (Trade.t D)) :
  OrderBook.loop (S fuel) b acc
  = match OrderBook.body b with
    | OrderBook.Exit => Some (acc, b)
    | OrderBook.Cleaned b' => OrderBook.loop fuel b' acc
    | OrderBook.Matched trade b' => OrderBook.loop fuel b' (acc ++ [trade])
    end.
Proof. reflexivity. Qed.

Lemma iterations_S (fuel : nat) (b : OrderBook.t D) :
  iterations (S fuel) b
  = match OrderBook.body b with
    | OrderBook.Exit => 0
    | OrderBook.Cleaned b' | OrderBook.Matched _ b' => S (iterations fuel b')
    end.
Proof. reflexivity. Qed.

Lemma loop_terminates (n : nat) :
  cancelling ->
  forall (b : OrderBook.t D) acc,
    work b <= n ->
    (exists trades b', OrderBook.loop (S n) b acc = Some (trades, b')) /\
    iterations (S n) b <= work b.
Proof.
  intros Hcancel. induction n as [|n IH]; intros b acc Hn;
    pose proof (body_progress b Hcancel) as Hstep;
    rewrite loop_S, iterations_S;
    destruct (OrderBook.body b) as [|b1|trade b1]; try lia;
    try (split; [eauto | lia]).
  - destruct (IH b1 acc) as [Hret Hit]; [lia|]. split; [exact Hret | lia].
  - destruct (IH b1 (acc ++ [trade])) as [Hret Hit]; [lia|].
    split; [exact Hret | lia].
Qed.

(** More fuel does not change what the loop returns. *)
Lemma loop_fuel_mono (fuel : nat) :
  forall (b : OrderBook.t D) acc r,
    OrderBook.loop fuel b acc = Some r ->
    forall fuel', fuel <= fuel' -> OrderBook.loop fuel' b acc = Some r.
Proof.
  induction fuel as [|fuel IH]; intros b acc r H fuel' Hle; [discriminate|].
  destruct fuel' as [|fuel']; [lia|]. cbn [OrderBook.loop] in *.
  destruct (OrderBook.body b); auto; apply IH with (fuel' := fuel') in H;
    auto; lia.
Qed.

End BookFacts.

Lemma exact_cancelling : cancelling (A := exact).
Proof. intros x. cbn. apply Qeq_bool_iff. ring. Qed.

(** With exact arithmetic [matchOrders] returns on every book, within as
    many iterations as the book has resting orders and price levels: each
    iteration erases an empty level or the front order that gave the
    minimum. *)
Lemma matching_terminates_in_exact_arithmetic (b : OrderBook.t Q) :
  (exists trades b',
      OrderBook.matchOrders (S (work b)) b = Some (trades, b')) /\
  iterations (S (work b)) b <= work b.
Proof.
  apply (loop_terminates exact_cancelling b [] (Nat.le_refl _)).
Qed.

(** ** Books reached through the interface *)

Section ReachableFacts.
Context {D : Type} {A : Arith D}.

Lemma addOrder_shape (side : OrderSide) (price quantity : D)
    (b : OrderBook.t D) :
  (dle price d0 || dle quantity d0 = true /\
   exists what,
     OrderBook.addOrder side price quantity b
     = (Throw (invalid_argument what), b)) \/
  (dle price d0 || dle quantity d0 = false /\
   let id := order_id (OrderBook.next_order_id_ b) in
   let order := Order.mk id side price quantity in
   OrderBook.addOrder side price quantity b
   = (Ok id,
      match side with
      | BUY =>
          OrderBook.mk
            (OrderBook.push_at OrderBook.greater price order
               (OrderBook.bids_ b))
            (OrderBook.asks_ b) (wrap (OrderBook.next_order_id_ b + 1))
      | SELL =>
          OrderBook.mk (OrderBook.bids_ b)
            (OrderBook.push_at OrderBook.less price order (OrderBook.asks_ b))
            (wrap (OrderBook.next_order_id_ b + 1))
      end)).
Proof.
  unfold OrderBook.addOrder.
  destruct (dle price d0 || dle quantity d0).
  - left. split; [reflexivity|]. eexists; reflexivity.
  - right. split; [reflexivity|]. destruct side; reflexivity.
Qed.

Lemma cleaned_inv (b b' : OrderBook.t D) :
  OrderBook.body b = OrderBook.Cleaned b' ->
  exists kb bos rb ka aos ra,
    OrderBook.bids_ b = (kb, bos) :: rb /\
    OrderBook.asks_ b = (ka, aos) :: ra /\
    (bos = [] \/ aos = []) /\
    OrderBook.bids_ b'
    = match bos with [] => rb | _ :: _ => OrderBook.bids_ b end /\
    OrderBook.asks_ b'
    = match aos with [] => ra | _ :: _ => OrderBook.asks_ b end /\
    OrderBook.next_order_id_ b' = OrderBook.next_order_id_ b.
Proof.
  unfold OrderBook.body. intros H.
  destruct (OrderBook.bids_ b) as [|[kb bos] rb] eqn:Hb; [discriminate|].
  destruct (OrderBook.asks_ b) as [|[ka aos] ra] eqn:Ha; [discriminate|].
  destruct (dlt kb ka); [discriminate|].
  exists kb, bos, rb, ka, aos, ra.
  destruct bos as [|ob tb], aos as [|oa ta]; inversion H; subst; cbn;
    repeat split; auto.
Qed.

Lemma reachable_no_empty_level (b : OrderBook.t D) :
  reachable b -> no_empty_level b.
Proof.
  induction 1 as [|b side price quantity Hb IH|b b' Hb IH Hstep
                  |b trade b' Hb IH Hstep|b Hb IH]; unfold no_empty_level in *.
  - cbn. tauto.
  - destruct (addOrder_shape side price quantity b)
      as [(_ & what & ->)|(_ & ->)]; [exact IH|].
    cbn [snd]. intros l. destruct side; cbn; intros [H|H]; auto;
      apply In_push_at_level in H as [H|H]; auto.
  - apply cleaned_inv in Hstep
      as (kb & bos & rb & ka & aos & ra & Eb & Ea & _ & -> & -> & _).
    intros l Hl. apply IH. rewrite Eb, Ea.
    destruct bos, aos; rewrite ?Eb, ?Ea in Hl; cbn in *; tauto.
  - apply matched_inv in Hstep
      as (kb & ob & tb & rb & ka & oa & ta & ra & Eb & Ea & _ & _ & ->).
    cbn. intros l [H|H]; apply fill_front_levels in H as [H|H]; auto;
      apply IH; rewrite Eb, Ea; cbn; tauto.
  - cbn. tauto.
Qed.

(** The cleanup branch needs an empty level in front. *)
Lemma reachable_never_cleans (b b' : OrderBook.t D) :
  reachable b -> OrderBook.body b <> OrderBook.Cleaned b'.
Proof.
  intros Hb Hstep. apply reachable_no_empty_level in Hb.
  apply cleaned_inv in Hstep
    as (kb & bos & rb & ka & aos & ra & Eb & Ea & [->| ->] & _).
  - apply (Hb (kb, [])); [|reflexivity]. rewrite Eb. cbn. tauto.
  - apply (Hb (ka, [])); [|reflexivity]. rewrite Ea. cbn. tauto.
Qed.

Lemma loop_reachable (fuel : nat) :
  forall (b : OrderBook.t D) acc r,
    reachable b -> OrderBook.loop fuel b acc = Some r -> reachable (snd r).
Proof.
  induction fuel as [|fuel IH]; intros b acc r Hb H; [discriminate|].
  rewrite loop_S in H. destruct (OrderBook.body b) as [|b1|trade b1] eqn:Hbody.
  - inversion H; subst. exact Hb.
  - eapply IH; [|exact H]. eapply reachable_cleaned; eauto.
  - eapply IH; [|exact H]. eapply reachable_matched; eauto.
Qed.

Lemma run_reachable (fuel : nat) (calls : list (Session.call D)) :
  forall (b : OrderBook.t D) log b',
    reachable b -> Session.run fuel calls b = Some (log, b') -> reachable b'.
Proof.
  induction calls as [|c calls IH]; intros b log b' Hb Hrun.
  - inversion Hrun; subst. exact Hb.
  - destruct c as [side price quantity| |]; cbn [Session.run] in Hrun.
    + pose proof (reachable_addOrder side price quantity Hb) as Hb1.
      destruct (OrderBook.addOrder side price quantity b) as [r b1].
      destruct (Session.run fuel calls b1) as [[log1 b2]|] eqn:Hrest;
        [|discriminate].
      inversion Hrun; subst. eapply IH; eauto.
    + destruct (OrderBook.matchOrders fuel b) as [[trades b1]|] eqn:Hm;
        [|discriminate].
      destruct (Session.run fuel calls b1) as [[log1 b2]|] eqn:Hrest;
        [|discriminate].
      inversion Hrun; subst. eapply IH; [|exact Hrest].
      apply (loop_reachable _ _ Hb Hm).
    + destruct (Session.run fuel calls (OrderBook.reset b))
        as [[log1 b2]|] eqn:Hrest; [|discriminate].
      inversion Hrun; subst. eapply IH; [|exact Hrest].
      apply reachable_reset. exact Hb.
Qed.

End ReachableFacts.

(** ** Price of a trade *)

Section Filing.
Context {D : Type} {A : Arith D}.

Lemma push_at_filed (comp : D -> D -> bool) (p : D) (o : Order.t D)
    (m : OrderBook.price_map D) :
  (forall x y, comp x y = false -> comp y x = false -> same_key x y) ->
  Order.price o = p -> filed m -> filed (OrderBook.push_at comp p o m).
Proof.
  intros Hcomp Hp. induction m as [|[k os] m IH]; intros Hm key orders x;
    cbn [OrderBook.push_at].
  - intros [H|[]] Hx. inversion H; subst. destruct Hx as [<-|[]]. now left.
  - assert (Htail : filed m)
      by (intros k' os' o' H1 H2; apply (Hm k' os' o'); [right|]; assumption).
    destruct (comp k p) eqn:Hkp; [|destruct (comp p k) eqn:Hpk].
    + intros [H|H] Hx.
      * inversion H; subst. apply (Hm key orders x); [left; reflexivity|].
        exact Hx.
      * apply (IH Htail key orders x H Hx).
    + intros [H|H] Hx.
      * inversion H; subst. destruct Hx as [<-|[]]. now left.
      * apply (Hm key orders x H Hx).
    + intros [H|H] Hx.
      * inversion H; subst. apply in_app_or in Hx as [Hx|[<-|[]]].
        -- apply (Hm key os x); [left; reflexivity | exact Hx].
        -- right. apply Hcomp; assumption.
      * apply (Hm key orders x); [right|]; assumption.
Qed.

Lemma fill_front_filed (k : D) (f : Order.t D) (tl : list (Order.t D))
    (rest : OrderBook.price_map D) (tq : D) :
  filed ((k, f :: tl) :: rest) ->
  filed (OrderBook.fill_front k f tl rest tq).
Proof.
  intros Hm key orders x. unfold OrderBook.fill_front.
  assert (Hrest : In (key, orders) rest -> In x orders ->
                  Order.price x = key \/ same_key key (Order.price x))
    by (intros H1 H2; apply (Hm key orders x); [right|]; assumption).
  assert (Htl : In x tl ->
                Order.price x = k \/ same_key k (Order.price x))
    by (intros H; apply (Hm k (f :: tl) x);
        [left; reflexivity | right; exact H]).
  destruct (deq _ d0).
  - destruct tl as [|f1 tl1]; [exact Hrest|].
    intros [H|H] Hx; [|auto]. inversion H; subst. auto.
  - intros [H|H] Hx; [|auto]. inversion H; subst.
    destruct Hx as [<-|Hx]; [|auto].
    apply (Hm key (f :: tl) f); left; reflexivity.
Qed.

Lemma less_same_key (x y : D) :
  OrderBook.less x y = false -> OrderBook.less y x = false -> same_key x y.
Proof. unfold OrderBook.less, same_key. auto. Qed.

Lemma greater_same_key (x y : D) :
  OrderBook.greater x y = false -> OrderBook.greater y x = false ->
  same_key x y.
Proof. unfold OrderBook.greater, same_key. auto. Qed.

Lemma reachable_filed (b : OrderBook.t D) :
  reachable b -> filed (OrderBook.bids_ b) /\ filed (OrderBook.asks_ b).
Proof.
  induction 1 as [|b side price quantity Hb [IHb IHa]|b b' Hb [IHb IHa] Hstep
                  |b trade b' Hb [IHb IHa] Hstep|b Hb IH].
  - split; intros k os o [].
  - destruct (addOrder_shape side price quantity b)
      as [(_ & what & ->)|(_ & ->)]; [split; assumption|].
    cbn [snd]. destruct side; cbn [OrderBook.bids_ OrderBook.asks_];
      (split; [|assumption]) || (split; [assumption|]).
    + apply push_at_filed; auto using greater_same_key.
    + apply push_at_filed; auto using less_same_key.
  - apply cleaned_inv in Hstep
      as (kb & bos & rb & ka & aos & ra & Eb & Ea & _ & -> & -> & _).
    rewrite Eb in IHb. rewrite Ea in IHa.
    split.
    + destruct bos; [|rewrite Eb; exact IHb].
      intros k os o H1 H2. apply (IHb k os o); [right|]; assumption.
    + destruct aos; [|rewrite Ea; exact IHa].
      intros k os o H1 H2. apply (IHa k os o); [right|]; assumption.
  - apply matched_inv in Hstep
      as (kb & ob & tb & rb & ka & oa & ta & ra & Eb & Ea & _ & _ & ->).
    rewrite Eb in IHb. rewrite Ea in IHa. cbn [OrderBook.bids_ OrderBook.asks_].
    split; apply fill_front_filed; assumption.
  - split; intros k os o [].
Qed.

End Filing.

(** What holds of the price of a trade in any arithmetic.  On every book, a
    trade recorded by [matchOrders] carries the key of the first ask level
    of the book it was recorded on (what [getBestAsk] reports there), and
    its seller is the front order of that level.  The bid side has no say:
    two books with the same asks record the same price.  The same holds of
    every trade a call of [matchOrders] returns.  On a book reached through
    the interface that key is the price the selling order was submitted
    with, or a price the map does not tell apart from it, which says
    nothing when one of the two is NaN. *)
Theorem trade_executes_at_best_ask (D : Type) (A : Arith D)
    (b : OrderBook.t D) :
  (forall trade b',
     OrderBook.body b = OrderBook.Matched trade b' ->
     exists ka oa ta ra,
       OrderBook.asks_ b = (ka, oa :: ta) :: ra /\
       Trade.price trade = ka /\
       Trade.price trade = OrderBook.getBestAsk b /\
       Trade.sell_order_id trade = Order.id oa /\
       (reachable b ->
        Order.price oa = Trade.price trade \/
        same_key (Trade.price trade) (Order.price oa))) /\
  (forall trade b' c trade_c c',
     OrderBook.body b = OrderBook.Matched trade b' ->
     OrderBook.body c = OrderBook.Matched trade_c c' ->
     OrderBook.asks_ c = OrderBook.asks_ b ->
     Trade.price trade_c = Trade.price trade) /\
  (forall fuel trades b',
     OrderBook.matchOrders fuel b = Some (trades, b') ->
     Forall (fun trade =>
               exists bi bi',
                 inside b bi /\
                 OrderBook.body bi = OrderBook.Matched trade bi' /\
                 Trade.price trade = OrderBook.getBestAsk bi) trades).
Proof.
  assert (Hstep : forall (x : OrderBook.t D) trade x',
             OrderBook.body x = OrderBook.Matched trade x' ->
             exists ka oa ta ra,
               OrderBook.asks_ x = (ka, oa :: ta) :: ra /\
               Trade.price trade = ka /\
               Trade.price trade = OrderBook.getBestAsk x /\
               Trade.sell_order_id trade = Order.id oa).
  { intros x trade x' H.
    apply matched_inv in H
      as (kb & ob & tb & rb & ka & oa & ta & ra & Hb & Ha & _ & -> & _).
    exists ka, oa, ta, ra. unfold OrderBook.getBestAsk. rewrite Ha.
    repeat split; reflexivity. }
  split; [|split].
  - intros trade b' Hbody.
    destruct (Hstep _ _ _ Hbody) as (ka & oa & ta & ra & Ha & Hp & Hbest & Hid).
    exists ka, oa, ta, ra. repeat split; auto.
    intros Hreach. rewrite Hp.
    apply (proj2 (reachable_filed Hreach) ka (oa :: ta) oa).
    + rewrite Ha. left. reflexivity.
    + left. reflexivity.
  - intros trade b' c trade_c c' Hb Hc Hasks.
    apply Hstep in Hb as (ka & oa & ta & ra & Ha & -> & _).
    apply Hstep in Hc as (ka' & oa' & ta' & ra' & Ha' & -> & _).
    congruence.
  - intros fuel trades b' Hrun.
    apply loop_returns in Hrun as (new & -> & Hrec & _).
    cbn. eapply Forall_impl; [|exact Hrec].
    intros trade (bi & bi' & Hin & Hbody). exists bi, bi'.
    repeat split; auto.
    apply Hstep in Hbody as (? & ? & ? & ? & _ & _ & ? & _). assumption.
Qed.

(** ** Conservation of quantity, in exact arithmetic *)

Lemma total_app (l1 l2 : list Q) :
  (total (l1 ++ l2) == total l1 + total l2)%Q.
Proof.
  induction l1 as [|x l1 IH].
  - cbn [app]. unfold total at 2. cbn [fold_right]. lra.
  - cbn [app]. unfold total at 1 2. cbn [fold_right].
    fold (total (l1 ++ l2)) (total l1).
    rewrite IH. lra.
Qed.

Lemma sum_list_total (l : list Q) : (sum_list l == total l)%Q.
Proof.
  induction l as [|x l IH]; [reflexivity|].
  unfold sum_list in *. cbn [fold_left total fold_right dadd d0 exact] in *.
  rewrite fold_left_Qplus_shift, IH. unfold total. lra.
Qed.

Lemma held_app (i : string) (l1 l2 : list (Order.t Q)) :
  (held i (l1 ++ l2) == held i l1 + held i l2)%Q.
Proof. unfold held. rewrite map_app. apply total_app. Qed.

Lemma volume_app (i : string) (l1 l2 : list (Trade.t Q)) :
  (volume i (l1 ++ l2) == volume i l1 + volume i l2)%Q.
Proof. unfold volume. rewrite map_app. apply total_app. Qed.

Lemma resting_in_cons (D : Type) (k : D) (os : list (Order.t D))
    (m : OrderBook.price_map D) :
  resting_in ((k, os) :: m) = os ++ resting_in m.
Proof. reflexivity. Qed.

Lemma held_cons (i : string) (o : Order.t Q) (os : list (Order.t Q)) :
  held i (o :: os) = (own i o + held i os)%Q.
Proof. reflexivity. Qed.

Lemma held_nil (i : string) : held i [] = 0%Q.
Proof. reflexivity. Qed.

Lemma held_push_at (i : string) (comp : Q -> Q -> bool) (p : Q)
    (o : Order.t Q) (m : OrderBook.price_map Q) :
  (held i (resting_in (OrderBook.push_at comp p o m))
   == held i (resting_in m) + own i o)%Q.
Proof.
  induction m as [|[k os] m IH]; cbn [OrderBook.push_at].
  - rewrite resting_in_cons. cbn [app resting_in flat_map].
    rewrite held_cons, held_nil. lra.
  - destruct (comp k p).
    + rewrite !resting_in_cons, !held_app, IH. lra.
    + destruct (comp p k).
      * rewrite !resting_in_cons, !held_app, held_cons, held_nil. lra.
      * rewrite !resting_in_cons, !held_app, held_cons, held_nil. lra.
Qed.

Lemma own_with_quantity (i : string) (f : Order.t Q) (q : Q) :
  own i (OrderBook.with_quantity f q)
  = if String.eqb (Order.id f) i then q else 0%Q.
Proof. reflexivity. Qed.

Lemma held_fill_front (i : string) (k : Q) (f : Order.t Q)
    (tl : list (Order.t Q)) (rest : OrderBook.price_map Q) (tq : Q) :
  (held i (resting_in (OrderBook.fill_front k f tl rest tq))
   + (if String.eqb (Order.id f) i then tq else 0)
   == held i (resting_in ((k, f :: tl) :: rest)))%Q.
Proof.
  unfold OrderBook.fill_front. cbn [dsub deq d0 exact].
  rewrite (resting_in_cons k (f :: tl) rest), held_app, held_cons.
  unfold own.
  destruct (Qeq_bool (Order.quantity f - tq) 0) eqn:Hz.
  - apply Qeq_bool_iff in Hz.
    destruct tl as [|f1 tl].
    + rewrite held_nil. destruct (String.eqb (Order.id f) i); lra.
    + rewrite resting_in_cons, held_app.
      destruct (String.eqb (Order.id f) i); lra.
  - rewrite resting_in_cons, held_app, held_cons, own_with_quantity.
    destruct (String.eqb (Order.id f) i); lra.
Qed.

Lemma volume_cons (i : string) (t : Trade.t Q) (ts : list (Trade.t Q)) :
  volume i (t :: ts) = (part i t + volume i ts)%Q.
Proof. reflexivity. Qed.

Lemma matched_held (i : string) (b b' : OrderBook.t Q) (trade : Trade.t Q) :
  OrderBook.body b = OrderBook.Matched trade b' ->
  (held i (resting b) == part i trade + held i (resting b'))%Q.
Proof.
  intros H. apply matched_inv in H
    as (kb & ob & tb & rb & ka & oa & ta & ra & Eb & Ea & _ & -> & ->).
  unfold resting. rewrite Eb, Ea. cbn [OrderBook.bids_ OrderBook.asks_].
  rewrite !held_app.
  cbn [Trade.quantity].
  set (tq := std_min (Order.quantity ob) (Order.quantity oa)).
  rewrite <- (held_fill_front i kb ob tb rb tq).
  rewrite <- (held_fill_front i ka oa ta ra tq).
  unfold part. cbn [Trade.buy_order_id Trade.sell_order_id Trade.quantity].
  fold tq. lra.
Qed.

Lemma cleaned_held (i : string) (b b' : OrderBook.t Q) :
  OrderBook.body b = OrderBook.Cleaned b' ->
  (held i (resting b') == held i (resting b))%Q.
Proof.
  intros H. apply cleaned_inv in H
    as (kb & bos & rb & ka & aos & ra & Eb & Ea & _ & Eb' & Ea' & _).
  unfold resting. rewrite Eb', Ea', !held_app.
  destruct bos, aos; rewrite ?Eb, ?Ea, ?resting_in_cons, ?held_app, ?held_nil;
    lra.
Qed.

Lemma loop_held (fuel : nat) :
  forall (b : OrderBook.t Q) acc trades b',
    OrderBook.loop fuel b acc = Some (trades, b') ->
    exists new,
      trades = acc ++ new /\
      forall i, (held i (resting b) == volume i new + held i (resting b'))%Q.
Proof.
  induction fuel as [|fuel IH]; intros b acc trades b' H; [discriminate|].
  rewrite loop_S in H.
  destruct (OrderBook.body b) as [|b1|trade b1] eqn:Hbody.
  - inversion H; subst. exists []. rewrite app_nil_r. split; [reflexivity|].
    intros i. unfold volume, total. cbn [map fold_right]. lra.
  - apply IH in H as (new & -> & Hnew). exists new. split; [reflexivity|].
    intros i. rewrite <- Hnew. symmetry. apply cleaned_held. exact Hbody.
  - apply IH in H as (new & -> & Hnew). exists (trade :: new).
    rewrite <- app_assoc. split; [reflexivity|].
    intros i.
    rewrite volume_cons, (@matched_held i b b1 trade Hbody), Hnew. lra.
Qed.

Lemma submitted_cons (i : string) (e : Session.event Q)
    (log : list (Session.event Q)) :
  submitted i (e :: log)
  = (match e with
     | Session.Accepted _ _ q i' => if String.eqb i' i then q else 0
     | _ => 0
     end + submitted i log)%Q.
Proof. reflexivity. Qed.

Lemma run_held (calls : list (Session.call Q)) :
  forall fuel (b : OrderBook.t Q) log b',
    Session.one_lifetime calls ->
    Session.run fuel calls b = Some (log, b') ->
    forall i,
      (held i (resting b) + submitted i log
       == volume i (Session.reported log) + held i (resting b'))%Q.
Proof.
  induction calls as [|c calls IH]; intros fuel b log b' Hlife Hrun i.
  - inversion Hrun; subst. unfold submitted, volume, total; cbn. lra.
  - unfold Session.one_lifetime in Hlife. cbn [forallb] in Hlife.
    apply andb_true_iff in Hlife as [Hc Hlife].
    destruct c as [side price quantity| |]; [| |discriminate];
      cbn [Session.run] in Hrun.
    + destruct (addOrder_shape side price quantity b)
        as [(_ & what & Hadd)|(_ & Hadd)]; rewrite Hadd in Hrun;
        destruct (Session.run fuel calls _) as [[log1 b2]|] eqn:Hrest;
        try discriminate; inversion Hrun; subst; clear Hrun;
        specialize (IH _ _ _ _ Hlife Hrest i);
        rewrite submitted_cons; cbn [Session.reported].
      * lra.
      * rewrite <- IH.
        assert (held i (resting
                  match side with
                  | BUY =>
                      OrderBook.mk
                        (OrderBook.push_at OrderBook.greater price
                           (Order.mk (order_id (OrderBook.next_order_id_ b))
                              side price quantity) (OrderBook.bids_ b))
                        (OrderBook.asks_ b)
                        (wrap (OrderBook.next_order_id_ b + 1))
                  | SELL =>
                      OrderBook.mk (OrderBook.bids_ b)
                        (OrderBook.push_at OrderBook.less price
                           (Order.mk (order_id (OrderBook.next_order_id_ b))
                              side price quantity) (OrderBook.asks_ b))
                        (wrap (OrderBook.next_order_id_ b + 1))
                  end)
                == held i (resting b)
                   + (if String.eqb (order_id (OrderBook.next_order_id_ b)) i
                      then quantity else 0))%Q as ->.
        { unfold resting.
          destruct side; cbn [OrderBook.bids_ OrderBook.asks_];
            rewrite !held_app, held_push_at; unfold own;
            cbn [Order.id Order.quantity]; lra. }
        lra.
    + destruct (OrderBook.matchOrders fuel b) as [[trades b1]|] eqn:Hm;
        [|discriminate].
      destruct (Session.run fuel calls b1) as [[log1 b2]|] eqn:Hrest;
        [|discriminate].
      inversion Hrun; subst; clear Hrun.
      specialize (IH _ _ _ _ Hlife Hrest i).
      apply loop_held in Hm as (new & Hnew & Hheld).
      cbn [app] in Hnew. subst new.
      rewrite submitted_cons. cbn [Session.reported].
      rewrite volume_app, (Hheld i). lra.
Qed.

Lemma In_resting_fill_front (D : Type) (A : Arith D) (k : D) (f : Order.t D)
    (tl : list (Order.t D)) (rest : OrderBook.price_map D) (tq : D)
    (x : Order.t D) :
  In x (resting_in (OrderBook.fill_front k f tl rest tq)) ->
  (x = OrderBook.with_quantity f (dsub (Order.quantity f) tq) /\
   deq (dsub (Order.quantity f) tq) d0 = false) \/
  In x tl \/ In x (resting_in rest).
Proof.
  unfold OrderBook.fill_front.
  destruct (deq (dsub (Order.quantity f) tq) d0).
  - destruct tl as [|f1 tl]; [tauto|].
    rewrite resting_in_cons, in_app_iff. tauto.
  - rewrite resting_in_cons, in_app_iff. cbn [In]. intuition auto.
Qed.

Lemma std_min_exact (a b : Q) :
  (0 < a)%Q -> (0 < b)%Q ->
  (0 < std_min a b /\ std_min a b <= a /\ std_min a b <= b)%Q.
Proof.
  intros Ha Hb. unfold std_min. cbn [dlt exact].
  destruct (Qle_bool a b) eqn:Hle; cbn [negb].
  - apply Qle_bool_iff in Hle. lra.
  - assert (~ (a <= b)%Q) by (rewrite <- Qle_bool_iff; congruence). lra.
Qed.

Lemma matched_positive (b b' : OrderBook.t Q) (trade : Trade.t Q) :
  all_positive b -> OrderBook.body b = OrderBook.Matched trade b' ->
  all_positive b' /\ (0 < Trade.quantity trade)%Q.
Proof.
  intros Hpos H. apply matched_inv in H
    as (kb & ob & tb & rb & ka & oa & ta & ra & Eb & Ea & _ & -> & ->).
  cbn [Trade.quantity].
  assert (Hob : (0 < Order.quantity ob)%Q).
  { apply Hpos. unfold resting. rewrite Eb, resting_in_cons.
    apply in_or_app; left. cbn; auto. }
  assert (Hoa : (0 < Order.quantity oa)%Q).
  { apply Hpos. unfold resting. rewrite Ea, resting_in_cons.
    apply in_or_app; right. cbn; auto. }
  destruct (std_min_exact Hob Hoa) as (Hmin & Hmina & Hminb).
  split; [|exact Hmin].
  assert (Hfront : forall (f : Order.t Q) (tq : Q),
             (tq <= Order.quantity f)%Q ->
             deq (dsub (Order.quantity f) tq) d0 = false ->
             (0 < Order.quantity
                    (OrderBook.with_quantity f
                       (dsub (Order.quantity f) tq)))%Q).
  { intros f tq Hle Hnz. cbn in *.
    assert (~ (Order.quantity f - tq == 0)%Q)
      by (rewrite <- Qeq_bool_iff; congruence).
    lra. }
  intros x Hx. unfold resting in Hx.
  cbn [OrderBook.bids_ OrderBook.asks_] in Hx.
  apply in_app_or in Hx as [Hx|Hx];
    apply In_resting_fill_front in Hx as [[-> Hnz]|[Hx|Hx]];
    try (apply Hfront; assumption);
    apply Hpos; unfold resting; rewrite Eb, Ea, !resting_in_cons;
    rewrite !in_app_iff; cbn [In]; tauto.
Qed.

Lemma reachable_positive (b : OrderBook.t Q) : reachable b -> all_positive b.
Proof.
  induction 1 as [|b side price quantity Hb IH|b b' Hb IH Hstep
                  |b trade b' Hb IH Hstep|b Hb IH]; unfold all_positive in *.
  - cbn. tauto.
  - destruct (addOrder_shape side price quantity b)
      as [(_ & what & ->)|(Hok & ->)]; [exact IH|].
    apply orb_false_iff in Hok as [_ Hq]. cbn [dle d0 exact] in Hq.
    assert (Hpos : (0 < quantity)%Q).
    { assert (~ (quantity <= 0)%Q) by (rewrite <- Qle_bool_iff; congruence).
      lra. }
    cbn [snd]. intros o Ho.
    assert (Hcases : o = Order.mk (order_id (OrderBook.next_order_id_ b))
                           side price quantity \/ In o (resting b)).
    { unfold resting in *.
      destruct side; cbn [OrderBook.bids_ OrderBook.asks_] in Ho;
        rewrite in_app_iff, In_resting_push_at in Ho;
        rewrite in_app_iff; tauto. }
    destruct Hcases as [->|Hin]; [exact Hpos | apply IH; exact Hin].
  - apply cleaned_inv in Hstep
      as (kb & bos & rb & ka & aos & ra & Eb & Ea & _ & Eb' & Ea' & _).
    intros o Ho. apply IH. unfold resting in *. rewrite Eb', Ea' in Ho.
    rewrite in_app_iff in *.
    destruct bos, aos; rewrite ?Eb, ?Ea in *; rewrite ?resting_in_cons in *;
      rewrite ?in_app_iff in *; cbn [In] in *; tauto.
  - apply (matched_positive IH Hstep).
  - cbn. tauto.
Qed.

Lemma inside_reachable (D : Type) (A : Arith D) (b bi : OrderBook.t D) :
  reachable b -> inside b bi -> reachable bi.
Proof.
  intros Hb Hin. induction Hin.
  - exact Hb.
  - eapply reachable_cleaned; eauto.
  - eapply reachable_matched; eauto.
Qed.

Lemma loop_trades_positive (fuel : nat) (b b' : OrderBook.t Q) trades :
  reachable b ->
  OrderBook.matchOrders fuel b = Some (trades, b') ->
  Forall (fun t => 0 < Trade.quantity t)%Q trades.
Proof.
  intros Hb Hrun. apply loop_returns in Hrun as (new & -> & Hrec & _).
  cbn [app]. eapply Forall_impl; [|exact Hrec].
  intros t (bi & bi' & Hin & Hbody).
  eapply matched_positive; [|exact Hbody].
  apply reachable_positive. eapply inside_reachable; eauto.
Qed.

Lemma run_trades_positive (calls : list (Session.call Q)) :
  forall fuel (b : OrderBook.t Q) log b',
    reachable b ->
    Session.run fuel calls b = Some (log, b') ->
    Forall (fun t => 0 < Trade.quantity t)%Q (Session.reported log).
Proof.
  induction calls as [|c calls IH]; intros fuel b log b' Hb Hrun.
  - inversion Hrun; subst. constructor.
  - destruct c as [side price quantity| |]; cbn [Session.run] in Hrun.
    + pose proof (reachable_addOrder side price quantity Hb) as Hb1.
      destruct (OrderBook.addOrder side price quantity b) as [r b1].
      destruct (Session.run fuel calls b1) as [[log1 b2]|] eqn:Hrest;
        [|discriminate].
      inversion Hrun; subst. cbn [Session.reported].
      destruct r; eapply IH; eauto.
    + destruct (OrderBook.matchOrders fuel b) as [[trades b1]|] eqn:Hm;
        [|discriminate].
      destruct (Session.run fuel calls b1) as [[log1 b2]|] eqn:Hrest;
        [|discriminate].
      inversion Hrun; subst. cbn [Session.reported].
      apply Forall_app. split.
      * eapply loop_trades_positive; eauto.
      * eapply IH; [|exact Hrest]. apply (loop_reachable _ _ Hb Hm).
    + destruct (Session.run fuel calls (OrderBook.reset b))
        as [[log1 b2]|] eqn:Hrest; [|discriminate].
      inversion Hrun; subst. cbn [Session.reported].
      eapply IH; [|exact Hrest]. apply reachable_reset. exact Hb.
Qed.

Lemma filled_le_volume (i : string) (trades : list (Trade.t Q)) :
  Forall (fun t => 0 < Trade.quantity t)%Q trades ->
  (filled i trades <= volume i trades)%Q.
Proof.
  intros Hpos. unfold filled. rewrite sum_list_total.
  induction Hpos as [|t ts Ht Hts IH].
  - cbn [filter map]. unfold volume, total; cbn [map fold_right]. lra.
  - rewrite volume_cons. cbn [filter].
    unfold takes_part at 1, part.
    destruct (String.eqb (Trade.buy_order_id t) i),
             (String.eqb (Trade.sell_order_id t) i); cbn [orb map];
      unfold total in *; cbn [fold_right]; lra.
Qed.

Lemma submitted_unknown (i : string) (log : list (Session.event Q)) :
  ~ In i (Session.issued log) -> (submitted i log == 0)%Q.
Proof.
  induction log as [|e log IH]; intros Hnot.
  - reflexivity.
  - rewrite submitted_cons. destruct e as [s p q i'| | |];
      cbn [Session.issued] in Hnot; try (rewrite IH by exact Hnot; lra).
    destruct (String.eqb_spec i' i) as [->|Hne].
    + exfalso. apply Hnot. cbn; auto.
    + rewrite IH; [lra|]. intros H. apply Hnot. cbn; auto.
Qed.

Lemma submitted_once (i : string) (log : list (Session.event Q))
    (side : OrderSide) (p q : Q) :
  NoDup (Session.issued log) ->
  In (Session.Accepted side p q i) log ->
  (submitted i log == q)%Q.
Proof.
  induction log as [|e log IH]; intros Hnd Hin; [destruct Hin|].
  rewrite submitted_cons. destruct Hin as [->|Hin].
  - cbn [Session.issued] in Hnd. inversion Hnd; subst.
    rewrite String.eqb_refl, submitted_unknown by assumption. lra.
  - destruct e as [s' p' q' i'| | |]; cbn [Session.issued] in Hnd;
      try (rewrite IH by assumption; lra).
    inversion Hnd; subst.
    assert (In i (Session.issued log)) as Hi.
    { clear - Hin. induction log as [|e log IH]; [destruct Hin|].
      destruct Hin as [->|Hin]; [cbn; auto|].
      destruct e; cbn; auto. }
    destruct (String.eqb_spec i' i) as [->|Hne]; [contradiction|].
    rewrite IH by assumption. lra.
Qed.

Lemma lifetime_ids_distinct (D : Type) (A : Arith D) (fuel : nat)
    (calls : list (Session.call D)) log (b' : OrderBook.t D) :
  Session.one_lifetime calls ->
  Session.run fuel calls OrderBook.init = Some (log, b') ->
  (N.of_nat (length (Session.issued log)) <= SIZE_MOD)%N ->
  NoDup (Session.issued log).
Proof.
  intros Hlife Hrun Hlen.
  pose proof (@run_issues D A fuel calls _ _ _ Hlife Hrun) as Hids.
  change (OrderBook.next_order_id_ OrderBook.init) with 1%N in Hids.
  rewrite Hids. apply ids_from_NoDup. exact Hlen.
Qed.

Lemma issued_length (D : Type) (A : Arith D) (calls : list (Session.call D)) :
  forall fuel (b : OrderBook.t D) log b',
    Session.run fuel calls b = Some (log, b') ->
    length (Session.issued log) <= length calls.
Proof.
  induction calls as [|c calls IH]; intros fuel b log b' Hrun.
  - inversion Hrun; subst. cbn. lia.
  - destruct c as [side price quantity| |]; cbn [Session.run] in Hrun.
    + destruct (OrderBook.addOrder side price quantity b) as [r b1].
      destruct (Session.run fuel calls b1) as [[log1 b2]|] eqn:Hrest;
        [|discriminate].
      inversion Hrun; subst. apply IH in Hrest.
      destruct r; cbn [Session.issued length]; lia.
    + destruct (OrderBook.matchOrders fuel b) as [[trades b1]|] eqn:Hm;
        [|discriminate].
      destruct (Session.run fuel calls b1) as [[log1 b2]|] eqn:Hrest;
        [|discriminate].
      inversion Hrun; subst. apply IH in Hrest.
      cbn [Session.issued length]; lia.
    + destruct (Session.run fuel calls (OrderBook.reset b))
        as [[log1 b2]|] eqn:Hrest; [|discriminate].
      inversion Hrun; subst. apply IH in Hrest.
      cbn [Session.issued length]; lia.
Qed.

(** With exact arithmetic every book reached through the interface holds
    only orders of strictly positive quantity, has no empty level, and
    never takes the cleanup branch of the matching loop. *)
Lemma reachable_books_in_exact_arithmetic (b : OrderBook.t Q) :
  reachable b ->
  all_positive b /\ no_empty_level b /\
  forall b', OrderBook.body b <> OrderBook.Cleaned b'.
Proof.
  intros Hb. split; [apply reachable_positive; exact Hb|].
  split; [apply reachable_no_empty_level; exact Hb|].
  intros b'. apply reachable_never_cleans. exact Hb.
Qed.

(** C7, as amended.  Take one lifetime of a book (calls of [addOrder] and
    [matchOrders] from the initial book, which is also the book [reset]
    leaves) of at most [2^64] calls, so that an id names one order.  With
    exact arithmetic on quantities (the engine over the rationals), the
    quantities of the trades an accepted order takes part in, over all
    [matchOrders] calls, do not add up to more than the quantity it was
    submitted with, and no order of quantity zero rests in the book.  In any
    arithmetic, binary64 included, a front order whose remaining quantity
    compares equal to zero after a fill is erased by that step, and its
    level with it when it was alone. *)
Theorem fills_stay_within_orders :
  (forall fuel (calls : list (Session.call Q)),
     Session.one_lifetime calls ->
     (N.of_nat (length calls) <= SIZE_MOD)%N ->
     fills_within_orders (A := exact) fuel calls /\
     forall log b',
       Session.run fuel calls OrderBook.init = Some (log, b') ->
       forall o, In o (resting b') -> deq (Order.quantity o) d0 = false) /\
  (forall (D : Type) (A : Arith D) (b b' : OrderBook.t D) trade,
     OrderBook.body b = OrderBook.Matched trade b' ->
     exists kb ob tb rb ka oa ta ra,
       OrderBook.bids_ b = (kb, ob :: tb) :: rb /\
       OrderBook.asks_ b = (ka, oa :: ta) :: ra /\
       (deq (dsub (Order.quantity ob) (Trade.quantity trade)) d0 = true ->
        OrderBook.bids_ b' = match tb with
                             | [] => rb
                             | _ :: _ => (kb, tb) :: rb
                             end) /\
       (deq (dsub (Order.quantity oa) (Trade.quantity trade)) d0 = true ->
        OrderBook.asks_ b' = match ta with
                             | [] => ra
                             | _ :: _ => (ka, ta) :: ra
                             end)).
Proof.
  split.
  - intros fuel calls Hlife Hlen. split.
    + intros log b' Hrun side price quantity id Hin.
      apply dlt_exact.
      assert (Hb' : reachable b')
        by (eapply run_reachable; [apply reachable_init | exact Hrun]).
      assert (Hnd : NoDup (Session.issued log)).
      { apply (@lifetime_ids_distinct Q exact fuel calls log b' Hlife Hrun).
        pose proof (@issued_length Q exact calls fuel _ _ _ Hrun). lia. }
      pose proof (@run_held calls fuel _ _ _ Hlife Hrun id) as Hheld.
      rewrite (@submitted_once id log side price quantity Hnd Hin) in Hheld.
      pose proof (@run_trades_positive calls fuel _ _ _ reachable_init Hrun)
        as Hpos.
      pose proof (@filled_le_volume id _ Hpos) as Hfill.
      assert (Hrest : (0 <= held id (resting b'))%Q).
      { pose proof (@reachable_positive b' Hb') as Hall.
        unfold all_positive in Hall. revert Hall.
        generalize (resting b') as os. clear.
        induction os as [|o os IH]; intros Hall.
        - rewrite held_nil. lra.
        - rewrite held_cons. unfold own.
          assert (0 < Order.quantity o)%Q by (apply Hall; left; reflexivity).
          assert (0 <= held id os)%Q
            by (apply IH; intros x Hx; apply Hall; right; exact Hx).
          destruct (String.eqb (Order.id o) id); lra. }
      change (held id (resting OrderBook.init)) with 0%Q in Hheld.
      lra.
    + intros log b' Hrun o Ho.
      assert (Hb' : reachable b')
        by (eapply run_reachable; [apply reachable_init | exact Hrun]).
      pose proof (@reachable_positive b' Hb' o Ho) as Hpos.
      cbn. destruct (Qeq_bool (Order.quantity o) 0) eqn:Hz; [|reflexivity].
      apply Qeq_bool_iff in Hz. lra.
  - intros D A b b' trade Hstep.
    apply matched_inv in Hstep
      as (kb & ob & tb & rb & ka & oa & ta & ra & Eb & Ea & _ & _ & ->).
    exists kb, ob, tb, rb, ka, oa, ta, ra.
    cbn [OrderBook.bids_ OrderBook.asks_]. unfold OrderBook.fill_front.
    repeat split; auto; intros ->; reflexivity.
Qed.

(** ** Time priority *)

Section Fifo.
Context {D : Type} {A : Arith D}.



Lemma push_at_queued (comp : D -> D -> bool) (p : D) (o : Order.t D)
    (m : OrderBook.price_map D) :
  (forall x y z, comp x y = true -> comp y z = true -> comp x z = true) ->
  sorted_by comp (keys m) ->
  queued comp p o m (OrderBook.push_at comp p o m).
Proof.
  intros Htrans. unfold sorted_by.
  induction m as [|[k os] m IH]; cbn [OrderBook.push_at]; intros Hm.
  - exists [], []. split; [constructor|]. right. repeat split. constructor.
  - cbn in Hm. inversion Hm as [|? ? Hrest Hall]; subst.
    destruct (comp k p) eqn:Hkp.
    + destruct (IH Hrest)
        as (pre & post & Hpre
            & [(key & orders & -> & -> & H1 & H2)|(-> & -> & Hpost)]).
      * exists ((k, os) :: pre), post. split; [constructor; auto|].
        left. exists key, orders. repeat split; auto.
      * exists ((k, os) :: pre), post. split; [constructor; auto|].
        right. repeat split; auto.
    + destruct (comp p k) eqn:Hpk.
      * exists [], ((k, os) :: m). split; [constructor|].
        right. repeat split. constructor; [exact Hpk|].
        rewrite Forall_forall in *. intros l Hl.
        apply Htrans with k; [exact Hpk|].
        apply Hall. apply in_map. exact Hl.
      * exists [], m. split; [constructor|].
        left. exists k, os. repeat split; auto.
Qed.






End Fifo.


(** ** The worked examples of the specification, in binary64 *)

(** Window 3 fed 100, 102, 98, 104: sizes 1, 2, 3, 3 and averages 100, 101,
    100, 304/3. *)
Example moving_average_example :
  map (fun xs => option_map (fun s0 =>
                   let s := snd (addPrices xs s0) in
                   (SMACalculator.size s, SMACalculator.getSMA s))
                 (match SMACalculator.new 3 with
                  | Ok s0 => Some s0
                  | Throw _ => None
                  end))
      [[100]; [100; 102]; [100; 102; 98]; [100; 102; 98; 104]]%float
  = [Some (1%N, 100); Some (2%N, 101); Some (3%N, 100);
     Some (3%N, 304 / 3)]%float.
Proof. vm_compute. reflexivity. Qed.

(** Asks (45000, 1) and (45050, 1), then a bid (45100, 2): two trades, at
    45000 and at 45050, and an empty book. *)
Example sweep_example :
  OrderBook.matchOrders 3 crossed_book
  = Some ([Trade.mk "ORD3" "ORD1" 45000 1;
           Trade.mk "ORD3" "ORD2" 45050 1]%float,
          OrderBook.mk [] [] 4).
Proof. vm_compute. reflexivity. Qed.

(** A bid (45000, 2) and an ask (45000, 1): one trade of 1 at 45000, a bid
    depth of (45000, 1) left, no asks. *)
Example partial_fill_example :
  exists b',
    OrderBook.matchOrders 2
      (place [(BUY, 45000, 2); (SELL, 45000, 1)]%float OrderBook.init)
    = Some ([Trade.mk "ORD1" "ORD2" 45000 1]%float, b') /\
    OrderBook.getBids b' = [(45000, 1)]%float /\
    OrderBook.getAsks b' = [].
Proof. eexists. repeat split; vm_compute; reflexivity. Qed.

(** ** The statements applied to worked sessions *)

(** C6 applied: a negative price fed to a calculator, and an order with a
    negative price. *)
Lemma invalid_arguments_are_rejected_witness :
  (exists what,
     SMACalculator.addPrice (-10)%float
       (SMACalculator.mk [0; 0; 0]%float 3 0 0 0%float)
     = (Throw (invalid_argument what),
        SMACalculator.mk [0; 0; 0]%float 3 0 0 0%float)) /\
  (exists what,
     OrderBook.addOrder BUY (-100)%float 1%float quiet_book
     = (Throw (invalid_argument what), quiet_book)).
Proof.
  destruct (invalid_arguments_are_rejected binary64) as (_ & Hprice & Horder).
  split.
  - apply Hprice. reflexivity.
  - apply Horder. left. reflexivity.
Defined.

(** Applied to [crossed_book]: the bid at 45100 against the ask at 45000
    trades at 45000. *)
Lemma trade_executes_at_best_ask_witness :
  exists trade b',
    OrderBook.body crossed_book = OrderBook.Matched trade b' /\
    Trade.price trade = OrderBook.getBestAsk crossed_book /\
    Trade.price trade = 45000%float.
Proof.
  eexists; eexists. split; [vm_compute; reflexivity|].
  split; [|reflexivity].
  destruct (proj1 (trade_executes_at_best_ask binary64 crossed_book) _ _
              eq_refl) as (ka & oa & ta & ra & _ & _ & Hprice & _).
  exact Hprice.
Defined.

(** C3 applied: with the best bid below the best ask nothing happens. *)
Lemma no_trade_below_the_ask_witness :
  OrderBook.matchOrders 1 quiet_book = Some ([], quiet_book).
Proof.
  apply (proj2 (proj2 (no_trade_below_the_ask binary64 quiet_book))).
  right; right. reflexivity.
Defined.

(** C10 applied: after the sweep the asks are empty. *)
Lemma book_not_crossed_on_return_witness :
  exists trades b',
    OrderBook.matchOrders 10 crossed_book = Some (trades, b') /\
    (OrderBook.bids_ b' = [] \/ OrderBook.asks_ b' = [] \/
     dlt (OrderBook.getBestBid b') (OrderBook.getBestAsk b') = true).
Proof.
  eexists; eexists. split; [vm_compute; reflexivity|].
  eapply (book_not_crossed_on_return binary64 10 crossed_book).
  vm_compute; reflexivity.
Defined.

(** C7 applied: a bid of 2 filled for 1. *)
Lemma fills_stay_within_orders_witness :
  fills_within_orders (A := exact) 10 partial_fill.
Proof.
  apply (proj1 fills_stay_within_orders 10 partial_fill).
  - reflexivity.
  - vm_compute. discriminate.
Defined.

(** ** binary64 *)

(** C7 as stated fails in binary64.  A bid of 1 meets four asks of [2^-54]
    and an ask of 1.  Each [1 - 2^-54] rounds back to 1, so the bid still
    has 1 to give after the four small fills, and its fills add up to
    [1 + 2^-52]. *)
Lemma fills_exceed_order_in_binary64 :
  Session.one_lifetime dust /\
  (N.of_nat (length dust) <= SIZE_MOD)%N /\
  ~ fills_within_orders (A := binary64) 10 dust.
Proof.
  split; [reflexivity|]. split; [vm_compute; discriminate|].
  intros Hclaim.
  assert (Hrun : exists log b',
             Session.run 10 dust OrderBook.init = Some (log, b') /\
             In (Session.Accepted BUY 1%float 1%float "ORD1"%string) log /\
             dlt 1%float (filled "ORD1"%string (Session.reported log)) = true).
  { eexists; eexists. split; [vm_compute; reflexivity|].
    split; [left; reflexivity | vm_compute; reflexivity]. }
  destruct Hrun as (log & b' & Hrun & Hin & Hover).
  rewrite (Hclaim log b' Hrun BUY 1%float 1%float "ORD1"%string Hin) in Hover.
  discriminate.
Qed.

Lemma loop_stuck (D : Type) (A : Arith D) (b : OrderBook.t D)
    (trade : Trade.t D) :
  OrderBook.body b = OrderBook.Matched trade b ->
  forall fuel acc,
    OrderBook.loop fuel b acc = None /\ iterations fuel b = fuel.
Proof.
  intros Hbody. induction fuel as [|fuel IH]; intros acc.
  - split; reflexivity.
  - rewrite loop_S, iterations_S, Hbody.
    destruct (IH (acc ++ [trade])) as [-> ->]. split; reflexivity.
Qed.

Lemma run_add_none (D : Type) (A : Arith D) (fuel : nat) (side : OrderSide)
    (price quantity : D) (rest : list (Session.call D)) (b : OrderBook.t D) :
  Session.run fuel rest (snd (OrderBook.addOrder side price quantity b))
  = None ->
  Session.run fuel (Session.AddOrder side price quantity :: rest) b = None.
Proof.
  cbn [Session.run]. destruct (OrderBook.addOrder side price quantity b).
  cbn [snd]. intros ->. reflexivity.
Qed.

Lemma run_match_none (D : Type) (A : Arith D) (fuel : nat)
    (rest : list (Session.call D)) (b : OrderBook.t D) :
  OrderBook.matchOrders fuel b = None ->
  Session.run fuel (Session.MatchOrders :: rest) b = None.
Proof. cbn [Session.run]. intros ->. reflexivity. Qed.

(** C8 at its failing input.  [addOrder(BUY, 1.0, NaN)] and
    [addOrder(SELL, 1.0, 1.0)] are both accepted ([NaN <= 0] is false).
    The book has two orders and two levels, yet [matchOrders] never
    returns on it: [std::min(NaN, 1.0)] is NaN, both quantities become NaN,
    [NaN == 0] is false, nothing is ever erased, and every iteration records
    one more trade. *)
Theorem matching_never_returns_on_nan_bid :
  Session.run 0 (firstn 2 nan_bid) OrderBook.init
  = Some ([Session.Accepted BUY 1 nan "ORD1";
           Session.Accepted SELL 1 1 "ORD2"]%float, nan_book) /\
  reachable nan_book /\
  work nan_book = 4 /\
  (forall fuel, OrderBook.matchOrders fuel nan_book = None) /\
  (forall fuel, iterations fuel nan_book = fuel) /\
  (forall fuel, Session.run fuel nan_bid OrderBook.init = None).
Proof.
  assert (Hstuck : forall fuel acc,
             OrderBook.loop fuel (after_step nan_book) acc = None /\
             iterations fuel (after_step nan_book) = fuel).
  { eapply loop_stuck. vm_compute. reflexivity. }
  assert (Hfirst : exists trade,
             OrderBook.body nan_book
             = OrderBook.Matched trade (after_step nan_book)).
  { eexists. vm_compute. reflexivity. }
  destruct Hfirst as (trade & Hfirst).
  assert (Hnone : forall fuel, OrderBook.matchOrders fuel nan_book = None).
  { intros [|fuel]; [reflexivity|]. unfold OrderBook.matchOrders.
    rewrite loop_S, Hfirst. exact (proj1 (Hstuck fuel _)). }
  split; [reflexivity|].
  split.
  { unfold nan_book, place. cbn [fold_left fst snd].
    apply reachable_addOrder, reachable_addOrder, reachable_init. }
  split; [reflexivity|].
  split; [exact Hnone|].
  split.
  - intros [|fuel]; [reflexivity|]. rewrite iterations_S, Hfirst.
    f_equal. exact (proj2 (Hstuck fuel [])).
  - intros fuel. unfold nan_bid.
    apply run_add_none, run_add_none, run_match_none. exact (Hnone fuel).
Qed.

(** C5 at its failing input.  [addOrder(BUY, 1.0, NaN)] is accepted, and
    the order then rests in the book with a quantity that is not above
    zero. *)
Theorem nan_quantity_rests_in_book :
  dle nan d0 = false /\
  fst (OrderBook.addOrder BUY 1%float nan OrderBook.init)
  = Ok "ORD1"%string /\
  reachable (snd (OrderBook.addOrder BUY 1%float nan OrderBook.init)) /\
  exists o,
    In o (resting (snd (OrderBook.addOrder BUY 1%float nan OrderBook.init))) /\
    Order.id o = "ORD1"%string /\
    dlt d0 (Order.quantity o) = false.
Proof.
  split; [reflexivity|]. split; [reflexivity|].
  split; [apply reachable_addOrder, reachable_init|].
  eexists. split; [left; reflexivity|]. split; reflexivity.
Qed.

(** * Further properties *)

(** ** The calculator under any sequence of calls *)

Section FeedFacts.
Context {D : Type} {A : Arith D}.
Import SMACalculator.

Lemma map_const_repeat (X Y : Type) (y : Y) (l : list X) :
  map (fun _ => y) l = repeat y (length l).
Proof. induction l as [|x l IH]; cbn; congruence. Qed.

Lemma run_app (calls more : list (Feed.call D)) (s : SMACalculator.t D) :
  Feed.run (calls ++ more) s = Feed.run more (Feed.run calls s).
Proof.
  revert s; induction calls as [|[x|] calls IH]; intros s; cbn; auto.
Qed.

(** No call changes the window size or the number of slots. *)
Lemma run_buffer (calls : list (Feed.call D)) :
  forall s : SMACalculator.t D,
    window_size_ (Feed.run calls s) = window_size_ s /\
    length (prices_ (Feed.run calls s)) = length (prices_ s).
Proof.
  induction calls as [|[x|] calls IH]; intros s; cbn [Feed.run]; auto.
  - destruct (IH (snd (addPrice x s))) as [-> ->].
    unfold addPrice. destruct (dlt x d0); cbn; auto.
    unfold vec_set. rewrite vec_set_nat_length. auto.
  - destruct (IH (reset s)) as [-> ->]. cbn. rewrite length_map. auto.
Qed.

Lemma reset_shaped (w : N) (s : SMACalculator.t D) :
  shaped w s -> shaped w (reset s) /\ window (reset s) = [].
Proof.
  intros [Hw Hlen Hc Hi Hf].
  assert (0 < w)%N by lia.
  split.
  - constructor; cbn; auto; try lia. rewrite length_map. exact Hlen.
  - unfold window. cbn. rewrite Hw.
    assert ((0 <? w)%N = true) as -> by (apply N.ltb_lt; lia).
    reflexivity.
Qed.

(** What any sequence of calls keeps: the shape of the calculator, the
    count, and the observations in the buffer. *)
Lemma run_tracked (w : N) :
  (0 < w < SIZE_MOD)%N ->
  forall (calls : list (Feed.call D)) (seen : list D) (s : SMACalculator.t D),
    shaped w s ->
    current_size_ s = N.min (N.of_nat (length seen)) w ->
    window s = lastn (N.to_nat (current_size_ s)) seen ->
    let s' := Feed.run calls s in
    let xs := Feed.kept calls seen in
    shaped w s' /\
    current_size_ s' = N.min (N.of_nat (length xs)) w /\
    window s' = lastn (N.to_nat (current_size_ s')) xs.
Proof.
  intros Hw. induction calls as [|[x|] calls IH]; intros seen s Hs Hc Hwin.
  - cbn. auto.
  - cbn [Feed.run Feed.kept]. destruct (dlt x d0) eqn:Hx.
    + unfold addPrice. rewrite Hx. cbn [snd]. apply IH; auto.
    + destruct (@addPrices_window D A (fun _ _ => True)
                  (fun _ _ _ _ => I) (fun _ _ _ _ _ => I) w Hw [x] seen s
                  Hs Hc Hwin I)
        as (s1 & Hrun & Hs1 & Hc1 & Hwin1 & _).
      { constructor; auto. }
      cbn [addPrices] in Hrun.
      destruct (addPrice x s) as [[[]|e] s2] eqn:Hadd; [|discriminate].
      injection Hrun as ->. cbn [snd]. apply IH; auto.
  - cbn [Feed.run Feed.kept].
    destruct (reset_shaped Hs) as [Hs1 Hwin1].
    apply IH.
    + exact Hs1.
    + cbn. lia.
    + rewrite Hwin1. reflexivity.
Qed.

End FeedFacts.

(** X1.  [reset] puts a calculator back in the state its constructor left
    it in, whatever calls came in between, accepted or refused: the buffer
    is all [0.0] again, and the count, the cursor and the running sum are
    zero.  So the calls made after a [reset] leave the calculator exactly
    where they leave a newly constructed one. *)
Theorem reset_restores_constructed_state (D : Type) (A : Arith D) (w : N)
    (s0 : SMACalculator.t D) (calls more : list (Feed.call D)) :
  SMACalculator.new w = Ok s0 ->
  SMACalculator.reset (Feed.run calls s0) = s0 /\
  Feed.run (calls ++ Feed.Reset :: more) s0 = Feed.run more s0.
Proof.
  intros Hnew.
  assert (Hreset : SMACalculator.reset (Feed.run calls s0) = s0).
  { unfold SMACalculator.new in Hnew.
    destruct (w =? 0)%N; [discriminate|]. injection Hnew as <-.
    destruct (run_buffer calls
                (SMACalculator.mk (repeat d0 (N.to_nat w)) w 0 0 d0))
      as [Hw Hlen].
    unfold SMACalculator.reset. rewrite Hw, map_const_repeat, Hlen.
    cbn. rewrite repeat_length. reflexivity. }
  split; [exact Hreset|].
  rewrite run_app. cbn [Feed.run]. rewrite Hreset. reflexivity.
Qed.

Lemma reset_restores_constructed_state_witness :
  exists s0 : SMACalculator.t double,
    SMACalculator.new 3 = Ok s0 /\
    SMACalculator.reset
      (Feed.run [Feed.AddPrice 100; Feed.AddPrice (-1); Feed.AddPrice 102;
                 Feed.AddPrice 98; Feed.AddPrice 104]%float s0) = s0 /\
    SMACalculator.getSMA
      (Feed.run ([Feed.AddPrice 100; Feed.AddPrice (-1); Feed.AddPrice 102;
                  Feed.AddPrice 98; Feed.AddPrice 104]
                 ++ Feed.Reset :: [Feed.AddPrice 7])%float s0) = 7%float.
Proof.
  eexists. split; [reflexivity|].
  destruct (@reset_restores_constructed_state double binary64 3 _
              [Feed.AddPrice 100; Feed.AddPrice (-1); Feed.AddPrice 102;
               Feed.AddPrice 98; Feed.AddPrice 104]%float
              [Feed.AddPrice 7%float] eq_refl) as [H1 H2].
  split; [exact H1|]. rewrite H2. vm_compute. reflexivity.
Defined.

(** X2.  A calculator constructed with window [0 < w < 2^64] and used in
    any way (prices accepted or refused, resets) always has a buffer of [w]
    slots, its cursor on one of them, and at most [w] observations counted:
    [addPrice] never reads or writes [prices_] out of range. *)
Theorem cursor_stays_inside_buffer (D : Type) (A : Arith D) (w : N)
    (s0 : SMACalculator.t D) (calls : list (Feed.call D)) :
  (0 < w < SIZE_MOD)%N ->
  SMACalculator.new w = Ok s0 ->
  let s := Feed.run calls s0 in
  length (SMACalculator.prices_ s) = N.to_nat w /\
  N.to_nat (SMACalculator.index_ s) < length (SMACalculator.prices_ s) /\
  (SMACalculator.size s <= w)%N /\
  SMACalculator.window_size_ s = w.
Proof.
  intros Hw Hnew.
  destruct (new_shaped _ Hnew) as (Hs & Hc & Hwin & _).
  destruct (@run_tracked D A w Hw calls [] s0 Hs) as ([H1 H2 H3 H4 _] & _).
  - rewrite Hc. cbn. lia.
  - rewrite Hwin, Hc. reflexivity.
  - cbv zeta. unfold SMACalculator.size. repeat split; auto. lia.
Qed.

Lemma cursor_stays_inside_buffer_witness :
  exists s0 : SMACalculator.t double,
    SMACalculator.new 2 = Ok s0 /\
    let s := Feed.run [Feed.AddPrice 1; Feed.AddPrice 2; Feed.AddPrice (-3);
                       Feed.AddPrice 4]%float s0 in
    length (SMACalculator.prices_ s) = 2 /\
    N.to_nat (SMACalculator.index_ s) < length (SMACalculator.prices_ s) /\
    (SMACalculator.size s <= 2)%N /\
    SMACalculator.window_size_ s = 2%N.
Proof.
  eexists. split; [reflexivity|].
  apply (@cursor_stays_inside_buffer double binary64 2).
  - vm_compute. split; reflexivity.
  - reflexivity.
Defined.

(** X3.  Refused prices and resets in between: after any sequence of calls
    on a calculator of window [0 < w < 2^64], [size()] is [min(n, w)] for
    the [n] observations accepted since the last [reset] (since
    construction when there was none), and the buffer holds exactly the
    last [min(n, w)] of them, oldest first.  A refused price leaves no
    trace and a reset forgets everything before it. *)
Theorem window_follows_accepted_prices (D : Type) (A : Arith D) (w : N)
    (s0 : SMACalculator.t D) (calls : list (Feed.call D)) :
  (0 < w < SIZE_MOD)%N ->
  SMACalculator.new w = Ok s0 ->
  let s := Feed.run calls s0 in
  let xs := Feed.kept calls [] in
  SMACalculator.size s = N.min (N.of_nat (length xs)) w /\
  window s = lastn (N.to_nat (SMACalculator.size s)) xs.
Proof.
  intros Hw Hnew.
  destruct (new_shaped _ Hnew) as (Hs & Hc & Hwin & _).
  destruct (@run_tracked D A w Hw calls [] s0 Hs) as (_ & H1 & H2).
  - rewrite Hc. cbn. lia.
  - rewrite Hwin, Hc. reflexivity.
  - cbv zeta. unfold SMACalculator.size. auto.
Qed.

Lemma window_follows_accepted_prices_witness :
  exists s0 : SMACalculator.t double,
    SMACalculator.new 2 = Ok s0 /\
    let calls := [Feed.AddPrice 9; Feed.Reset; Feed.AddPrice 1;
                  Feed.AddPrice (-3); Feed.AddPrice 2; Feed.AddPrice 4]%float in
    Feed.kept calls [] = [1; 2; 4]%float /\
    SMACalculator.size (Feed.run calls s0) = 2%N /\
    window (Feed.run calls s0) = [2; 4]%float.
Proof.
  eexists. split; [reflexivity|]. cbv zeta.
  split; [reflexivity|].
  destruct (@window_follows_accepted_prices double binary64 2 _
              [Feed.AddPrice 9; Feed.Reset; Feed.AddPrice 1;
               Feed.AddPrice (-3); Feed.AddPrice 2; Feed.AddPrice 4]%float
              ltac:(vm_compute; split; reflexivity) eq_refl) as [H1 H2].
  split.
  - rewrite H1. reflexivity.
  - rewrite H2. reflexivity.
Defined.

(** ** What every book reached through the interface satisfies *)

Section MapInvariants.
Context {D : Type} {A : Arith D}.

(** A property of the bids and a property of the asks that hold of empty
    maps and are kept by the insertion of an accepted order, by a fill of
    the front order and by the erasure of an empty front level hold of both
    maps of every reachable book. *)
Section Kept.
Variables Pb Pa : OrderBook.price_map D -> Prop.
Hypothesis Pb_nil : Pb [].
Hypothesis Pa_nil : Pa [].
Hypothesis Pb_push :
  forall id p q m,
    dle p d0 = false -> dle q d0 = false -> Pb m ->
    Pb (OrderBook.push_at OrderBook.greater p (Order.mk id BUY p q) m).
Hypothesis Pa_push :
  forall id p q m,
    dle p d0 = false -> dle q d0 = false -> Pa m ->
    Pa (OrderBook.push_at OrderBook.less p (Order.mk id SELL p q) m).
Hypothesis Pb_fill :
  forall k f tl rest tq,
    Pb ((k, f :: tl) :: rest) -> Pb (OrderBook.fill_front k f tl rest tq).
Hypothesis Pa_fill :
  forall k f tl rest tq,
    Pa ((k, f :: tl) :: rest) -> Pa (OrderBook.fill_front k f tl rest tq).
Hypothesis Pb_drop : forall k rest, Pb ((k, []) :: rest) -> Pb rest.
Hypothesis Pa_drop : forall k rest, Pa ((k, []) :: rest) -> Pa rest.

Lemma reachable_maps (b : OrderBook.t D) :
  reachable b -> Pb (OrderBook.bids_ b) /\ Pa (OrderBook.asks_ b).
Proof.
  induction 1 as [|b side price quantity Hb IH|b b' Hb IH Hstep
                  |b trade b' Hb IH Hstep|b Hb IH].
  - cbn. auto.
  - destruct IH as [IHb IHa].
    destruct (addOrder_shape side price quantity b)
      as [(_ & what & ->)|(Hok & ->)]; [cbn; auto|].
    apply orb_false_elim in Hok as [Hp Hq].
    cbn [snd]. destruct side; cbn; auto.
  - destruct IH as [IHb IHa].
    apply cleaned_inv in Hstep
      as (kb & bos & rb & ka & aos & ra & Eb & Ea & _ & -> & -> & _).
    rewrite Eb, Ea in *. split.
    + destruct bos; eauto.
    + destruct aos; eauto.
  - destruct IH as [IHb IHa].
    apply matched_inv in Hstep
      as (kb & ob & tb & rb & ka & oa & ta & ra & Eb & Ea & _ & _ & ->).
    rewrite Eb, Ea in *. cbn. auto.
  - cbn. auto.
Qed.

End Kept.

Lemma keys_depth (m : OrderBook.price_map D) :
  map fst (OrderBook.depth m) = keys m.
Proof. unfold OrderBook.depth, keys. rewrite map_map. reflexivity. Qed.

Lemma In_keys_push_at (comp : D -> D -> bool) (p : D) (o : Order.t D)
    (m : OrderBook.price_map D) (x : D) :
  In x (keys (OrderBook.push_at comp p o m)) -> x = p \/ In x (keys m).
Proof.
  induction m as [|[k os] m IH]; cbn.
  - intuition congruence.
  - destruct (comp k p).
    + cbn. intros [<-|H]; [auto|]. apply IH in H. tauto.
    + destruct (comp p k); cbn; intuition congruence.
Qed.

Lemma In_keys_fill_front (k : D) (f : Order.t D) (tl : list (Order.t D))
    (rest : OrderBook.price_map D) (tq : D) (x : D) :
  In x (keys (OrderBook.fill_front k f tl rest tq)) ->
  x = k \/ In x (keys rest).
Proof.
  unfold OrderBook.fill_front.
  destruct (deq _ d0); [destruct tl|]; cbn; intuition congruence.
Qed.

(** *** The maps stay sorted *)

Lemma push_at_sorted (comp : D -> D -> bool) (p : D) (o : Order.t D)
    (m : OrderBook.price_map D) :
  (forall x y z, comp x y = true -> comp y z = true -> comp x z = true) ->
  sorted_by comp (keys m) ->
  sorted_by comp (keys (OrderBook.push_at comp p o m)).
Proof.
  intros Htrans. unfold sorted_by.
  induction m as [|[k os] m IH]; cbn [OrderBook.push_at]; intros Hm.
  - cbn. constructor; constructor.
  - cbn in Hm. inversion Hm as [|? ? Hrest Hall]; subst.
    destruct (comp k p) eqn:Hkp.
    + cbn. constructor; [apply IH; exact Hrest|].
      apply Forall_forall. intros x Hx.
      apply In_keys_push_at in Hx as [->|Hx]; [exact Hkp|].
      rewrite Forall_forall in Hall. apply Hall. exact Hx.
    + destruct (comp p k) eqn:Hpk.
      * cbn. constructor; [exact Hm|].
        constructor; [exact Hpk|].
        rewrite Forall_forall in *. intros x Hx.
        apply Htrans with k; auto.
      * cbn. exact Hm.
Qed.

Lemma fill_front_sorted (comp : D -> D -> bool) (k : D) (f : Order.t D)
    (tl : list (Order.t D)) (rest : OrderBook.price_map D) (tq : D) :
  sorted_by comp (keys ((k, f :: tl) :: rest)) ->
  sorted_by comp (keys (OrderBook.fill_front k f tl rest tq)).
Proof.
  unfold sorted_by, OrderBook.fill_front. cbn. intros Hm.
  destruct (deq _ d0); [destruct tl|]; cbn; auto.
  inversion Hm; auto.
Qed.

Lemma reachable_sorted (b : OrderBook.t D) :
  lt_transitive -> reachable b ->
  descending (keys (OrderBook.bids_ b)) /\ ascending (keys (OrderBook.asks_ b)).
Proof.
  intros Htrans.
  apply (@reachable_maps (fun m => descending (keys m))
           (fun m => ascending (keys m))).
  - constructor.
  - constructor.
  - intros id p q m _ _. apply push_at_sorted.
    unfold OrderBook.greater. intros x y z Hxy Hyz. eapply Htrans; eauto.
  - intros id p q m _ _. apply push_at_sorted.
    unfold OrderBook.less. intros x y z Hxy Hyz. eapply Htrans; eauto.
  - intros. apply fill_front_sorted. assumption.
  - intros. apply fill_front_sorted. assumption.
  - intros k rest Hm. inversion Hm; auto.
  - intros k rest Hm. inversion Hm; auto.
Qed.

(** *** Every key passed the price check *)

Lemma reachable_priced (b : OrderBook.t D) :
  reachable b -> priced (OrderBook.bids_ b) /\ priced (OrderBook.asks_ b).
Proof.
  assert (Hpush : forall comp p o (m : OrderBook.price_map D),
             dle p d0 = false -> priced m ->
             priced (OrderBook.push_at comp p o m)).
  { unfold priced. intros comp p o m Hp Hm. rewrite Forall_forall in *.
    intros x Hx. apply In_keys_push_at in Hx as [->|Hx]; auto. }
  assert (Hfill : forall k f tl (rest : OrderBook.price_map D) tq,
             priced ((k, f :: tl) :: rest) ->
             priced (OrderBook.fill_front k f tl rest tq)).
  { unfold priced. intros k f tl rest tq Hm. rewrite Forall_forall in *.
    intros x Hx. apply Hm.
    apply In_keys_fill_front in Hx as [->|Hx]; unfold keys in *; cbn; auto. }
  apply (@reachable_maps priced priced); auto.
  - constructor.
  - constructor.
  - intros k rest Hm. inversion Hm; auto.
  - intros k rest Hm. inversion Hm; auto.
Qed.

(** *** Buy orders among the bids, sell orders among the asks *)

Lemma reachable_sided (b : OrderBook.t D) : reachable b -> sided b.
Proof.
  pose (on (s : OrderSide) (m : OrderBook.price_map D) :=
          forall o, In o (resting_in m) -> Order.side o = s).
  assert (Hpush : forall s comp p o (m : OrderBook.price_map D),
             Order.side o = s -> on s m ->
             on s (OrderBook.push_at comp p o m)).
  { unfold on. intros s comp p o m Ho Hm x Hx.
    apply In_resting_push_at in Hx as [->|Hx]; auto. }
  assert (Hfill : forall s k f tl (rest : OrderBook.price_map D) tq,
             on s ((k, f :: tl) :: rest) ->
             on s (OrderBook.fill_front k f tl rest tq)).
  { unfold on. intros s k f tl rest tq Hm x Hx.
    apply In_resting_fill_front in Hx as [[-> _]|[Hx|Hx]].
    - cbn. apply Hm. rewrite resting_in_cons. cbn. auto.
    - apply Hm. rewrite resting_in_cons, in_app_iff. cbn. auto.
    - apply Hm. rewrite resting_in_cons, in_app_iff. auto. }
  unfold sided. apply (@reachable_maps (on BUY) (on SELL)); auto;
    intros o [].
Qed.

End MapInvariants.

Section SortedFacts.
Context {D : Type} {A : Arith D}.

Lemma sorted_NoDup (comp : D -> D -> bool) (l : list D) :
  (forall x, comp x x = false) -> sorted_by comp l -> NoDup l.
Proof.
  intros Hirr. unfold sorted_by. induction 1 as [|x l Hl IH Hall].
  - constructor.
  - constructor; [|exact IH].
    intros Hx. rewrite Forall_forall in Hall.
    specialize (Hall x Hx). rewrite Hirr in Hall. discriminate.
Qed.

(** Nothing in a sorted list is ordered before its head. *)
Lemma sorted_head_first (comp : D -> D -> bool) (h : D) (l : list D) (x : D) :
  (forall x, comp x x = false) ->
  (forall x y, comp x y = true -> comp y x = false) ->
  sorted_by comp (h :: l) -> In x (h :: l) -> comp x h = false.
Proof.
  intros Hirr Hasym Hs [<-|Hx]; [apply Hirr|].
  inversion Hs as [|? ? _ Hall]; subst.
  rewrite Forall_forall in Hall. apply Hasym, Hall, Hx.
Qed.

Lemma reachable_place (orders : list (OrderSide * D * D)) :
  forall b : OrderBook.t D, reachable b -> reachable (place orders b).
Proof.
  unfold place. induction orders as [|o orders IH]; intros b Hb; cbn; auto.
  apply IH. apply reachable_addOrder. exact Hb.
Qed.

Lemma In_depth_key (m : OrderBook.price_map D) (p q : D) :
  In (p, q) (OrderBook.depth m) -> In p (keys m).
Proof.
  intros H. rewrite <- keys_depth. change p with (fst (p, q)).
  apply in_map. exact H.
Qed.

End SortedFacts.

(** ** Comparisons of binary64 *)

Lemma SFltb_trans (x y z : spec_float) :
  SFltb x y = true -> SFltb y z = true -> SFltb x z = true.
Proof.
  unfold SFltb, SFcompare.
  destruct x as [sx|sx| |sx mx ex], y as [sy|sy| |sy my ey],
    z as [sz|sz| |sz mz ez];
    try destruct sx; try destruct sy; try destruct sz;
    try discriminate; try reflexivity.
  - destruct (Z.compare_spec ex ey), (Z.compare_spec ey ez),
      (Z.compare_spec ex ez); try discriminate; try reflexivity; try lia.
    subst.
    change (PosDef.Pos.compare_cont Eq ?a ?b) with (Pos.compare a b).
    destruct (Pos.compare_spec mx my), (Pos.compare_spec my mz),
      (Pos.compare_spec mx mz); cbn; try discriminate; try reflexivity; try lia.
  - destruct (Z.compare_spec ex ey), (Z.compare_spec ey ez),
      (Z.compare_spec ex ez); try discriminate; try reflexivity; try lia.
    subst.
    change (PosDef.Pos.compare_cont Eq ?a ?b) with (Pos.compare a b).
    destruct (Pos.compare_spec mx my), (Pos.compare_spec my mz),
      (Pos.compare_spec mx mz); try discriminate; try reflexivity; try lia.
Qed.

Lemma SFltb_asym (x y : spec_float) :
  SFltb x y = true -> SFltb y x = false.
Proof.
  unfold SFltb, SFcompare.
  destruct x as [sx|sx| |sx mx ex], y as [sy|sy| |sy my ey];
    try destruct sx; try destruct sy;
    try discriminate; try reflexivity.
  - destruct (Z.compare_spec ex ey), (Z.compare_spec ey ex);
      try discriminate; try reflexivity; try lia.
    subst.
    change (PosDef.Pos.compare_cont Eq ?a ?b) with (Pos.compare a b).
    destruct (Pos.compare_spec my mx), (Pos.compare_spec mx my); cbn;
      try discriminate; try reflexivity; try lia.
  - destruct (Z.compare_spec ex ey), (Z.compare_spec ey ex);
      try discriminate; try reflexivity; try lia.
    subst.
    change (PosDef.Pos.compare_cont Eq ?a ?b) with (Pos.compare a b).
    destruct (Pos.compare_spec my mx), (Pos.compare_spec mx my);
      try discriminate; try reflexivity; try lia.
Qed.

Lemma binary64_lt_transitive : lt_transitive (A := binary64).
Proof.
  intros x y z. cbn [dlt binary64]. rewrite !ltb_spec. apply SFltb_trans.
Qed.

Lemma binary64_lt_asym (x y : double) :
  dlt x y = true -> dlt y x = false.
Proof. cbn [dlt binary64]. rewrite !ltb_spec. apply SFltb_asym. Qed.

Lemma binary64_lt_irrefl (x : double) : dlt x x = false.
Proof.
  destruct (dlt x x) eqn:E; auto.
  pose proof (binary64_lt_asym E). congruence.
Qed.

(** What compares equal to a number is not above it. *)
Lemma binary64_eq_le (x y : double) : deq x y = true -> dle x y = true.
Proof.
  cbn [deq dle binary64]. rewrite eqb_spec, leb_spec.
  unfold SFeqb, SFleb. destruct (SFcompare _ _) as [[| |]|]; auto.
Qed.

(** X4.  In binary64, on every book reached through the interface,
    [getBids()] lists its price levels from the highest price down and
    [getAsks()] from the lowest price up, each price strictly beyond all
    later ones, so no price appears twice. *)
Theorem depth_is_listed_by_price (b : OrderBook.t double) :
  reachable b ->
  descending (map fst (OrderBook.getBids b)) /\
  ascending (map fst (OrderBook.getAsks b)) /\
  NoDup (map fst (OrderBook.getBids b)) /\
  NoDup (map fst (OrderBook.getAsks b)).
Proof.
  intros Hb. unfold OrderBook.getBids, OrderBook.getAsks.
  rewrite !keys_depth.
  destruct (reachable_sorted binary64_lt_transitive Hb) as [Hd Ha].
  repeat split; auto.
  - apply sorted_NoDup with OrderBook.greater; auto.
    intros x. apply binary64_lt_irrefl.
  - apply sorted_NoDup with OrderBook.less; auto.
    intros x. apply binary64_lt_irrefl.
Qed.

Lemma depth_is_listed_by_price_witness :
  OrderBook.getBids ladder = [(45100, 2.5); (45050, 1); (45000, 1)]%float /\
  OrderBook.getAsks ladder = [(45200, 3); (45300, 3)]%float /\
  descending (map fst (OrderBook.getBids ladder)) /\
  ascending (map fst (OrderBook.getAsks ladder)) /\
  NoDup (map fst (OrderBook.getBids ladder)) /\
  NoDup (map fst (OrderBook.getAsks ladder)).
Proof.
  split; [reflexivity|]. split; [reflexivity|].
  apply depth_is_listed_by_price.
  apply reachable_place. apply reachable_init.
Defined.

(** X5.  In binary64, on every book reached through the interface, no bid
    level is priced above [getBestBid()] and no ask level is priced below
    [getBestAsk()]; they are the prices of the first entries of [getBids()]
    and [getAsks()]. *)
Theorem best_prices_are_extremal (b : OrderBook.t double) :
  reachable b ->
  (forall p q, In (p, q) (OrderBook.getBids b) ->
               dlt (OrderBook.getBestBid b) p = false) /\
  (forall p q, In (p, q) (OrderBook.getAsks b) ->
               dlt p (OrderBook.getBestAsk b) = false) /\
  OrderBook.getBestBid b = hd d0 (map fst (OrderBook.getBids b)) /\
  OrderBook.getBestAsk b = hd d0 (map fst (OrderBook.getAsks b)).
Proof.
  intros Hb.
  destruct (reachable_sorted binary64_lt_transitive Hb) as [Hd Ha].
  unfold OrderBook.getBids, OrderBook.getAsks, OrderBook.getBestBid,
    OrderBook.getBestAsk.
  repeat split.
  - intros p q Hp. apply In_depth_key in Hp.
    destruct (OrderBook.bids_ b) as [|[k os] rest]; [destruct Hp|].
    apply (@sorted_head_first _ OrderBook.greater k (keys rest) p); auto.
    + intros x. apply binary64_lt_irrefl.
    + intros x y. apply binary64_lt_asym.
  - intros p q Hp. apply In_depth_key in Hp.
    destruct (OrderBook.asks_ b) as [|[k os] rest]; [destruct Hp|].
    apply (@sorted_head_first _ OrderBook.less k (keys rest) p); auto.
    + intros x. apply binary64_lt_irrefl.
    + intros x y. apply binary64_lt_asym.
  - destruct (OrderBook.bids_ b) as [|[k os] rest]; reflexivity.
  - destruct (OrderBook.asks_ b) as [|[k os] rest]; reflexivity.
Qed.

Lemma best_prices_are_extremal_witness :
  OrderBook.getBestBid ladder = 45100%float /\
  OrderBook.getBestAsk ladder = 45200%float /\
  (forall p q, In (p, q) (OrderBook.getBids ladder) ->
               dlt (OrderBook.getBestBid ladder) p = false) /\
  (forall p q, In (p, q) (OrderBook.getAsks ladder) ->
               dlt p (OrderBook.getBestAsk ladder) = false).
Proof.
  split; [reflexivity|]. split; [reflexivity|].
  destruct (@best_prices_are_extremal ladder) as (H1 & H2 & _).
  - apply reachable_place. apply reachable_init.
  - split; assumption.
Defined.

(** X6.  The value [0.0] that [getBestBid()] and [getBestAsk()] return for
    an empty side is never the price of a level: on a book reached through
    the interface, [getBestBid() <= 0] exactly when there are no bids and
    [getBestAsk() <= 0] exactly when there are no asks, and no price listed
    by [getBids()] or [getAsks()] is [<= 0].  (In any arithmetic in which
    [0.0 <= 0.0], binary64 among them.) *)
Theorem empty_side_sentinel_is_no_price (D : Type) (A : Arith D)
    (b : OrderBook.t D) :
  dle d0 d0 = true ->
  reachable b ->
  (dle (OrderBook.getBestBid b) d0 = true <-> OrderBook.bids_ b = []) /\
  (dle (OrderBook.getBestAsk b) d0 = true <-> OrderBook.asks_ b = []) /\
  (forall p q,
     In (p, q) (OrderBook.getBids b) \/ In (p, q) (OrderBook.getAsks b) ->
     dle p d0 = false).
Proof.
  intros H0 Hb. destruct (reachable_priced Hb) as [Hpb Hpa].
  unfold priced in *. rewrite Forall_forall in Hpb, Hpa.
  unfold OrderBook.getBestBid, OrderBook.getBestAsk.
  repeat split.
  - destruct (OrderBook.bids_ b) as [|[k os] rest]; auto.
    intros Hk. rewrite (Hpb k) in Hk; [discriminate|]. cbn. auto.
  - intros ->. exact H0.
  - destruct (OrderBook.asks_ b) as [|[k os] rest]; auto.
    intros Hk. rewrite (Hpa k) in Hk; [discriminate|]. cbn. auto.
  - intros ->. exact H0.
  - intros p q [H|H]; apply In_depth_key in H; auto.
Qed.

Lemma empty_side_sentinel_is_no_price_witness :
  let b := place [(BUY, 45000, 1)]%float OrderBook.init in
  (dle (OrderBook.getBestBid b) d0 = true <-> OrderBook.bids_ b = []) /\
  (dle (OrderBook.getBestAsk b) d0 = true <-> OrderBook.asks_ b = []) /\
  OrderBook.getBestBid b = 45000%float /\
  OrderBook.getBestAsk b = 0%float.
Proof.
  cbv zeta.
  destruct (@empty_side_sentinel_is_no_price double binary64
              (place [(BUY, 45000, 1)]%float OrderBook.init))
    as (H1 & H2 & _).
  - reflexivity.
  - apply reachable_place. apply reachable_init.
  - repeat split; try apply H1; try apply H2; reflexivity.
Defined.

(** ** Depth, and what matching leaves of a book *)

Section DepthFacts.
Context {D : Type} {A : Arith D}.

Lemma depth_app (m1 m2 : OrderBook.price_map D) :
  OrderBook.depth (m1 ++ m2) = OrderBook.depth m1 ++ OrderBook.depth m2.
Proof. apply map_app. Qed.

Lemma Forall_depth (P : D -> Prop) (m : OrderBook.price_map D) :
  Forall (fun l => P (fst l)) m ->
  Forall (fun e => P (fst e)) (OrderBook.depth m).
Proof.
  unfold OrderBook.depth. induction 1; cbn; constructor; auto.
Qed.

Lemma queued_deepened (comp : D -> D -> bool) (p : D) (o : Order.t D)
    (m m' : OrderBook.price_map D) :
  (forall x y, comp x y = false -> comp y x = false -> same_key x y) ->
  (forall x y, comp x y = true -> ~ same_key x y /\ ~ same_key y x) ->
  queued comp p o m m' ->
  deepened comp p (Order.quantity o) (OrderBook.depth m) (OrderBook.depth m').
Proof.
  intros Hsame Hapart (pre & post & Hpre & Hcase).
  assert (Hpre' : Forall (fun e => comp (fst e) p = true)
                    (OrderBook.depth pre))
    by (apply Forall_depth with (P := fun k => comp k p = true); exact Hpre).
  assert (Hnone : forall e, In e (OrderBook.depth pre) ->
                            ~ same_key (fst e) p).
  { rewrite Forall_forall in Hpre'. intros e He.
    exact (proj1 (Hapart _ _ (Hpre' e He))). }
  exists (OrderBook.depth pre), (OrderBook.depth post).
  split; [exact Hpre'|]. split; [exact Hnone|].
  destruct Hcase as [(k & os & -> & -> & H1 & H2)|(-> & -> & Hpost)].
  - left.
    exists k, (fold_left (fun total x => dadd total (Order.quantity x)) os d0).
    rewrite !depth_app. cbn. rewrite fold_left_app. cbn.
    split; [reflexivity|]. split; [reflexivity|]. apply Hsame; assumption.
  - right. rewrite !depth_app. cbn.
    assert (Hpost' : Forall (fun e => comp p (fst e) = true)
                       (OrderBook.depth post))
      by (apply Forall_depth with (P := fun k => comp p k = true);
          exact Hpost).
    repeat split; auto.
    intros e He. apply in_app_or in He as [He|He]; [auto|].
    rewrite Forall_forall in Hpost'.
    exact (proj2 (Hapart _ _ (Hpost' e He))).
Qed.

Lemma drawn_from_refl (m : OrderBook.price_map D) : drawn_from m m.
Proof.
  intros o Ho. exists o. split; auto. destruct o; reflexivity.
Qed.

Lemma drawn_from_trans (m1 m2 m3 : OrderBook.price_map D) :
  drawn_from m1 m2 -> drawn_from m2 m3 -> drawn_from m1 m3.
Proof.
  intros H12 H23 o3 H3.
  destruct (H23 o3 H3) as (o2 & H2 & E2).
  destruct (H12 o2 H2) as (o1 & H1 & E1).
  exists o1. split; auto. rewrite <- E2, <- E1. reflexivity.
Qed.

Lemma fill_front_drawn (k : D) (f : Order.t D) (tl : list (Order.t D))
    (rest : OrderBook.price_map D) (tq : D) :
  drawn_from ((k, f :: tl) :: rest) (OrderBook.fill_front k f tl rest tq).
Proof.
  intros o Ho. apply In_resting_fill_front in Ho as [[-> _]|[Ho|Ho]].
  - exists f. rewrite resting_in_cons. cbn. auto.
  - exists o. rewrite resting_in_cons, in_app_iff. cbn.
    split; auto. destruct o; reflexivity.
  - exists o. rewrite resting_in_cons, in_app_iff.
    split; auto. destruct o; reflexivity.
Qed.

Lemma fill_front_count (k : D) (f : Order.t D) (tl : list (Order.t D))
    (rest : OrderBook.price_map D) (tq : D) :
  length (resting_in (OrderBook.fill_front k f tl rest tq))
  <= length (resting_in ((k, f :: tl) :: rest)).
Proof.
  unfold OrderBook.fill_front.
  destruct (deq _ d0); [destruct tl|];
    rewrite ?resting_in_cons, ?length_app; cbn; lia.
Qed.

(** What one pass of the loop body keeps. *)
Lemma step_keeps (b b' : OrderBook.t D) :
  (OrderBook.body b = OrderBook.Cleaned b' \/
   exists trade, OrderBook.body b = OrderBook.Matched trade b') ->
  drawn_from (OrderBook.bids_ b) (OrderBook.bids_ b') /\
  drawn_from (OrderBook.asks_ b) (OrderBook.asks_ b') /\
  length (resting b') <= length (resting b).
Proof.
  intros [Hstep|[trade Hstep]].
  - apply cleaned_inv in Hstep
      as (kb & bos & rb & ka & aos & ra & Eb & Ea & _ & Eb' & Ea' & _).
    unfold resting. rewrite Eb', Ea', Eb, Ea.
    assert (Hdrop : forall k (rest : OrderBook.price_map D),
               drawn_from ((k, []) :: rest) rest).
    { intros k rest. exact (drawn_from_refl rest). }
    destruct bos, aos; repeat split;
      auto using drawn_from_refl;
      rewrite ?resting_in_cons, ?length_app; cbn; lia.
  - apply matched_inv in Hstep
      as (kb & ob & tb & rb & ka & oa & ta & ra & Eb & Ea & _ & _ & ->).
    unfold resting. rewrite Eb, Ea. cbn [OrderBook.bids_ OrderBook.asks_].
    repeat split; try apply fill_front_drawn.
    rewrite !length_app.
    pose proof (fill_front_count kb ob tb rb (Trade.quantity trade)).
    pose proof (fill_front_count ka oa ta ra (Trade.quantity trade)).
    lia.
Qed.

Lemma inside_keeps (b bi : OrderBook.t D) :
  inside b bi ->
  drawn_from (OrderBook.bids_ b) (OrderBook.bids_ bi) /\
  drawn_from (OrderBook.asks_ b) (OrderBook.asks_ bi) /\
  length (resting bi) <= length (resting b) /\
  OrderBook.next_order_id_ bi = OrderBook.next_order_id_ b.
Proof.
  induction 1 as [|bi bi' Hin IH Hstep|bi trade bi' Hin IH Hstep].
  - repeat split; auto using drawn_from_refl.
  - destruct IH as (Hb & Ha & Hn & Hc).
    destruct (@step_keeps bi bi') as (Hb' & Ha' & Hn'); [auto|].
    pose proof (body_keeps_counter bi) as Hc'. rewrite Hstep in Hc'.
    repeat split; eauto using drawn_from_trans; try lia; congruence.
  - destruct IH as (Hb & Ha & Hn & Hc).
    destruct (@step_keeps bi bi') as (Hb' & Ha' & Hn'); [eauto|].
    pose proof (body_keeps_counter bi) as Hc'. rewrite Hstep in Hc'.
    repeat split; eauto using drawn_from_trans; try lia; congruence.
Qed.

(** The two orders of a recorded trade, as they rested at entry. *)
Lemma recorded_parties (b : OrderBook.t D) (trade : Trade.t D) :
  recorded b trade ->
  exists ob oa,
    In ob (resting_in (OrderBook.bids_ b)) /\
    In oa (resting_in (OrderBook.asks_ b)) /\
    Trade.buy_order_id trade = Order.id ob /\
    Trade.sell_order_id trade = Order.id oa /\
    (sided b -> Order.side ob = BUY /\ Order.side oa = SELL).
Proof.
  intros (bi & bi' & Hin & Hstep).
  destruct (inside_keeps Hin) as (Hb & Ha & _ & _).
  apply matched_inv in Hstep
    as (kb & fb & tb & rb & ka & fa & ta & ra & Eb & Ea & _ & -> & _).
  destruct (Hb fb) as (ob & Hob & Eob).
  { rewrite Eb, resting_in_cons. cbn. auto. }
  destruct (Ha fa) as (oa & Hoa & Eoa).
  { rewrite Ea, resting_in_cons. cbn. auto. }
  exists ob, oa. rewrite <- Eob, <- Eoa. cbn.
  repeat split; auto; destruct H; auto.
Qed.

End DepthFacts.

(** X7.  In binary64, on a book reached through the interface, an accepted
    [addOrder(side, p, q)] changes exactly one entry of the depth of its
    side.  Either [q] is added to the first entry whose price the map does
    not tell apart from [p]; or, when no entry has such a price, a new
    entry for [p] showing [0.0 + q] is inserted behind the entries priced
    before [p] and in front of those priced after it.  Every other entry of
    [getBids()] and [getAsks()] is as before. *)
Theorem accepted_order_deepens_its_level (side : OrderSide)
    (price quantity : double) (b b' : OrderBook.t double) (id : string) :
  reachable b ->
  OrderBook.addOrder side price quantity b = (Ok id, b') ->
  match side with
  | BUY =>
      deepened OrderBook.greater price quantity
        (OrderBook.getBids b) (OrderBook.getBids b') /\
      OrderBook.getAsks b' = OrderBook.getAsks b
  | SELL =>
      deepened OrderBook.less price quantity
        (OrderBook.getAsks b) (OrderBook.getAsks b') /\
      OrderBook.getBids b' = OrderBook.getBids b
  end.
Proof.
  intros Hb Hadd.
  destruct (reachable_sorted binary64_lt_transitive Hb) as [Hd Ha].
  destruct (addOrder_shape side price quantity b)
    as [(_ & what & H)|(_ & H)]; rewrite H in Hadd; [discriminate|].
  injection Hadd as <- <-.
  unfold OrderBook.getBids, OrderBook.getAsks.
  destruct side; cbn; split; auto.
  - apply (@queued_deepened double binary64 OrderBook.greater price
             (Order.mk (order_id (OrderBook.next_order_id_ b)) BUY price
                quantity)).
    + apply greater_same_key.
    + unfold OrderBook.greater, same_key. intros x y Hxy.
      split; intros [H1 H2]; congruence.
    + apply push_at_queued; [|exact Hd].
      unfold OrderBook.greater. intros x y z Hxy Hyz.
      exact (binary64_lt_transitive Hyz Hxy).
  - apply (@queued_deepened double binary64 OrderBook.less price
             (Order.mk (order_id (OrderBook.next_order_id_ b)) SELL price
                quantity)).
    + apply less_same_key.
    + unfold OrderBook.less, same_key. intros x y Hxy.
      split; intros [H1 H2]; congruence.
    + apply push_at_queued; [|exact Ha].
      unfold OrderBook.less. intros x y z Hxy Hyz.
      exact (binary64_lt_transitive Hxy Hyz).
Qed.

Lemma accepted_order_deepens_its_level_witness :
  exists b' b'',
    OrderBook.addOrder BUY 45100%float 0.25%float ladder
    = (Ok "ORD8"%string, b') /\
    OrderBook.getBids b' = [(45100, 2.75); (45050, 1); (45000, 1)]%float /\
    deepened OrderBook.greater 45100%float 0.25%float
      (OrderBook.getBids ladder) (OrderBook.getBids b') /\
    OrderBook.getAsks b' = OrderBook.getAsks ladder /\
    OrderBook.addOrder SELL 45250%float 4%float ladder
    = (Ok "ORD8"%string, b'') /\
    OrderBook.getAsks b''
    = [(45200, 3); (45250, 4); (45300, 3)]%float /\
    deepened OrderBook.less 45250%float 4%float
      (OrderBook.getAsks ladder) (OrderBook.getAsks b'').
Proof.
  assert (Hl : reachable ladder)
    by (apply reachable_place; apply reachable_init).
  eexists. eexists. split; [reflexivity|]. split; [reflexivity|].
  split; [|split; [|split; [reflexivity|split; [reflexivity|]]]].
  - exact (proj1 (@accepted_order_deepens_its_level BUY
                    45100%float 0.25%float ladder _ "ORD8"%string Hl
                    eq_refl)).
  - reflexivity.
  - exact (proj1 (@accepted_order_deepens_its_level SELL
                    45250%float 4%float ladder _ "ORD8"%string Hl
                    eq_refl)).
Defined.

(** X8.  In any arithmetic, [matchOrders] is idempotent: called again on
    the book a call has just left, it returns at once, with no trade and
    the book unchanged. *)
Theorem matching_is_idempotent (D : Type) (A : Arith D) (fuel : nat)
    (b b' : OrderBook.t D) (trades : list (Trade.t D)) :
  OrderBook.matchOrders fuel b = Some (trades, b') ->
  forall fuel', OrderBook.matchOrders (S fuel') b' = Some ([], b').
Proof.
  intros Hrun fuel'. unfold OrderBook.matchOrders in *.
  apply loop_returns in Hrun as (new & _ & _ & _ & Hexit).
  rewrite loop_S, Hexit. reflexivity.
Qed.

Lemma matching_is_idempotent_witness :
  exists trades b',
    OrderBook.matchOrders 10 crossed_book = Some (trades, b') /\
    length trades = 2 /\
    OrderBook.matchOrders 1 b' = Some ([], b').
Proof.
  eexists. eexists. split; [reflexivity|]. split; [reflexivity|].
  exact (@matching_is_idempotent double binary64 10 crossed_book _ _
           eq_refl 0).
Defined.

(** X9.  In any arithmetic, [matchOrders] creates nothing.  At every point
    of the loop, and so in the book a call leaves when it returns, every
    resting order was resting on the same side when the call was entered,
    with the same id, side and price (only its quantity may differ); there
    are no more resting orders than at entry; and the id counter is
    untouched. *)
Theorem matching_creates_no_order (D : Type) (A : Arith D)
    (b : OrderBook.t D) :
  (forall bi,
     inside b bi ->
     drawn_from (OrderBook.bids_ b) (OrderBook.bids_ bi) /\
     drawn_from (OrderBook.asks_ b) (OrderBook.asks_ bi) /\
     length (resting bi) <= length (resting b) /\
     OrderBook.next_order_id_ bi = OrderBook.next_order_id_ b) /\
  (forall fuel trades b',
     OrderBook.matchOrders fuel b = Some (trades, b') -> inside b b').
Proof.
  split.
  - intros bi Hin. apply inside_keeps. exact Hin.
  - intros fuel trades b' Hrun. unfold OrderBook.matchOrders in Hrun.
    apply loop_returns in Hrun as (new & _ & _ & Hin & _). exact Hin.
Qed.

Lemma matching_creates_no_order_witness :
  exists trades b',
    OrderBook.matchOrders 10 queue_book = Some (trades, b') /\
    map (@Order.id double) (resting queue_book)
    = ["ORD3"; "ORD1"; "ORD2"]%string /\
    map (@Order.id double) (resting b') = ["ORD2"]%string /\
    drawn_from (OrderBook.asks_ queue_book) (OrderBook.asks_ b') /\
    OrderBook.next_order_id_ b' = 4%N.
Proof.
  eexists. eexists. split; [reflexivity|].
  split; [reflexivity|]. split; [reflexivity|].
  destruct (@matching_creates_no_order double binary64 queue_book)
    as [Hkeep Hret].
  destruct (Hkeep _ (Hret 10 _ _ eq_refl)) as (_ & Ha & _ & Hc).
  split; [exact Ha | exact Hc].
Defined.

(** X10.  In any arithmetic, on a book reached through the interface,
    every trade the matching loop records, and so every trade [matchOrders]
    returns, is between an order that was resting among the bids at entry,
    which is a buy order, and an order that was resting among the asks at
    entry, which is a sell order; the trade carries their ids as buyer and
    seller. *)
Theorem trades_pair_a_bid_with_an_ask (D : Type) (A : Arith D)
    (b : OrderBook.t D) :
  reachable b ->
  (forall trade,
     recorded b trade ->
     exists ob oa,
       In ob (resting_in (OrderBook.bids_ b)) /\
       In oa (resting_in (OrderBook.asks_ b)) /\
       Trade.buy_order_id trade = Order.id ob /\
       Trade.sell_order_id trade = Order.id oa /\
       Order.side ob = BUY /\ Order.side oa = SELL) /\
  (forall fuel trades b',
     OrderBook.matchOrders fuel b = Some (trades, b') ->
     Forall (recorded b) trades).
Proof.
  intros Hb. split.
  - intros trade Ht.
    destruct (recorded_parties Ht) as (ob & oa & H1 & H2 & H3 & H4 & H5).
    exists ob, oa. destruct (H5 (reachable_sided Hb)). auto 10.
  - intros fuel trades b' Hrun. unfold OrderBook.matchOrders in Hrun.
    apply loop_returns in Hrun as (new & -> & Hrec & _ & _). exact Hrec.
Qed.

Lemma trades_pair_a_bid_with_an_ask_witness :
  exists trades b',
    OrderBook.matchOrders 10 crossed_book = Some (trades, b') /\
    map (@Trade.buy_order_id double) trades = ["ORD3"; "ORD3"]%string /\
    map (@Trade.sell_order_id double) trades = ["ORD1"; "ORD2"]%string /\
    Forall (fun trade =>
              exists ob oa,
                In ob (resting_in (OrderBook.bids_ crossed_book)) /\
                In oa (resting_in (OrderBook.asks_ crossed_book)) /\
                Trade.buy_order_id trade = Order.id ob /\
                Trade.sell_order_id trade = Order.id oa /\
                Order.side ob = BUY /\ Order.side oa = SELL) trades.
Proof.
  eexists. eexists. split; [reflexivity|].
  split; [reflexivity|]. split; [reflexivity|].
  destruct (@trades_pair_a_bid_with_an_ask double binary64 crossed_book)
    as [Hparties Hret].
  - apply reachable_place. apply reachable_init.
  - specialize (Hret 10 _ _ eq_refl). rewrite Forall_forall in *.
    intros trade Ht. apply Hparties, Hret, Ht.
Defined.

(** ** Ids and sides across a session *)

Section SessionFacts.
Context {D : Type} {A : Arith D}.

Lemma occurs_app (i : string) (l1 l2 : list (Order.t D)) :
  occurs i (l1 ++ l2) = occurs i l1 + occurs i l2.
Proof. unfold occurs. rewrite map_app. apply count_occ_app. Qed.

Lemma occurs_push_at (i : string) (comp : D -> D -> bool) (p : D)
    (o : Order.t D) (m : OrderBook.price_map D) :
  occurs i (resting_in (OrderBook.push_at comp p o m))
  = occurs i (resting_in m) + occurs i [o].
Proof.
  induction m as [|[k os] m IH]; cbn [OrderBook.push_at].
  - rewrite resting_in_cons. cbn [resting_in flat_map].
    rewrite occurs_app. cbn. lia.
  - destruct (comp k p).
    + rewrite !resting_in_cons, !occurs_app, IH. lia.
    + destruct (comp p k).
      * rewrite !resting_in_cons, !occurs_app. cbn. lia.
      * rewrite !resting_in_cons, !occurs_app. lia.
Qed.

Lemma occurs_fill_front (i : string) (k : D) (f : Order.t D)
    (tl : list (Order.t D)) (rest : OrderBook.price_map D) (tq : D) :
  occurs i (resting_in (OrderBook.fill_front k f tl rest tq))
  <= occurs i (resting_in ((k, f :: tl) :: rest)).
Proof.
  unfold OrderBook.fill_front.
  destruct (deq _ d0); [destruct tl as [|f1 tl]|];
    rewrite ?resting_in_cons, ?occurs_app.
  - lia.
  - change (f :: f1 :: tl) with ([f] ++ f1 :: tl). rewrite occurs_app. lia.
  - change (OrderBook.with_quantity f (dsub (Order.quantity f) tq) :: tl)
      with ([OrderBook.with_quantity f (dsub (Order.quantity f) tq)] ++ tl).
    change (f :: tl) with ([f] ++ tl). rewrite !occurs_app.
    change (occurs i [OrderBook.with_quantity f (dsub (Order.quantity f) tq)])
      with (occurs i [f]). lia.
Qed.

Lemma inside_occurs (i : string) (b bi : OrderBook.t D) :
  inside b bi -> occurs i (resting bi) <= occurs i (resting b).
Proof.
  induction 1 as [|bi bi' Hin IH Hstep|bi trade bi' Hin IH Hstep]; auto.
  - apply cleaned_inv in Hstep
      as (kb & bos & rb & ka & aos & ra & Eb & Ea & _ & Eb' & Ea' & _).
    unfold resting in *. rewrite Eb', Ea'. rewrite Eb, Ea in *.
    rewrite occurs_app in *.
    destruct bos, aos; rewrite ?resting_in_cons, ?occurs_app in *;
      cbn in *; lia.
  - apply matched_inv in Hstep
      as (kb & ob & tb & rb & ka & oa & ta & ra & Eb & Ea & _ & _ & ->).
    unfold resting in *. cbn [OrderBook.bids_ OrderBook.asks_].
    rewrite Eb, Ea in IH. rewrite occurs_app in *.
    pose proof (occurs_fill_front i kb ob tb rb (Trade.quantity trade)).
    pose proof (occurs_fill_front i ka oa ta ra (Trade.quantity trade)).
    lia.
Qed.

(** No id rests in the book more often than it rested at the start plus
    the number of times it has been handed out since. *)
Lemma run_occurs (i : string) (fuel : nat) (calls : list (Session.call D)) :
  forall (b : OrderBook.t D) log b',
    Session.run fuel calls b = Some (log, b') ->
    occurs i (resting b')
    <= occurs i (resting b) + count_occ string_dec (Session.issued log) i.
Proof.
  induction calls as [|c calls IH]; intros b log b' Hrun.
  - inversion Hrun; subst. cbn. lia.
  - destruct c as [side price quantity| |]; cbn [Session.run] in Hrun.
    + destruct (addOrder_shape side price quantity b)
        as [(_ & what & Hadd)|(_ & Hadd)]; rewrite Hadd in Hrun;
        destruct (Session.run fuel calls _) as [[log1 b2]|] eqn:Hrest;
        try discriminate; inversion Hrun; subst; apply IH in Hrest.
      * cbn [Session.issued]. exact Hrest.
      * cbn [Session.issued].
        assert (occurs i (resting
                   match side with
                   | BUY =>
                       OrderBook.mk
                         (OrderBook.push_at OrderBook.greater price
                            (Order.mk (order_id (OrderBook.next_order_id_ b))
                               side price quantity) (OrderBook.bids_ b))
                         (OrderBook.asks_ b)
                         (wrap (OrderBook.next_order_id_ b + 1))
                   | SELL =>
                       OrderBook.mk (OrderBook.bids_ b)
                         (OrderBook.push_at OrderBook.less price
                            (Order.mk (order_id (OrderBook.next_order_id_ b))
                               side price quantity) (OrderBook.asks_ b))
                         (wrap (OrderBook.next_order_id_ b + 1))
                   end)
                = occurs i (resting b)
                  + occurs i [Order.mk (order_id (OrderBook.next_order_id_ b))
                                side price quantity]) as E.
        { unfold resting. destruct side; cbn [OrderBook.bids_ OrderBook.asks_];
            rewrite !occurs_app, occurs_push_at; lia. }
        change (occurs i [Order.mk (order_id (OrderBook.next_order_id_ b))
                            side price quantity])
          with (count_occ string_dec
                  [order_id (OrderBook.next_order_id_ b)] i) in E.
        rewrite E in Hrest.
        change (count_occ string_dec
                  (order_id (OrderBook.next_order_id_ b)
                   :: Session.issued log1) i)
          with (count_occ string_dec
                  ([order_id (OrderBook.next_order_id_ b)]
                   ++ Session.issued log1) i).
        rewrite count_occ_app. lia.
    + destruct (OrderBook.matchOrders fuel b) as [[trades b1]|] eqn:Hm;
        [|discriminate].
      destruct (Session.run fuel calls b1) as [[log1 b2]|] eqn:Hrest;
        [|discriminate].
      inversion Hrun; subst. apply IH in Hrest. cbn [Session.issued].
      unfold OrderBook.matchOrders in Hm.
      apply loop_returns in Hm as (new & _ & _ & Hin & _).
      pose proof (inside_occurs i Hin). lia.
    + destruct (Session.run fuel calls (OrderBook.reset b))
        as [[log1 b2]|] eqn:Hrest; [|discriminate].
      inversion Hrun; subst. apply IH in Hrest. cbn [Session.issued].
      cbn in Hrest. lia.
Qed.

Lemma accepted_as_later (side : OrderSide) (i : string)
    (hist more : list (Session.event D)) :
  accepted_as side i hist -> accepted_as side i (hist ++ more).
Proof.
  intros (p & q & H). exists p, q. apply in_or_app. auto.
Qed.

Lemma backed_later (hist more : list (Session.event D)) (b : OrderBook.t D) :
  backed hist b -> backed (hist ++ more) b.
Proof.
  intros [Hb Ha]. split; intros o Ho; apply accepted_as_later; auto.
Qed.

Lemma backed_drawn (hist : list (Session.event D)) (b b' : OrderBook.t D) :
  backed hist b ->
  drawn_from (OrderBook.bids_ b) (OrderBook.bids_ b') ->
  drawn_from (OrderBook.asks_ b) (OrderBook.asks_ b') ->
  backed hist b'.
Proof.
  intros [Hb Ha] Db Da. split; intros o' Ho'.
  - destruct (Db o' Ho') as (o & Ho & <-). cbn. auto.
  - destruct (Da o' Ho') as (o & Ho & <-). cbn. auto.
Qed.

Lemma run_backed (fuel : nat) (calls : list (Session.call D)) :
  forall (b : OrderBook.t D) hist log b',
    backed hist b ->
    Session.run fuel calls b = Some (log, b') ->
    forall before trades after,
      log = before ++ Session.Executed trades :: after ->
      forall trade, In trade trades ->
        accepted_as BUY (Trade.buy_order_id trade) (hist ++ before) /\
        accepted_as SELL (Trade.sell_order_id trade) (hist ++ before).
Proof.
  induction calls as [|c calls IH];
    intros b hist log b' Hback Hrun before trades after Hlog trade Ht.
  - inversion Hrun; subst. destruct before; discriminate.
  - destruct c as [side price quantity| |]; cbn [Session.run] in Hrun.
    + destruct (OrderBook.addOrder side price quantity b) as [r b1] eqn:Hadd.
      destruct (Session.run fuel calls b1) as [[log1 b2]|] eqn:Hrest;
        [|discriminate].
      injection Hrun as <- <-.
      destruct before as [|e before]; cbn in Hlog.
      { destruct r; discriminate. }
      injection Hlog as <- ->.
      replace (hist ++ _ :: before) with ((hist ++ [
        match r with
        | Ok id => Session.Accepted side price quantity id
        | Throw x => Session.Rejected side price quantity x
        end]) ++ before) by (rewrite <- app_assoc; reflexivity).
      eapply IH; [|exact Hrest|reflexivity|exact Ht].
      destruct (addOrder_shape side price quantity b)
        as [(_ & what & H)|(_ & H)]; rewrite H in Hadd;
        injection Hadd as <- <-.
      * apply backed_later. exact Hback.
      * destruct Hback as [Hb Ha].
        assert (Hnew : accepted_as side (order_id (OrderBook.next_order_id_ b))
                         (hist ++ [Session.Accepted side price quantity
                                     (order_id (OrderBook.next_order_id_ b))])).
        { exists price, quantity. apply in_or_app. right. cbn. auto. }
        destruct side; split; cbn [OrderBook.bids_ OrderBook.asks_];
          intros o Ho;
          try (apply In_resting_push_at in Ho as [->|Ho]; [exact Hnew|]);
          apply accepted_as_later; auto.
    + destruct (OrderBook.matchOrders fuel b) as [[trades0 b1]|] eqn:Hm;
        [|discriminate].
      destruct (Session.run fuel calls b1) as [[log1 b2]|] eqn:Hrest;
        [|discriminate].
      injection Hrun as <- <-.
      unfold OrderBook.matchOrders in Hm.
      apply loop_returns in Hm as (new & Hnew & Hrec & Hin & _).
      cbn [app] in Hnew. subst trades0.
      destruct before as [|e before]; cbn in Hlog.
      * injection Hlog as <- <-. rewrite app_nil_r.
        rewrite Forall_forall in Hrec.
        destruct (recorded_parties (Hrec trade Ht))
          as (ob & oa & H1 & H2 & -> & -> & _).
        destruct Hback as [Hb Ha]. auto.
      * injection Hlog as <- ->.
        replace (hist ++ Session.Executed new :: before)
          with ((hist ++ [Session.Executed new]) ++ before)
          by (rewrite <- app_assoc; reflexivity).
        eapply IH; [|exact Hrest|reflexivity|exact Ht].
        apply backed_later.
        destruct (inside_keeps Hin) as (Db & Da & _).
        eapply backed_drawn; eauto.
    + destruct (Session.run fuel calls (OrderBook.reset b))
        as [[log1 b2]|] eqn:Hrest; [|discriminate].
      injection Hrun as <- <-.
      destruct before as [|e before]; cbn in Hlog; [discriminate|].
      injection Hlog as <- ->.
      replace (hist ++ Session.Cleared :: before)
        with ((hist ++ [Session.Cleared]) ++ before)
        by (rewrite <- app_assoc; reflexivity).
      eapply IH; [|exact Hrest|reflexivity|exact Ht].
      split; intros o [].
Qed.

End SessionFacts.

(** X11.  In any arithmetic, within one lifetime of a book of at most
    [2^64] calls, no two orders resting in the book have the same id, and
    every id resting in the book is one that [addOrder] returned. *)
Theorem resting_ids_are_distinct (D : Type) (A : Arith D) (fuel : nat)
    (calls : list (Session.call D)) (log : list (Session.event D))
    (b' : OrderBook.t D) :
  Session.one_lifetime calls ->
  (N.of_nat (length calls) <= SIZE_MOD)%N ->
  Session.run fuel calls OrderBook.init = Some (log, b') ->
  NoDup (resting_ids b') /\
  incl (resting_ids b') (Session.issued log).
Proof.
  intros Hlife Hlen Hrun.
  assert (Hissued : NoDup (Session.issued log)).
  { apply (@lifetime_ids_distinct D A fuel calls log b' Hlife Hrun).
    pose proof (@issued_length D A calls fuel OrderBook.init log b' Hrun).
    lia. }
  assert (Hocc : forall i,
             count_occ string_dec (resting_ids b') i
             <= count_occ string_dec (Session.issued log) i).
  { intros i.
    exact (@run_occurs D A i fuel calls OrderBook.init log b' Hrun). }
  split.
  - apply (NoDup_count_occ string_dec). intros i.
    rewrite (NoDup_count_occ string_dec) in Hissued.
    specialize (Hissued i). specialize (Hocc i). lia.
  - intros i Hi. apply (count_occ_In string_dec) in Hi.
    apply (count_occ_In string_dec). specialize (Hocc i). lia.
Qed.

Lemma resting_ids_are_distinct_witness :
  exists log b',
    Session.run 10 sweep OrderBook.init = Some (log, b') /\
    resting_ids b' = ["ORD4"]%string /\
    NoDup (resting_ids b') /\
    incl (resting_ids b') (Session.issued log).
Proof.
  eexists. eexists. split; [reflexivity|]. split; [reflexivity|].
  apply (@resting_ids_are_distinct double binary64 10 sweep).
  - reflexivity.
  - vm_compute. discriminate.
  - reflexivity.
Defined.

(** X12.  In any arithmetic and across resets, every trade a session
    reports is between orders accepted earlier in that session: the buyer's
    id was returned by an earlier [addOrder] for the BUY side and the
    seller's id by an earlier [addOrder] for the SELL side. *)
Theorem trades_name_accepted_orders (D : Type) (A : Arith D) (fuel : nat)
    (calls : list (Session.call D)) (log : list (Session.event D))
    (b' : OrderBook.t D) :
  Session.run fuel calls OrderBook.init = Some (log, b') ->
  trades_backed log.
Proof.
  intros Hrun before trades after Hlog trade Ht.
  apply (@run_backed D A fuel calls OrderBook.init [] log b')
    with (trades := trades) (after := after); auto.
  split; intros o [].
Qed.

Lemma trades_name_accepted_orders_witness :
  exists log b',
    Session.run 10 sweep OrderBook.init = Some (log, b') /\
    length (Session.reported log) = 2 /\
    trades_backed log.
Proof.
  eexists. eexists. split; [reflexivity|]. split; [reflexivity|].
  apply (@trades_name_accepted_orders double binary64 10 sweep _ _ eq_refl).
Defined.

Section Nonzero.
Context {D : Type} {A : Arith D}.

Lemma reachable_live (b : OrderBook.t D) :
  (forall x : D, deq x d0 = true -> dle x d0 = true) ->
  reachable b -> live (OrderBook.bids_ b) /\ live (OrderBook.asks_ b).
Proof.
  intros Hlaw.
  assert (Hpush : forall comp id side p q (m : OrderBook.price_map D),
             dle p d0 = false -> dle q d0 = false -> live m ->
             live (OrderBook.push_at comp p (Order.mk id side p q) m)).
  { intros comp id side p q m Hp Hq Hm o Ho.
    apply In_resting_push_at in Ho as [->|Ho]; [|auto].
    cbn. split; [|exact Hp].
    destruct (deq q d0) eqn:E; [|reflexivity].
    apply Hlaw in E. congruence. }
  assert (Hfill : forall k f tl (rest : OrderBook.price_map D) tq,
             live ((k, f :: tl) :: rest) ->
             live (OrderBook.fill_front k f tl rest tq)).
  { intros k f tl rest tq Hm o Ho.
    apply In_resting_fill_front in Ho as [[-> Hrem]|[Ho|Ho]].
    - cbn. split; [exact Hrem|].
      apply (Hm f). rewrite resting_in_cons. cbn. auto.
    - apply Hm. rewrite resting_in_cons, in_app_iff. cbn. auto.
    - apply Hm. rewrite resting_in_cons, in_app_iff. auto. }
  apply (@reachable_maps D A live live); auto; intros o [].
Qed.

End Nonzero.

Lemma binary64_best_bid (b : OrderBook.t double) (k : double)
    (os : list (Order.t double)) (rest : OrderBook.price_map double)
    (p : double) :
  reachable b -> OrderBook.bids_ b = (k, os) :: rest ->
  In p (keys (OrderBook.bids_ b)) -> dlt k p = false.
Proof.
  intros Hb E Hp.
  destruct (reachable_sorted binary64_lt_transitive Hb) as [Hd _].
  rewrite E in *.
  apply (@sorted_head_first _ OrderBook.greater k (keys rest) p); auto.
  - intros x. apply binary64_lt_irrefl.
  - intros x y. apply binary64_lt_asym.
Qed.

Lemma binary64_best_ask (b : OrderBook.t double) (k : double)
    (os : list (Order.t double)) (rest : OrderBook.price_map double)
    (p : double) :
  reachable b -> OrderBook.asks_ b = (k, os) :: rest ->
  In p (keys (OrderBook.asks_ b)) -> dlt p k = false.
Proof.
  intros Hb E Hp.
  destruct (reachable_sorted binary64_lt_transitive Hb) as [_ Ha].
  rewrite E in *.
  apply (@sorted_head_first _ OrderBook.less k (keys rest) p); auto.
  - intros x. apply binary64_lt_irrefl.
  - intros x y. apply binary64_lt_asym.
Qed.

(** X13.  In binary64, on a book reached through the interface, no trade
    trades through a better price: when the matching loop records a trade,
    no ask resting at that moment is priced below the trade's price, and
    the buyer is the front order of a bid level above which no bid is
    priced. *)
Theorem trades_take_the_best_prices (b : OrderBook.t double) :
  reachable b ->
  forall bi bi' trade,
    inside b bi ->
    OrderBook.body bi = OrderBook.Matched trade bi' ->
    (forall p q, In (p, q) (OrderBook.getAsks bi) ->
                 dlt p (Trade.price trade) = false) /\
    exists kb ob tb rb,
      OrderBook.bids_ bi = (kb, ob :: tb) :: rb /\
      Trade.buy_order_id trade = Order.id ob /\
      (forall p q, In (p, q) (OrderBook.getBids bi) -> dlt kb p = false).
Proof.
  intros Hb bi bi' trade Hin Hstep.
  pose proof (inside_reachable Hb Hin) as Hbi.
  apply matched_inv in Hstep
    as (kb & ob & tb & rb & ka & oa & ta & ra & Eb & Ea & _ & -> & _).
  cbn [Trade.price Trade.buy_order_id]. split.
  - intros p q Hp. apply In_depth_key in Hp.
    eapply binary64_best_ask; eauto.
  - exists kb, ob, tb, rb. repeat split; auto.
    intros p q Hp. apply In_depth_key in Hp.
    eapply binary64_best_bid; eauto.
Qed.

Lemma trades_take_the_best_prices_witness :
  exists trade bi',
    OrderBook.body crossed_book = OrderBook.Matched trade bi' /\
    Trade.price trade = 45000%float /\
    OrderBook.getAsks crossed_book = [(45000, 1); (45050, 1)]%float /\
    (forall p q, In (p, q) (OrderBook.getAsks crossed_book) ->
                 dlt p (Trade.price trade) = false).
Proof.
  eexists. eexists. split; [reflexivity|].
  split; [reflexivity|]. split; [reflexivity|].
  refine (proj1 (@trades_take_the_best_prices crossed_book _ crossed_book
                   _ _ (inside_entry _) eq_refl)).
  apply reachable_place. apply reachable_init.
Defined.

(** X14.  In binary64, on every book reached through the interface, no
    resting order has a quantity that compares equal to zero, and none has a
    price [<= 0]: an order whose remaining quantity reaches zero does not
    stay in the book. *)
Theorem no_resting_order_is_spent (b : OrderBook.t double) :
  reachable b ->
  forall o, In o (resting b) ->
    deq (Order.quantity o) d0 = false /\ dle (Order.price o) d0 = false.
Proof.
  intros Hb o Ho.
  destruct (@reachable_live double binary64 b) as [Hbids Hasks]; auto.
  { intros x. apply binary64_eq_le. }
  unfold resting in Ho. apply in_app_or in Ho as [Ho|Ho]; auto.
Qed.

Lemma no_resting_order_is_spent_witness :
  exists trades b',
    OrderBook.matchOrders 10 queue_book = Some (trades, b') /\
    map (@Order.quantity double) (resting b') = [1.5]%float /\
    forall o, In o (resting b') ->
      deq (Order.quantity o) d0 = false /\ dle (Order.price o) d0 = false.
Proof.
  eexists. eexists. split; [reflexivity|]. split; [reflexivity|].
  apply no_resting_order_is_spent.
  assert (Hq : reachable queue_book)
    by (apply reachable_place; apply reachable_init).
  exact (@loop_reachable double binary64 10 queue_book [] _ Hq eq_refl).
Defined.

(** X15.  In any arithmetic, on every book reached through the interface,
    every price level holds at least one order, so every entry of
    [getBids()] and [getAsks()] stands for resting orders, and the branch
    of [matchOrders] that erases an empty level is never taken. *)
Theorem price_levels_are_never_empty (D : Type) (A : Arith D)
    (b : OrderBook.t D) :
  reachable b ->
  no_empty_level b /\
  (forall b', OrderBook.body b <> OrderBook.Cleaned b') /\
  length (OrderBook.getBids b) <= length (resting_in (OrderBook.bids_ b)) /\
  length (OrderBook.getAsks b) <= length (resting_in (OrderBook.asks_ b)).
Proof.
  intros Hb. pose proof (reachable_no_empty_level Hb) as Hne.
  split; [exact Hne|]. split.
  { intros b'. apply reachable_never_cleans. exact Hb. }
  assert (Hcount : forall m : OrderBook.price_map D,
             (forall l, In l m -> snd l <> []) ->
             length (OrderBook.depth m) <= length (resting_in m)).
  { induction m as [|[k os] m IH]; intros Hm; [cbn; lia|].
    assert (os <> []) by (apply (Hm (k, os)); cbn; auto).
    assert (length (OrderBook.depth m) <= length (resting_in m)).
    { apply IH. intros l Hl. apply Hm. cbn. auto. }
    rewrite resting_in_cons, length_app.
    change (OrderBook.depth ((k, os) :: m))
      with ((k, fold_left (fun total o => dadd total (Order.quantity o)) os d0)
            :: OrderBook.depth m).
    destruct os; [congruence|]. cbn [length]. lia. }
  unfold no_empty_level in Hne.
  split; apply Hcount; intros l Hl; apply Hne; auto.
Qed.

Lemma price_levels_are_never_empty_witness :
  no_empty_level ladder /\
  (forall b', OrderBook.body ladder <> OrderBook.Cleaned b') /\
  length (OrderBook.getBids ladder)
  <= length (resting_in (OrderBook.bids_ ladder)) /\
  length (OrderBook.getAsks ladder)
  <= length (resting_in (OrderBook.asks_ ladder)).
Proof.
  apply price_levels_are_never_empty.
  apply reachable_place. apply reachable_init.
Defined.

(** ** What the checks let through in binary64 *)

Lemma SFcompare_refl (x : spec_float) :
  SFcompare x x = match x with S754_nan => None | _ => Some Eq end.
Proof.
  destruct x as [s|s| |s m e]; cbn; try destruct s; auto;
    rewrite Z.compare_refl;
    change (PosDef.Pos.compare_cont Eq m m) with (Pos.compare m m);
    rewrite Pos.compare_refl; reflexivity.
Qed.

Lemma is_nan_spec (x : double) :
  PrimFloat.is_nan x = match Prim2SF x with S754_nan => true | _ => false end.
Proof.
  unfold PrimFloat.is_nan. rewrite eqb_spec. unfold SFeqb.
  rewrite SFcompare_refl. destruct (Prim2SF x); reflexivity.
Qed.

(** [x <= 0] is false exactly when [0 < x] or [x] is NaN. *)
Lemma binary64_not_le_zero (x : double) :
  dle x d0 = false <-> dlt d0 x = true \/ PrimFloat.is_nan x = true.
Proof.
  cbn [dle dlt d0 binary64]. rewrite leb_spec, ltb_spec, is_nan_spec.
  change (Prim2SF 0) with (S754_zero false).
  unfold SFleb, SFltb. destruct (Prim2SF x) as [s|s| |s m e]; cbn;
    try destruct s; intuition congruence.
Qed.

(** [x < 0] is false exactly when [0 <= x] or [x] is NaN. *)
Lemma binary64_not_lt_zero (x : double) :
  dlt x d0 = false <-> dle d0 x = true \/ PrimFloat.is_nan x = true.
Proof.
  cbn [dle dlt d0 binary64]. rewrite leb_spec, ltb_spec, is_nan_spec.
  change (Prim2SF 0) with (S754_zero false).
  unfold SFleb, SFltb. destruct (Prim2SF x) as [s|s| |s m e]; cbn;
    try destruct s; intuition congruence.
Qed.

(** X16.  In binary64, [addOrder] accepts exactly the orders whose price
    and quantity are each greater than zero or NaN, and [addPrice] accepts
    exactly the prices that are at least zero (negative zero included) or
    NaN: NaN is the only value that is not positive and passes the check of
    [addOrder], and the only value that is not at least zero and passes the
    check of [addPrice]. *)
Theorem checks_admit_positive_or_nan :
  (forall (side : OrderSide) (price quantity : double)
          (b : OrderBook.t double),
     (exists id b', OrderBook.addOrder side price quantity b = (Ok id, b'))
     <->
     (dlt d0 price = true \/ PrimFloat.is_nan price = true) /\
     (dlt d0 quantity = true \/ PrimFloat.is_nan quantity = true)) /\
  (forall (price : double) (s : SMACalculator.t double),
     (exists s', SMACalculator.addPrice price s = (Ok tt, s'))
     <->
     (dle d0 price = true \/ PrimFloat.is_nan price = true)).
Proof.
  split.
  - intros side price quantity b.
    rewrite <- !binary64_not_le_zero.
    destruct (addOrder_shape side price quantity b)
      as [(Hbad & what & H)|(Hok & H)]; rewrite H.
    + split.
      * intros (id & b' & E). discriminate.
      * intros [Hp Hq]. rewrite Hp, Hq in Hbad. discriminate.
    + apply orb_false_elim in Hok. split; [intros _; exact Hok|].
      intros _. eexists. eexists. reflexivity.
  - intros price s. rewrite <- binary64_not_lt_zero.
    unfold SMACalculator.addPrice. destruct (dlt price d0); split.
    + intros (s' & E). discriminate.
    + discriminate.
    + reflexivity.
    + intros _. eexists. reflexivity.
Qed.

(** ** A NaN observation *)

Lemma binary64_add_nan (x : double) :
  (PrimFloat.add PrimFloat.nan x = PrimFloat.nan)%float.
Proof.
  apply Prim2SF_inj. rewrite add_spec. change (Prim2SF nan) with S754_nan.
  destruct (Prim2SF x); reflexivity.
Qed.

Lemma binary64_add_nan_r (x : double) :
  (PrimFloat.add x PrimFloat.nan = PrimFloat.nan)%float.
Proof.
  apply Prim2SF_inj. rewrite add_spec. change (Prim2SF nan) with S754_nan.
  destruct (Prim2SF x); reflexivity.
Qed.

Lemma binary64_sub_nan (x : double) :
  (PrimFloat.sub PrimFloat.nan x = PrimFloat.nan)%float.
Proof.
  apply Prim2SF_inj. rewrite sub_spec. change (Prim2SF nan) with S754_nan.
  destruct (Prim2SF x); reflexivity.
Qed.

Lemma binary64_div_nan (x : double) :
  (PrimFloat.div PrimFloat.nan x = PrimFloat.nan)%float.
Proof.
  apply Prim2SF_inj. rewrite div_spec. change (Prim2SF nan) with S754_nan.
  destruct (Prim2SF x); reflexivity.
Qed.

Section Poison.
Import SMACalculator.

Lemma nan_sum_stays (calls : list (Feed.call double)) :
  no_reset calls ->
  forall s : SMACalculator.t double,
    running_sum_ s = PrimFloat.nan ->
    current_size_ s <> 0%N ->
    (window_size_ s < SIZE_MOD)%N ->
    (current_size_ s <= window_size_ s)%N ->
    let s' := Feed.run calls s in
    running_sum_ s' = PrimFloat.nan /\ current_size_ s' <> 0%N.
Proof.
  induction 1 as [|c calls Hc Hcalls IH]; intros s Hsum Hsize Hw Hle.
  - cbn. auto.
  - destruct c as [x|]; [|congruence]. cbn [Feed.run]. apply IH.
    + unfold addPrice. destruct (dlt x d0); cbn [snd running_sum_]; auto.
      rewrite Hsum. destruct (current_size_ s =? window_size_ s)%N;
        cbn [dadd dsub binary64];
        rewrite ?binary64_sub_nan, binary64_add_nan; reflexivity.
    + unfold addPrice. destruct (dlt x d0); cbn [snd current_size_]; auto.
      destruct (N.ltb_spec (current_size_ s) (window_size_ s)); auto.
      rewrite wrap_small; lia.
    + unfold addPrice. destruct (dlt x d0); cbn; auto.
    + unfold addPrice. destruct (dlt x d0); cbn; auto.
      destruct (N.ltb_spec (current_size_ s) (window_size_ s)); auto.
      rewrite wrap_small; lia.
Qed.

End Poison.

(** X17.  In binary64, a NaN observation is accepted by [addPrice] and
    stays in the running sum: from then on, until the next [reset],
    [getSMA()] returns NaN after every call, also once the NaN observation
    has left the window. *)
Theorem nan_observation_poisons_the_average (w : N)
    (s0 : SMACalculator.t double) (before after : list (Feed.call double)) :
  (0 < w < SIZE_MOD)%N ->
  SMACalculator.new w = Ok s0 ->
  no_reset after ->
  SMACalculator.getSMA
    (Feed.run (before ++ Feed.AddPrice PrimFloat.nan :: after) s0)
  = PrimFloat.nan.
Proof.
  intros Hw Hnew Hafter.
  destruct (new_shaped _ Hnew) as (Hs & Hc & Hwin & _).
  destruct (@run_tracked double binary64 w Hw before [] s0 Hs)
    as ([H1 H2 H3 H4 H5] & _ & _).
  { rewrite Hc. cbn. lia. }
  { rewrite Hwin, Hc. reflexivity. }
  rewrite run_app. cbn [Feed.run].
  set (s := Feed.run before s0) in *.
  destruct (@nan_sum_stays after Hafter
              (snd (SMACalculator.addPrice PrimFloat.nan s))) as [Hsum Hsize].
  - unfold SMACalculator.addPrice.
    change (dlt PrimFloat.nan d0) with false.
    cbn [snd SMACalculator.running_sum_ dadd binary64].
    apply binary64_add_nan_r.
  - unfold SMACalculator.addPrice.
    change (dlt PrimFloat.nan d0) with false.
    cbn [snd SMACalculator.current_size_].
    destruct (N.ltb_spec (SMACalculator.current_size_ s)
                (SMACalculator.window_size_ s)).
    + rewrite wrap_small; lia.
    + lia.
  - unfold SMACalculator.addPrice.
    change (dlt PrimFloat.nan d0) with false.
    cbn [snd SMACalculator.window_size_]. lia.
  - unfold SMACalculator.addPrice.
    change (dlt PrimFloat.nan d0) with false.
    cbn [snd SMACalculator.current_size_ SMACalculator.window_size_].
    destruct (N.ltb_spec (SMACalculator.current_size_ s)
                (SMACalculator.window_size_ s)).
    + rewrite wrap_small; lia.
    + lia.
  - unfold SMACalculator.getSMA.
    destruct (N.eqb_spec
                (SMACalculator.current_size_
                   (Feed.run after
                      (snd (SMACalculator.addPrice PrimFloat.nan s)))) 0);
      [congruence|].
    rewrite Hsum. cbn [ddiv binary64]. apply binary64_div_nan.
Qed.

Lemma nan_observation_poisons_the_average_witness :
  exists s0 : SMACalculator.t double,
    SMACalculator.new 2 = Ok s0 /\
    let calls := [Feed.AddPrice 5; Feed.AddPrice PrimFloat.nan;
                  Feed.AddPrice 1; Feed.AddPrice 2; Feed.AddPrice 3]%float in
    window (Feed.run calls s0) = [2; 3]%float /\
    SMACalculator.getSMA (Feed.run calls s0) = PrimFloat.nan.
Proof.
  eexists. split; [reflexivity|]. cbv zeta. split; [reflexivity|].
  apply (@nan_observation_poisons_the_average 2 _ [Feed.AddPrice 5%float]
           [Feed.AddPrice 1; Feed.AddPrice 2; Feed.AddPrice 3]%float).
  - vm_compute. split; reflexivity.
  - reflexivity.
  - repeat constructor; discriminate.
Defined.

(** ** Limit prices *)

(** Of three numbers the middle one of which is not NaN: when the first is
    below the third, the first is below the middle one or the middle one is
    below the third. *)
Lemma SFltb_between (x y z : spec_float) :
  y <> S754_nan ->
  SFltb x z = true -> SFltb x y = true \/ SFltb y z = true.
Proof.
  unfold SFltb, SFcompare.
  destruct x as [sx|sx| |sx mx ex], y as [sy|sy| |sy my ey],
    z as [sz|sz| |sz mz ez];
    try destruct sx; try destruct sy; try destruct sz;
    intros Hy; try congruence; try discriminate; auto.
  - change (PosDef.Pos.compare_cont Eq ?a ?b) with (Pos.compare a b).
    destruct (Z.compare_spec ex ey), (Z.compare_spec ey ez),
      (Z.compare_spec ex ez); subst; try discriminate; auto; try lia;
      destruct (Pos.compare_spec mx my), (Pos.compare_spec my mz),
        (Pos.compare_spec mx mz); cbn; try discriminate; auto; try lia.
  - change (PosDef.Pos.compare_cont Eq ?a ?b) with (Pos.compare a b).
    destruct (Z.compare_spec ex ey), (Z.compare_spec ey ez),
      (Z.compare_spec ex ez); subst; try discriminate; auto; try lia;
      destruct (Pos.compare_spec mx my), (Pos.compare_spec my mz),
        (Pos.compare_spec mx mz); cbn; try discriminate; auto; try lia.
Qed.

Lemma binary64_lt_between (x y z : double) :
  PrimFloat.is_nan y = false ->
  dlt x z = true -> dlt x y = true \/ dlt y z = true.
Proof.
  cbn [dlt binary64]. rewrite is_nan_spec, !ltb_spec. intros Hy.
  apply SFltb_between. intros E. rewrite E in Hy. discriminate.
Qed.

Lemma inside_keys (D : Type) (A : Arith D) (b bi : OrderBook.t D) :
  inside b bi ->
  incl (keys (OrderBook.bids_ bi)) (keys (OrderBook.bids_ b)) /\
  incl (keys (OrderBook.asks_ bi)) (keys (OrderBook.asks_ b)).
Proof.
  induction 1 as [|bi bi' Hin [IHb IHa] Hstep|bi trade bi' Hin [IHb IHa] Hstep].
  - split; apply incl_refl.
  - apply cleaned_inv in Hstep
      as (kb & bos & rb & ka & aos & ra & Eb & Ea & _ & Eb' & Ea' & _).
    rewrite Eb', Ea'. rewrite Eb, Ea in *.
    split; [destruct bos | destruct aos]; auto;
      intros x Hx; [apply IHb | apply IHa]; cbn; auto.
  - apply matched_inv in Hstep
      as (kb & ob & tb & rb & ka & oa & ta & ra & Eb & Ea & _ & _ & ->).
    cbn [OrderBook.bids_ OrderBook.asks_]. rewrite Eb, Ea in *.
    split; intros x Hx; [apply IHb | apply IHa];
      apply In_keys_fill_front in Hx as [->|Hx]; cbn; auto.
Qed.

(** X18.  In binary64, on a book reached through the interface in which no
    price level is priced NaN, no trade goes beyond a limit price: when the
    matching loop records a trade, its price is a number, not above the
    price the buyer was submitted with and not below the price the seller
    was submitted with. *)
Theorem trades_respect_limit_prices (b : OrderBook.t double) :
  reachable b ->
  (forall p, In p (map fst (OrderBook.getBids b ++ OrderBook.getAsks b)) ->
             PrimFloat.is_nan p = false) ->
  forall bi bi' trade,
    inside b bi ->
    OrderBook.body bi = OrderBook.Matched trade bi' ->
    exists kb ob tb rb ka oa ta ra,
      OrderBook.bids_ bi = (kb, ob :: tb) :: rb /\
      OrderBook.asks_ bi = (ka, oa :: ta) :: ra /\
      Trade.buy_order_id trade = Order.id ob /\
      Trade.sell_order_id trade = Order.id oa /\
      PrimFloat.is_nan (Trade.price trade) = false /\
      dlt (Order.price ob) (Trade.price trade) = false /\
      dlt (Trade.price trade) (Order.price oa) = false.
Proof.
  intros Hb Hnan bi bi' trade Hin Hstep.
  pose proof (inside_reachable Hb Hin) as Hbi.
  destruct (reachable_filed Hbi) as [Fb Fa].
  destruct (inside_keys Hin) as [Kb Ka].
  assert (Hnb : forall p, In p (keys (OrderBook.bids_ b)) ->
                          PrimFloat.is_nan p = false).
  { intros p Hp. apply Hnan. rewrite map_app. apply in_or_app. left.
    unfold OrderBook.getBids. rewrite keys_depth. exact Hp. }
  assert (Hna : forall p, In p (keys (OrderBook.asks_ b)) ->
                          PrimFloat.is_nan p = false).
  { intros p Hp. apply Hnan. rewrite map_app. apply in_or_app. right.
    unfold OrderBook.getAsks. rewrite keys_depth. exact Hp. }
  apply matched_inv in Hstep
    as (kb & ob & tb & rb & ka & oa & ta & ra & Eb & Ea & Hcross & -> & _).
  exists kb, ob, tb, rb, ka, oa, ta, ra.
  cbn [Trade.price Trade.buy_order_id Trade.sell_order_id].
  repeat split; auto.
  - apply Hna, Ka. rewrite Ea. cbn. auto.
  - assert (Hkb : PrimFloat.is_nan kb = false).
    { apply Hnb, Kb. rewrite Eb. cbn. auto. }
    assert (Hown : dlt (Order.price ob) kb = false).
    { destruct (Fb kb (ob :: tb) ob) as [->|[_ H]]; auto.
      - rewrite Eb. cbn. auto.
      - cbn. auto.
      - apply binary64_lt_irrefl. }
    destruct (dlt (Order.price ob) ka) eqn:E; [|reflexivity].
    destruct (binary64_lt_between kb Hkb E); congruence.
  - destruct (Fa ka (oa :: ta) oa) as [->|[H _]]; auto.
    + rewrite Ea. cbn. auto.
    + cbn. auto.
    + apply binary64_lt_irrefl.
Qed.

Lemma trades_respect_limit_prices_witness :
  exists trade bi',
    OrderBook.body crossed_book = OrderBook.Matched trade bi' /\
    Trade.price trade = 45000%float /\
    exists kb ob tb rb ka oa ta ra,
      OrderBook.bids_ crossed_book = (kb, ob :: tb) :: rb /\
      OrderBook.asks_ crossed_book = (ka, oa :: ta) :: ra /\
      Trade.buy_order_id trade = Order.id ob /\
      Trade.sell_order_id trade = Order.id oa /\
      PrimFloat.is_nan (Trade.price trade) = false /\
      dlt (Order.price ob) (Trade.price trade) = false /\
      dlt (Trade.price trade) (Order.price oa) = false.
Proof.
  eexists. eexists. split; [reflexivity|]. split; [reflexivity|].
  apply (@trades_respect_limit_prices crossed_book)
    with (bi' := after_step crossed_book).
  - apply reachable_place. apply reachable_init.
  - intros p [<-|[<-|[<-|[]]]]; reflexivity.
  - apply inside_entry.
  - reflexivity.
Defined.

(** The condition is needed: a buy order priced NaN opens a level that every
    later buy order joins, and a buy order with limit 5 resting there is
    filled at 10. *)
Example nan_bid_level_ignores_limits :
  let b := place [(BUY, nan, 1); (BUY, 5, 1); (SELL, 10, 2)]%float
             OrderBook.init in
  reachable b /\
  exists b',
    OrderBook.matchOrders 10 b
    = Some ([Trade.mk "ORD1" "ORD3" 10 1; Trade.mk "ORD2" "ORD3" 10 1]%float,
            b') /\
    In (Order.mk "ORD2" BUY 5 1)%float (resting b).
Proof.
  cbv zeta. split.
  - apply reachable_place. apply reachable_init.
  - eexists. split; [reflexivity|]. cbn. auto.
Qed.

(** ** Time priority *)

Section Ranking.
Context {D : Type} {A : Arith D}.










End Ranking.

(** *** Prices that compare equal, in binary64 *)



(** An order and the key of its level: neither is below the other. *)
Lemma binary64_filed_key (m : OrderBook.price_map double) (k : double)
    (os : list (Order.t double)) (o : Order.t double) :
  filed m -> In (k, os) m -> In o os ->
  dlt k (Order.price o) = false /\ dlt (Order.price o) k = false.
Proof.
  intros Hm Hl Ho. destruct (Hm k os o Hl Ho) as [->|[H1 H2]]; auto.
  split; apply binary64_lt_irrefl.
Qed.





(** ** The price of a trade and the price of its seller *)

(** Two numbers neither of which is below the other compare equal. *)
Lemma SFeqb_total (x y : spec_float) :
  x <> S754_nan -> y <> S754_nan ->
  SFltb x y = false -> SFltb y x = false -> SFeqb x y = true.
Proof.
  unfold SFeqb, SFltb, SFcompare.
  destruct x as [sx|sx| |sx mx ex], y as [sy|sy| |sy my ey];
    try destruct sx; try destruct sy;
    intros Hx Hy; try congruence; try discriminate; auto;
    change (PosDef.Pos.compare_cont Eq ?a ?b) with (Pos.compare a b) in *;
    destruct (Z.compare_spec ex ey), (Z.compare_spec ey ex);
    try discriminate; try lia; auto;
    destruct (Pos.compare_spec mx my), (Pos.compare_spec my mx); cbn;
    try discriminate; try lia; auto.
Qed.

Lemma binary64_eq_total (x y : double) :
  PrimFloat.is_nan x = false -> PrimFloat.is_nan y = false ->
  dlt x y = false -> dlt y x = false -> deq x y = true.
Proof.
  cbn [deq dlt binary64]. rewrite eqb_spec, !is_nan_spec, !ltb_spec.
  intros Hx Hy. apply SFeqb_total.
  - intros E. rewrite E in Hx. discriminate.
  - intros E. rewrite E in Hy. discriminate.
Qed.

(** Where no price is NaN the claim holds: on a book reached through the
    interface, in binary64, in which no ask level is priced NaN and no
    resting sell order was submitted at NaN, the price of every trade the
    loop records compares equal to the price its seller was submitted
    with. *)
Lemma trade_price_is_sellers_price (b : OrderBook.t double) :
  reachable b ->
  (forall p, In p (map fst (OrderBook.getAsks b)) ->
             PrimFloat.is_nan p = false) ->
  (forall o, In o (resting_in (OrderBook.asks_ b)) ->
             PrimFloat.is_nan (Order.price o) = false) ->
  forall bi bi' trade,
    inside b bi ->
    OrderBook.body bi = OrderBook.Matched trade bi' ->
    exists ka oa ta ra,
      OrderBook.asks_ bi = (ka, oa :: ta) :: ra /\
      Trade.sell_order_id trade = Order.id oa /\
      deq (Trade.price trade) (Order.price oa) = true.
Proof.
  intros Hb Hkeys Hprices bi bi' trade Hin Hstep.
  pose proof (inside_reachable Hb Hin) as Hbi.
  destruct (reachable_filed Hbi) as [_ Fa].
  destruct (inside_keys Hin) as [_ Ka].
  destruct (inside_keeps Hin) as (_ & Da & _).
  apply matched_inv in Hstep
    as (kb & ob & tb & rb & ka & oa & ta & ra & Eb & Ea & _ & -> & _).
  exists ka, oa, ta, ra. cbn [Trade.price Trade.sell_order_id].
  repeat split; auto.
  assert (Hka : PrimFloat.is_nan ka = false).
  { apply Hkeys. unfold OrderBook.getAsks. rewrite keys_depth.
    apply Ka. rewrite Ea. cbn. auto. }
  assert (Hoa : PrimFloat.is_nan (Order.price oa) = false).
  { destruct (Da oa) as (o & Ho & <-).
    - rewrite Ea, resting_in_cons. cbn. auto.
    - cbn. auto. }
  destruct (@binary64_filed_key _ ka (oa :: ta) oa Fa) as [K1 K2].
  - rewrite Ea. cbn. auto.
  - cbn. auto.
  - apply binary64_eq_total; auto.
Qed.

(** C2 at its failing input.  [addOrder(SELL, NaN, 1.0)] is accepted and
    opens an ask level keyed NaN, which the sell order at 3 then joins.  A
    bid at 2 is matched against both: the two trades are priced NaN, and
    the sell order submitted at 3 is sold at NaN to a buyer whose limit is
    2. *)
Theorem trade_executes_at_nan_price :
  dle nan d0 = false /\
  fst (OrderBook.addOrder SELL nan 1%float OrderBook.init)
  = Ok "ORD1"%string /\
  reachable nan_ask_book /\
  OrderBook.asks_ nan_ask_book
  = [(nan, [Order.mk "ORD1" SELL nan 1; Order.mk "ORD2" SELL 3 1])]%float /\
  OrderBook.bids_ nan_ask_book
  = [(2, [Order.mk "ORD3" BUY 2 1.5])]%float /\
  exists b',
    OrderBook.matchOrders 3 nan_ask_book
    = Some ([Trade.mk "ORD3" "ORD1" nan 1;
             Trade.mk "ORD3" "ORD2" nan 0.5]%float, b') /\
    deq nan 3%float = false /\
    dlt 2%float 3%float = true.
Proof.
  split; [reflexivity|]. split; [reflexivity|]. split.
  { apply reachable_place. apply reachable_init. }
  split; [reflexivity|]. split; [reflexivity|].
  eexists. split; [vm_compute; reflexivity|].
  split; reflexivity.
Qed.
